(** * REPR: the physically-based shading model and its host, in Rocq

    A shallow embedding of the GLSL shaders and of the TypeScript host of
    the REPR renderer.

    - GLSL [float] values are modelled as real numbers ([R]); rounding is
      not modelled.  Division is the total division of [R]; where the
      shader divides, the divisor is a named definition so that it can be
      bounded.
    - GLSL vectors are records of reals with the component-wise operators
      of the language.
    - JavaScript objects used as maps ([_uniforms], [defines]) are [gmap]s
      keyed by strings; a [throw] is an error result.

    Two fragment shaders exist in the repository: the base variant
    ([BaseFrag], with its vertex stage [BaseVert]) and the
    image-based-lighting variant ([IblFrag], with its host [IblHost]).
    The shader program cache of the specification is [ProgramCache]. *)

From Stdlib Require Import Reals Lra Lia Ascii.
From stdpp Require Import gmap strings list pretty.

Open Scope R_scope.

(** ** GLSL vectors and built-in functions *)

Module Glsl.

Record vec2 : Type := Vec2 { ux : R; uy : R }.
Record vec3 : Type := Vec3 { vx : R; vy : R; vz : R }.
(** A [vec4] is only ever used as a colour with an alpha channel. *)
Record vec4 : Type := Vec4 { rgb : vec3; alpha : R }.

(** [vec3(s)] *)
Definition vec3s (s : R) : vec3 := Vec3 s s s.

Definition vmap (f : R -> R) (v : vec3) : vec3 :=
  Vec3 (f (vx v)) (f (vy v)) (f (vz v)).
Definition vzip (f : R -> R -> R) (v w : vec3) : vec3 :=
  Vec3 (f (vx v) (vx w)) (f (vy v) (vy w)) (f (vz v) (vz w)).

(** Component-wise operators: [v + w], [v - w], [v * w], [-v]. *)
Definition vadd : vec3 -> vec3 -> vec3 := vzip Rplus.
Definition vsub : vec3 -> vec3 -> vec3 := vzip Rminus.
Definition vmul : vec3 -> vec3 -> vec3 := vzip Rmult.
Definition vneg : vec3 -> vec3 := vmap Ropp.
(** Vector with scalar: [v * s], [s * v], [v / s], [v + s], [v - s], [s - v]. *)
Definition vscale (v : vec3) (s : R) : vec3 := vmap (fun c => c * s) v.
Definition sscale (s : R) (v : vec3) : vec3 := vmap (fun c => s * c) v.
Definition vdivs (v : vec3) (s : R) : vec3 := vmap (fun c => c / s) v.
Definition vadds (v : vec3) (s : R) : vec3 := vmap (fun c => c + s) v.
Definition vsubs (v : vec3) (s : R) : vec3 := vmap (fun c => c - s) v.
Definition ssubv (s : R) (v : vec3) : vec3 := vmap (fun c => s - c) v.

Definition dot (v w : vec3) : R := vx v * vx w + vy v * vy w + vz v * vz w.
(** [length(v)] *)
Definition vlength (v : vec3) : R := sqrt (dot v v).
(** [normalize(v)]: [v / length(v)]; GLSL leaves the zero vector undefined. *)
Definition normalize (v : vec3) : vec3 := vdivs v (vlength v).
(** [reflect(I, N)] = [I - 2 * dot(N, I) * N] *)
Definition reflect (I N : vec3) : vec3 := vsub I (sscale (2 * dot N I) N).

Definition max (a b : R) : R := Rmax a b.

(** [pow(x, y)]: [x^y] for [x > 0]; [pow(0, y) = 0] for [y > 0].  GLSL leaves
    a negative base undefined; the model returns [0] there. *)
Definition pow (x y : R) : R := if Rlt_dec 0 x then Rpower x y else 0.

(** [mix(x, y, a)] = [x * (1 - a) + y * a] *)
Definition mix (x y a : R) : R := x * (1 - a) + y * a.
Definition vmix (v w : vec3) (a : R) : vec3 := vzip (fun p q => mix p q a) v w.

(** [for (int i = start; i < start + count; ++i) body]: the loop state is
    threaded through [body]. *)
Fixpoint for_loop {S : Type} (count start : nat) (body : nat -> S -> S) (s : S) : S :=
  match count with
  | O => s
  | Datatypes.S count' => for_loop count' (Datatypes.S start) body (body start s)
  end.

(** [lessThanEqual] on one channel, and the conversion [float(bool)]. *)
Definition lessThanEqual (a b : R) : bool := if Rle_dec a b then true else false.
Definition float_of_bool (b : bool) : R := if b then 1 else 0.

(** Two-argument [atan(y, x)]: the angle of the point [(x, y)], in
    [[-PI, PI]]; GLSL leaves [atan(0, 0)] undefined, the model returns [0]. *)
Definition atan2 (y x : R) : R :=
  if Rlt_dec 0 x then atan (y / x)
  else if Rlt_dec x 0 then
    (if Rle_dec 0 y then atan (y / x) + Rtrigo1.PI else atan (y / x) - Rtrigo1.PI)
  else if Rlt_dec 0 y then Rtrigo1.PI / 2
  else if Rlt_dec y 0 then - (Rtrigo1.PI / 2)
  else 0.

(** 4x4 matrices (column vectors of four reals each are not needed beyond
    the product with a position). *)
Record pos4 : Type := Pos4 { px : R; py : R; pz : R; pw : R }.
Record mat4 : Type := Mat4 { row0 : pos4; row1 : pos4; row2 : pos4; row3 : pos4 }.
Definition dot4 (a b : pos4) : R :=
  px a * px b + py a * py b + pz a * pz b + pw a * pw b.
Definition mulMV (m : mat4) (p : pos4) : pos4 :=
  Pos4 (dot4 (row0 m) p) (dot4 (row1 m) p) (dot4 (row2 m) p) (dot4 (row3 m) p).
(** [mat4.create()]: the identity matrix. *)
Definition mat4_create : mat4 :=
  Mat4 (Pos4 1 0 0 0) (Pos4 0 1 0 0) (Pos4 0 0 1 0) (Pos4 0 0 0 1).
Definition xyz (p : pos4) : vec3 := Vec3 (px p) (py p) (pz p).
Definition vec4_of (v : vec3) (w : R) : pos4 := Pos4 (vx v) (vy v) (vz v) w.

End Glsl.

Import Glsl.

(** ** The colour transfer functions shared by both fragment shaders *)

Module Colour.

(** One channel of [sRGBToLinear]. *)
Definition sRGBToLinear1 (c : R) : R :=
  mix (pow (c * 0.9478672986 + 0.0521327014) 2.4)
      (c * 0.0773993808)
      (float_of_bool (lessThanEqual c 0.04045)).

Definition sRGBToLinear (value : vec4) : vec4 :=
  Vec4 (vmap sRGBToLinear1 (rgb value)) (alpha value).

(** One channel of [LinearTosRGB]. *)
Definition LinearTosRGB1 (c : R) : R :=
  mix (pow c 0.41666 * 1.055 - 0.055)
      (c * 12.92)
      (float_of_bool (lessThanEqual c 0.0031308)).

Definition LinearTosRGB (value : vec4) : vec4 :=
  Vec4 (vmap LinearTosRGB1 (rgb value)) (alpha value).

End Colour.

(** ** The lighting functions shared verbatim by both fragment shaders *)

Module Brdf.

(** [#define PI 3.1415926535897932384626433832795] *)
Definition PI : R := 3.1415926535897932384626433832795.

Definition FresnelSchlick (cosTheta : R) (F0 : vec3) : vec3 :=
  vadd F0 (vscale (ssubv 1 F0) (pow (1 - cosTheta) 5)).

Definition GeometrySchlickGGX (NdotV roughness : R) : R :=
  let a := roughness + 1 in
  let k := (a * a) / 8 in
  NdotV / (NdotV * (1 - k) + k).

Definition GeometrySmith (N V L : vec3) (roughness : R) : R :=
  let NdotV := max (dot N V) 0 in
  let NdotL := max (dot N L) 0 in
  let ggx1 := GeometrySchlickGGX NdotV roughness in
  let ggx2 := GeometrySchlickGGX NdotL roughness in
  ggx1 * ggx2.

Definition DistributionGGX (N H : vec3) (roughness : R) : R :=
  let a2 := roughness * roughness in
  let NdotH := max (dot N H) 0 in
  let NdotH2 := NdotH * NdotH in
  let denom := NdotH2 * (a2 - 1) + 1 in
  a2 / (PI * denom * denom).

End Brdf.

(** ** Base variant: vertex stage (second shader of [src/shader/pbr.vert.ts]) *)

Module BaseVert.

Record Camera : Type := { WsToCs : mat4; cam_position : vec3 }.

Record Attributes : Type :=
  { attr_position : vec3; albedo : vec3; metallic : R; roughness : R }.

Record Varyings : Type :=
  { gl_Position : pos4;
    vWsPosition : vec3;
    vWsNormal : vec3;
    vWsViewPosition : vec3 }.

Definition main (uCamera : Camera) (uAttributes : Attributes)
    (in_position in_normal : vec3) : Varyings :=
  let vWsPosition := vadd in_position (attr_position uAttributes) in
  let positionLocal := vec4_of vWsPosition 1 in
  {| gl_Position := mulMV (WsToCs uCamera) positionLocal;
     vWsPosition := vWsPosition;
     (* Normalize normal between 0, 1. *)
     vWsNormal := vadds (vscale (normalize in_normal) 0.5) 0.5;
     vWsViewPosition := vsub (cam_position uCamera) vWsPosition |}.

End BaseVert.

(** ** Base variant: fragment stage ([src/unnamed/part_000]) *)

Module BaseFrag.
Import Colour Brdf.

Record Attributes : Type :=
  { attr_position : vec3; albedo : vec3; metallic : R; roughness : R }.

Record Defines : Type :=
  { DIRECTIONAL_LIGHT_COUNT : nat; POINT_LIGHT_COUNT : nat }.
Definition LIGHT_COUNT (d : Defines) : nat :=
  (DIRECTIONAL_LIGHT_COUNT d + POINT_LIGHT_COUNT d)%nat.

Definition LIGHT_TYPE_POINT : Z := 0.
Definition LIGHT_TYPE_DIRECTIONAL : Z := 1.

Record Light : Type :=
  { type : Z; position : vec3; color : vec3; intensity : R }.

(** The value of a uniform slot that was never uploaded. *)
Definition Light0 : Light :=
  {| type := 0; position := vec3s 0; color := vec3s 0; intensity := 0 |}.

Record Inputs : Type :=
  { vWsPosition : vec3; vWsNormal : vec3; vWsViewPosition : vec3 }.

Definition cartesianToPolar (cartesian : vec3) : vec2 :=
  let phi := atan2 (vz cartesian) (vx cartesian) in
  let theta := asin (vy cartesian) in
  Vec2 phi theta.

Definition getLightDirection (uAttributes : Attributes) (vWsPosition : vec3)
    (light : Light) : vec3 :=
  if Z.eqb (type light) LIGHT_TYPE_DIRECTIONAL then
    normalize (position light)
  else
    let light_pos_local := vadd (position light) (attr_position uAttributes) in
    normalize (vsub light_pos_local vWsPosition).

Definition getLightColor (light : Light) : vec3 :=
  vscale (rgb (sRGBToLinear (Vec4 (color light) 1))) (intensity light).

(** [4.0 * max(dot(N, V), 0.0) * max(dot(N, L), 0.0)], the divisor of the
    specular term. *)
Definition denominator (N V L : vec3) : R :=
  4 * max (dot N V) 0 * max (dot N L) 0.

(** The Cook-Torrance specular term of the loop body:
    [numerator / denominator]. *)
Definition specular (N V L F0 : vec3) (roughness : R) : vec3 :=
  let H := normalize (vadd V L) in
  let D := DistributionGGX N H roughness in
  let F := FresnelSchlick (max (dot H V) 0) F0 in
  let G := GeometrySmith N V L roughness in
  let numerator := sscale (D * G) F in
  vdivs numerator (denominator N V L).

(** The Lambertian diffuse term of the loop body: [(kD * albedo) / PI]. *)
Definition diffuse (V L F0 albedo : vec3) (metallic : R) : vec3 :=
  let H := normalize (vadd V L) in
  let F := FresnelSchlick (max (dot H V) 0) F0 in
  let kS := F in
  let kD := ssubv 1 kS in
  let kD := vscale kD (1 - metallic) in
  vdivs (vmul kD albedo) PI.

(** The body of the light loop: what one light adds to [irradiance]. *)
Definition light_term (uAttributes : Attributes) (inp : Inputs)
    (N V albedo F0 : vec3) (light : Light) : vec3 :=
  let L := getLightDirection uAttributes (vWsPosition inp) light in
  let radiance := getLightColor light in
  let specular := specular N V L F0 (roughness uAttributes) in
  let diffuse := diffuse V L F0 albedo (metallic uAttributes) in
  let NdotL := max (dot N L) 0 in
  vscale (vmul (vadd diffuse specular) radiance) NdotL.

(** [vec3 N = normalize(vWsNormal)], the normal that [main] lights with. *)
Definition surface_normal (inp : Inputs) : vec3 := normalize (vWsNormal inp).

(** The light loop of [main]; the second component lists the slots of
    [uLights] that were read, in order.  The defines [DIRECTIONAL_LIGHT_COUNT]
    and [POINT_LIGHT_COUNT] are set by the engine. *)

Definition light_loop (d : Defines) (uAttributes : Attributes)
    (uLights : list Light) (inp : Inputs) : vec3 * list nat :=
  let N := surface_normal inp in
  let V := normalize (vsub (vWsViewPosition inp) (vWsPosition inp)) in
  let albedo := rgb (sRGBToLinear (Vec4 (albedo uAttributes) 1)) in
  let F0 := vec3s 0.04 in
  let F0 := vmix F0 albedo (metallic uAttributes) in
  for_loop (LIGHT_COUNT d) 0
    (fun i '(irradiance, reads) =>
       let light := nth i uLights Light0 in
       (vadd irradiance (light_term uAttributes inp N V albedo F0 light),
        reads ++ [i]))
    (vec3s 0, []).

(** [uniform Light uLights[LIGHT_COUNT];]: the size of an array must be
    greater than zero, so the shader compiles only with at least one
    light. *)
Definition uLights_declared (d : Defines) : bool := (0 <? LIGHT_COUNT d)%nat.

(** [main]: the colour of the fragment, or [None] when the shader does
    not compile. *)
Definition main (d : Defines) (uAttributes : Attributes)
    (uLights : list Light) (inp : Inputs) : option vec4 :=
  if uLights_declared d then
    let irradiance := fst (light_loop d uAttributes uLights inp) in
    Some (Vec4 irradiance 1)
  else None.

End BaseFrag.

(** The varyings written for a vertex are the inputs of the fragment that
    covers it (interpolation between vertices is not modelled). *)
Definition base_fragment_inputs (v : BaseVert.Varyings) : BaseFrag.Inputs :=
  {| BaseFrag.vWsPosition := BaseVert.vWsPosition v;
     BaseFrag.vWsNormal := BaseVert.vWsNormal v;
     BaseFrag.vWsViewPosition := BaseVert.vWsViewPosition v |}.

(** ** IBL variant: fragment stage ([src/unnamed/part_001]) *)

Module IblFrag.
Import Colour Brdf.

(** These defines are overwritten by the engine, with the same values. *)
Definition LIGHT_TYPE_DIRECTIONAL : Z := 0.
Definition LIGHT_TYPE_POINT : Z := 1.

Record Defines : Type :=
  { LIGHT_COUNT_DIRECTIONAL : nat; LIGHT_COUNT_POINT : nat }.
Definition LIGHT_COUNT (d : Defines) : nat :=
  (LIGHT_COUNT_DIRECTIONAL d + LIGHT_COUNT_POINT d)%nat.

Record Material : Type := { albedo : vec3; metallic : R; roughness : R }.

Record SphereProperties : Type := { modelMatrix : mat4; material : Material }.

Record LightProperties : Type :=
  { type : Z; position : vec3; direction : vec3; color : vec3; intensity : R }.

Definition Light0 : LightProperties :=
  {| type := 0; position := vec3s 0; direction := vec3s 0;
     color := vec3s 0; intensity := 0 |}.

(** A [sampler2D] is the function that [texture] evaluates. *)
Definition sampler2D : Type := vec2 -> Glsl.vec4.

Record EnvironmentProperties : Type :=
  { env_diffuse : sampler2D; env_specular : sampler2D; brdfLUT : sampler2D }.

Definition texture (s : sampler2D) (uv : vec2) : Glsl.vec4 := s uv.

Record Inputs : Type :=
  { vWsNormal : vec3; vWsViewDir : vec3; vWsPosition : vec3 }.

Definition cartesianToPolar (cartesian : vec3) : vec2 :=
  let phi := atan2 (vz cartesian) (vx cartesian) in
  let theta := asin (vy cartesian) in
  Vec2 phi theta.

Definition get_light_dir (light : LightProperties) (wsPosition : vec3) : vec3 :=
  if Z.eqb (type light) LIGHT_TYPE_DIRECTIONAL then
    normalize (direction light)
  else if Z.eqb (type light) LIGHT_TYPE_POINT then
    normalize (vsub (position light) wsPosition)
  else vec3s 0.

Definition get_light_color (light : LightProperties) (wsPosition : vec3) : vec3 :=
  vscale (color light) (intensity light).

Definition RGBMToRGB (rgbm : Glsl.vec4) (rangeMultiplier : R) : vec3 :=
  vscale (vscale (rgb rgbm) (alpha rgbm)) rangeMultiplier.

(** The source names the reflection vector [R]. *)
Definition getSpecularColor (Rv : vec3) (roughness : R) : vec3 := vec3s 0.

Definition denominator (N V L : vec3) : R :=
  4 * max (dot N V) 0 * max (dot N L) 0.

(** [max(denominator, 0.001)], the divisor of the specular term. *)
Definition specular_divisor (N V L : vec3) : R :=
  max (denominator N V L) 0.001.

(** The Cook-Torrance specular term of the loop body:
    [numerator / max(denominator, 0.001)]. *)
Definition specular (N V L f0 : vec3) (roughness : R) : vec3 :=
  let H := normalize (vadd V L) in
  let D := DistributionGGX N H roughness in
  let F := FresnelSchlick (max (dot H V) 0) f0 in
  let G := GeometrySmith N V L roughness in
  let numerator := sscale (D * G) F in
  vdivs numerator (specular_divisor N V L).

(** The Lambertian diffuse term of the loop body: [(kD * albedo) / PI]. *)
Definition diffuse (V L f0 albedo : vec3) (metallic : R) : vec3 :=
  let H := normalize (vadd V L) in
  let F := FresnelSchlick (max (dot H V) 0) f0 in
  let kS := F in
  let kD := ssubv 1 kS in
  let kD := vscale kD (1 - metallic) in
  vdivs (vmul kD albedo) PI.

(** The body of the light loop: what one light adds to [irradiance]. *)
Definition light_term (m : Material) (inp : Inputs)
    (N V albedo f0 : vec3) (light : LightProperties) : vec3 :=
  let L := get_light_dir light (vWsPosition inp) in
  let radiance := get_light_color light (vWsPosition inp) in
  let specular := specular N V L f0 (roughness m) in
  let diffuse := diffuse V L f0 albedo (metallic m) in
  let NdotL := max (dot N L) 0 in
  vscale (vmul (vadd diffuse specular) radiance) NdotL.

(** The light loop of [main], with the slots of [uLights] that were read. *)
Definition light_loop (d : Defines) (uSphere : SphereProperties)
    (uLights : list LightProperties) (inp : Inputs) : vec3 * list nat :=
  let N := normalize (vWsNormal inp) in
  let V := normalize (vWsViewDir inp) in
  let m := material uSphere in
  let albedo := rgb (sRGBToLinear (Vec4 (albedo m) 1)) in
  let f0 := vmix (vec3s 0.04) albedo (metallic m) in
  for_loop (LIGHT_COUNT d) 0
    (fun i '(irradiance, reads) =>
       let light := nth i uLights Light0 in
       (vadd irradiance (light_term m inp N V albedo f0 light), reads ++ [i]))
    (vec3s 0, []).

(** The equirectangular coordinates at which the diffuse environment is
    sampled: [cartesianToPolar(N) / vec2(PI, PI / 2.0) + vec2(0.5, 0.5)]. *)
Definition diffuseUV (N : vec3) : vec2 :=
  let diffuseUV := cartesianToPolar N in
  Vec2 (ux diffuseUV / PI + 0.5) (uy diffuseUV / (PI / 2) + 0.5).

(** [uniform LightProperties uLights[LIGHT_COUNT];]: the size of an
    array must be greater than zero, so the shader compiles only with at
    least one light. *)
Definition uLights_declared (d : Defines) : bool := (0 <? LIGHT_COUNT d)%nat.

(** [main]: the colour of the fragment, or [None] when the shader does
    not compile. *)
Definition main (d : Defines) (uSphere : SphereProperties)
    (uLights : list LightProperties) (uEnvironment : EnvironmentProperties)
    (inp : Inputs) : option Glsl.vec4 :=
  if uLights_declared d then
    let color := vec3s 0 in
    let N := normalize (vWsNormal inp) in
    let V := normalize (vWsViewDir inp) in
    let Rv := reflect (vneg V) N in
    let m := material uSphere in
    let albedo := rgb (sRGBToLinear (Vec4 (albedo m) 1)) in
    let irradiance := fst (light_loop d uSphere uLights inp) in
    let color := vadd color irradiance in
    let diffuseIBL :=
      vmul (RGBMToRGB (texture (env_diffuse uEnvironment) (diffuseUV N)) 6) albedo in
    let color := vadd color diffuseIBL in
    Some (LinearTosRGB (Vec4 color 1))
  else None.

End IblFrag.

(** ** IBL variant: the host's per-frame uniform assembly
    ([Application.render], first program of [src/unnamed/part_002]) *)

Module IblHost.

(** A texture is known by its resource handle. *)
Definition Texture : Type := nat.

(** [UniformType | Texture] *)
Inductive UniformValue : Type :=
| UNumber (n : R)
| UVec3 (v : vec3)
| UMat4 (m : mat4)
| UTexture (t : Texture).

Inductive Environement : Type := ALEXS_APARTMENT | INTERIOR.

Record EnvironmentTextures : Type :=
  { diffuse : option Texture; specular : option Texture }.

(** [enum LightType { DIRECTIONAL, POINT }] *)
Inductive LightType : Type := DIRECTIONAL | POINT.
Definition LightType_value (t : LightType) : Z :=
  match t with DIRECTIONAL => 0 | POINT => 1 end.

(** Modelled from the spec: [./lights/lights] is missing.  A light is a
    [DirectionalLight] (carrying [directionWS]), a [PointLight] (carrying
    [positionWS]) or some other [PonctualLight]; every light carries a
    colour and an intensity. *)
Inductive PonctualLight : Type :=
| DirectionalLight (directionWS : vec3) (color : vec3) (intensity : R)
| PointLight (positionWS : vec3) (color : vec3) (intensity : R)
| OtherLight (color : vec3) (intensity : R).

Definition light_color (l : PonctualLight) : vec3 :=
  match l with
  | DirectionalLight _ c _ | PointLight _ c _ | OtherLight c _ => c
  end.
Definition light_intensity (l : PonctualLight) : R :=
  match l with
  | DirectionalLight _ _ i | PointLight _ _ i | OtherLight _ i => i
  end.
Definition instanceof_DirectionalLight (l : PonctualLight) : bool :=
  match l with DirectionalLight _ _ _ => true | _ => false end.
Definition instanceof_PointLight (l : PonctualLight) : bool :=
  match l with PointLight _ _ _ => true | _ => false end.

(** A light that is an instance of neither class. *)
Definition unrecognised (l : PonctualLight) : bool :=
  negb (instanceof_DirectionalLight l) && negb (instanceof_PointLight l).

Record Material : Type := { albedo : vec3; metallic : R; roughness : R }.
Record SphereProperties : Type := { modelMatrix : mat4; material : Material }.

(** What the camera contributes to a frame: the product
    [computeProjection(aspect) * computeView()] and its position. *)
Record Camera : Type := { WsToCs : mat4; position : vec3 }.

(** The calls received by the graphics context, oldest first.  A draw
    call records the defines and the uniform map it was given. *)
Inductive GLCall : Type :=
| Clear
| SetDepthTest (on : bool)
| UploadTexture (t : Texture)
| Draw (defines : gmap string Z) (uniforms : gmap string UniformValue).

Record Application : Type :=
  { _context : list GLCall;
    defines : gmap string Z;
    _properties : list SphereProperties;
    _uniforms : gmap string UniformValue;
    _lights : list PonctualLight;
    _brdfLUT : option Texture;
    _environments : Environement -> EnvironmentTextures;
    _currentEnvironment : Environement;
    _camera : Camera }.

(** *** Statements: state passing with exceptions *)

Inductive outcome (A : Type) : Type :=
| Done (a : A) (app : Application)
| Thrown (message : string) (app : Application).
Arguments Done {A} a app.
Arguments Thrown {A} message app.

Definition stmt (A : Type) : Type := Application -> outcome A.

#[export] Instance stmt_ret : MRet stmt := fun A a app => Done a app.
#[export] Instance stmt_bind : MBind stmt := fun A B k c app =>
  match c app with
  | Done a app' => k a app'
  | Thrown msg app' => Thrown msg app'
  end.
Definition throw {A} (message : string) : stmt A := fun app => Thrown message app.
Definition skip : stmt unit := mret tt.

Definition call (c : GLCall) : stmt unit :=
  fun app =>
    Done tt {| _context := _context app ++ [c];
               defines := defines app;
               _properties := _properties app;
               _uniforms := _uniforms app;
               _lights := _lights app;
               _brdfLUT := _brdfLUT app;
               _environments := _environments app;
               _currentEnvironment := _currentEnvironment app;
               _camera := _camera app |}.

(** [this._uniforms[key] = value] *)
Definition set_uniform (key : string) (value : UniformValue) : stmt unit :=
  fun app =>
    Done tt {| _context := _context app;
               defines := defines app;
               _properties := _properties app;
               _uniforms := <[key := value]> (_uniforms app);
               _lights := _lights app;
               _brdfLUT := _brdfLUT app;
               _environments := _environments app;
               _currentEnvironment := _currentEnvironment app;
               _camera := _camera app |}.

(** [this._shader.defines[key] = value] *)
Definition set_define (key : string) (value : Z) : stmt unit :=
  fun app =>
    Done tt {| _context := _context app;
               defines := <[key := value]> (defines app);
               _properties := _properties app;
               _uniforms := _uniforms app;
               _lights := _lights app;
               _brdfLUT := _brdfLUT app;
               _environments := _environments app;
               _currentEnvironment := _currentEnvironment app;
               _camera := _camera app |}.

(** [this._context.draw(this._geometry, this._shader, this._uniforms)] *)
Definition draw : stmt unit :=
  fun app => call (Draw (defines app) (_uniforms app)) app.

Definition when_some {A} (o : option A) (k : A -> stmt unit) : stmt unit :=
  match o with Some a => k a | None => skip end.

(** The body of the loop over [this._lights], from index [i] on. *)
Fixpoint assemble_lights (i : nat) (lights : list PonctualLight) : stmt unit :=
  match lights with
  | [] => skip
  | light :: rest =>
      let prefix := ("uLights[" +:+ pretty i +:+ "].")%string in
      match light with
      | DirectionalLight directionWS _ _ =>
          set_uniform (prefix +:+ "type") (UNumber (IZR (LightType_value DIRECTIONAL))) ;;
          set_uniform (prefix +:+ "direction") (UVec3 directionWS)
      | PointLight positionWS _ _ =>
          set_uniform (prefix +:+ "type") (UNumber (IZR (LightType_value POINT))) ;;
          set_uniform (prefix +:+ "position") (UVec3 positionWS)
      | OtherLight _ _ =>
          throw ("Unknown light type for light " +:+ pretty i +:+ ".")%string
      end ;;
      set_uniform (prefix +:+ "color") (UVec3 (light_color light)) ;;
      set_uniform (prefix +:+ "intensity") (UNumber (light_intensity light)) ;;
      assemble_lights (S i) rest
  end.

(** The loop over [this._properties]: one draw call per sphere. *)
Fixpoint draw_spheres (spheres : list SphereProperties) : stmt unit :=
  match spheres with
  | [] => skip
  | sphere :: rest =>
      let prefix := "uSphere."%string in
      set_uniform (prefix +:+ "modelMatrix") (UMat4 (modelMatrix sphere)) ;;
      set_uniform (prefix +:+ "material.albedo") (UVec3 (albedo (material sphere))) ;;
      set_uniform (prefix +:+ "material.metallic") (UNumber (metallic (material sphere))) ;;
      set_uniform (prefix +:+ "material.roughness") (UNumber (roughness (material sphere))) ;;
      draw ;;
      draw_spheres rest
  end.

Definition count (p : PonctualLight -> bool) (l : list PonctualLight) : Z :=
  Z.of_nat (List.length (List.filter p l)).

(** [!value] is false for an object and for a number other than zero. *)
Definition truthy (value : option UniformValue) : bool :=
  match value with
  | None => false
  | Some (UNumber n) => if Req_dec_T n 0 then false else true
  | Some _ => true
  end.

(** [if (!this._uniforms[key]) { this._uniforms[key] = fresh; }] *)
Definition ensure_uniform (key : string) (fresh : UniformValue) : stmt unit :=
  fun app =>
    if truthy (_uniforms app !! key) then skip app else set_uniform key fresh app.

(** [mat4.multiply(out, a, b)], given the product [a * b]: writes the
    sixteen entries of the array [out] in place; a [vec3] has room for
    the first three only (a [mat4] is stored column by column), a texture
    stays the texture it is.  It throws a [TypeError] when [out] is
    undefined or a number. *)
Definition mat4_multiply (out : option UniformValue) (product : mat4)
  : option UniformValue :=
  match out with
  | Some (UMat4 _) => Some (UMat4 product)
  | Some (UVec3 _) =>
      Some (UVec3 (Vec3 (px (row0 product)) (px (row1 product)) (px (row2 product))))
  | Some (UTexture t) => Some (UTexture t)
  | Some (UNumber _) | None => None
  end.

(** [mat4.multiply(this._uniforms[key] as mat4, a, b)] *)
Definition multiply_into (key : string) (product : mat4) : stmt unit :=
  fun app =>
    match mat4_multiply (_uniforms app !! key) product with
    | Some value => set_uniform key value app
    | None => throw "TypeError" app
    end.

Definition render : stmt unit :=
  fun app =>
    (call Clear ;;
     call (SetDepthTest true) ;;
     ensure_uniform "uCamera.WsToCs" (UMat4 mat4_create) ;;
     multiply_into "uCamera.WsToCs" (WsToCs (_camera app)) ;;
     set_uniform "uCamera.position" (UVec3 (position (_camera app))) ;;
     when_some (_brdfLUT app) (fun t => set_uniform "uEnvironment.brdfLUT" (UTexture t)) ;;
     when_some (diffuse (_environments app (_currentEnvironment app)))
       (fun t => call (UploadTexture t) ;;
                 set_uniform "uEnvironment.diffuse" (UTexture t)) ;;
     when_some (specular (_environments app (_currentEnvironment app)))
       (fun t => call (UploadTexture t) ;;
                 set_uniform "uEnvironment.specular" (UTexture t)) ;;
     set_define "LIGHTS_COUNT" (Z.of_nat (List.length (_lights app))) ;;
     set_define "LIGHT_COUNT_DIRECTIONAL" (count instanceof_DirectionalLight (_lights app)) ;;
     set_define "LIGHT_COUNT_POINT" (count instanceof_PointLight (_lights app)) ;;
     set_define "LIGHT_TYPE_DIRECTIONAL" (LightType_value DIRECTIONAL) ;;
     set_define "LIGHT_TYPE_POINT" (LightType_value POINT) ;;
     assemble_lights 0 (_lights app) ;;
     set_define "SPHERES_COUNT" (Z.of_nat (List.length (_properties app))) ;;
     draw_spheres (_properties app)) app.

(** The draw calls among the calls received by the context. *)
Definition is_draw (c : GLCall) : bool :=
  match c with Draw _ _ => true | _ => false end.
Definition draws (app : Application) : list GLCall :=
  List.filter is_draw (_context app).

(** [c] never throws and issues no draw call. *)
Definition quiet (c : stmt unit) : Prop :=
  forall app, exists app', c app = Done tt app' /\ draws app' = draws app.

(** [c] issues no draw call, whether it throws or not. *)
Definition harmless (c : stmt unit) : Prop :=
  forall app,
    (exists app', c app = Done tt app' /\ draws app' = draws app)
    \/ (exists message app', c app = Thrown message app' /\ draws app' = draws app).

(** [c] always throws, and issues no draw call. *)
Definition fails (c : stmt unit) : Prop :=
  forall app, exists message app',
    c app = Thrown message app' /\ draws app' = draws app.

(** The message of the exception raised for the light at index [i]. *)
Definition unknown_light_message (i : nat) : string :=
  ("Unknown light type for light " +:+ pretty i +:+ ".")%string.

End IblHost.

(** ** The shader program cache *)

Module ProgramCache.

(** Modelled from the spec: [./gl], which holds the program cache, is
    missing.  A define set maps macro names to their values; a program
    handle names a program object of the GPU. *)
Definition Defines : Type := gmap string Z.
Definition ProgramHandle : Type := nat.

Inductive Stage : Type := VertexStage | FragmentStage.

Inductive Error : Type :=
| CompileError (stage : Stage) (log : string)
| LinkError (log : string).

(** Modelled from the spec: the cache key of the missing [./gl], the
    identity of the two sources together with the define set (the
    concatenation of the specification, kept in three parts). *)
Definition Key : Type := string * string * gmap string Z.

(** Modelled from the spec: the state of the missing cache. *)
Record Cache : Type :=
  { programs : gmap (string * string * gmap string Z) nat;
    (** the number of compilations performed so far *)
    compilations : nat;
    (** the next program object the GPU hands out *)
    next_handle : nat }.

Definition empty : Cache :=
  {| programs := ∅; compilations := 0; next_handle := 0 |}.

(** Cached handles are below the next handle, and no handle is cached
    under two keys. *)
Definition cache_wf (c : Cache) : Prop :=
  (forall k h, programs c !! k = Some h -> (h < next_handle c)%nat)
  /\ (forall k1 k2 h,
        programs c !! k1 = Some h -> programs c !! k2 = Some h -> k1 = k2).

Section WithCompiler.

(** The GPU's compiler and linker: [None] when both stages compile
    under the defines and link, the error otherwise. *)
Variable gpu_compile : string -> string -> gmap string Z -> option Error.

(** Modelled from the spec: the Shader Program Cache lives in [./gl],
    which is missing.  [getOrCompile(vertexSource, fragmentSource,
    defines)] returns the cached program of the key when there is one;
    otherwise it makes a single compilation attempt, and on success
    records the new program under the key. *)
Definition getOrCompile (vertexSource fragmentSource : string)
    (defines : gmap string Z) (c : Cache) : (Error + nat) * Cache :=
  let key := (vertexSource, fragmentSource, defines) in
  match programs c !! key with
  | Some h => (inr h, c)
  | None =>
      match gpu_compile vertexSource fragmentSource defines with
      | Some err =>
          (inl err,
           {| programs := programs c;
              compilations := S (compilations c);
              next_handle := next_handle c |})
      | None =>
          let h := next_handle c in
          (inr h,
           {| programs := <[key := h]> (programs c);
              compilations := S (compilations c);
              next_handle := S h |})
      end
  end.

(** The caches that calls of [getOrCompile] can produce. *)
Inductive reachable : Cache -> Prop :=
| reachable_empty : reachable empty
| reachable_call vs fs d c :
    reachable c -> reachable (snd (getOrCompile vs fs d c)).

(** [later c c']: [c'] is [c] after any number of further calls. *)
Inductive later (c : Cache) : Cache -> Prop :=
| later_refl : later c c
| later_call vs fs d c' :
    later c c' -> later c (snd (getOrCompile vs fs d c')).

End WithCompiler.

End ProgramCache.

(** ** IBL variant: vertex stage (first shader of [src/shader/pbr.vert.ts]) *)

Module IblVert.

Record Camera : Type := { WsToCs : mat4; cam_position : vec3 }.

Record Varyings : Type :=
  { gl_Position : pos4;
    vWsNormal : vec3;
    vWsViewDir : vec3;
    vWsPosition : vec3 }.

Definition main (uSphere : IblFrag.SphereProperties) (uCamera : Camera)
    (in_position in_normal : vec3) : Varyings :=
  let positionLocal := vec4_of in_position 1 in
  let positionWorld := mulMV (IblFrag.modelMatrix uSphere) positionLocal in
  {| gl_Position := mulMV (WsToCs uCamera) positionWorld;
     vWsPosition := xyz positionWorld;
     vWsNormal := normalize in_normal;
     vWsViewDir := normalize (vsub (cam_position uCamera) (xyz positionWorld)) |}.

End IblVert.

(** The value of an [in vec3] at a fragment: the values written at the
    three vertices of the triangle, interpolated with the weights of the
    fragment, which are not negative and add up to one. *)
Definition interpolate (w0 w1 w2 : R) (a b c : vec3) : vec3 :=
  vadd (vadd (sscale w0 a) (sscale w1 b)) (sscale w2 c).

(** The inputs of a fragment of the triangle with the varyings [v0], [v1]
    and [v2] at its vertices. *)
Definition ibl_fragment_inputs (w0 w1 w2 : R) (v0 v1 v2 : IblVert.Varyings)
  : IblFrag.Inputs :=
  {| IblFrag.vWsNormal :=
       interpolate w0 w1 w2
         (IblVert.vWsNormal v0) (IblVert.vWsNormal v1) (IblVert.vWsNormal v2);
     IblFrag.vWsViewDir :=
       interpolate w0 w1 w2
         (IblVert.vWsViewDir v0) (IblVert.vWsViewDir v1) (IblVert.vWsViewDir v2);
     IblFrag.vWsPosition :=
       interpolate w0 w1 w2
         (IblVert.vWsPosition v0) (IblVert.vWsPosition v1) (IblVert.vWsPosition v2) |}.

(** ** IBL variant: more of the host ([update], and what a frame leaves
    behind; first program of [src/unnamed/part_002]) *)

Module IblApp.
Import IblHost.

Definition Environement_eqb (a b : Environement) : bool :=
  match a, b with
  | ALEXS_APARTMENT, ALEXS_APARTMENT | INTERIOR, INTERIOR => true
  | _, _ => false
  end.

(** [interface GUIProperties]; the colour picker holds three numbers. *)
Record GUIProperties : Type :=
  { gui_albedo : vec3; environment : Environement }.

(** [Application.update]: every sphere takes the albedo of the colour
    picker, divided by [255.0]; the current environment follows the
    selection. *)
Definition update (_guiProperties : GUIProperties) : stmt unit :=
  fun app =>
    let picked := vdivs (gui_albedo _guiProperties) 255 in
    Done tt
      {| _context := _context app;
         defines := defines app;
         _properties :=
           List.map
             (fun sphere =>
                {| modelMatrix := modelMatrix sphere;
                   material := {| albedo := picked;
                                  metallic := metallic (material sphere);
                                  roughness := roughness (material sphere) |} |})
             (_properties app);
         _uniforms := _uniforms app;
         _lights := _lights app;
         _brdfLUT := _brdfLUT app;
         _environments := _environments app;
         _currentEnvironment :=
           if negb (Environement_eqb (environment _guiProperties)
                      (_currentEnvironment app))
           then environment _guiProperties
           else _currentEnvironment app;
         _camera := _camera app |}.

(** The key [`uLights[${i}].` + field] under which [render] stores a
    field of the light at index [i]. *)
Definition light_key (i : nat) (field : string) : string :=
  ("uLights[" +:+ pretty i +:+ "].") +:+ field.

(** The uniform map after the four assignments that [render] makes for a
    sphere. *)
Definition with_sphere (sphere : SphereProperties)
    (uniforms : gmap string UniformValue) : gmap string UniformValue :=
  <["uSphere.material.roughness"%string := UNumber (roughness (material sphere))]>
    (<["uSphere.material.metallic"%string := UNumber (metallic (material sphere))]>
       (<["uSphere.material.albedo"%string := UVec3 (albedo (material sphere))]>
          (<["uSphere.modelMatrix"%string := UMat4 (modelMatrix sphere)]> uniforms))).

(** The uniform maps of the successive draw calls of the sphere loop. *)
Fixpoint sphere_maps (spheres : list SphereProperties)
    (uniforms : gmap string UniformValue) : list (gmap string UniformValue) :=
  match spheres with
  | [] => []
  | sphere :: rest =>
      with_sphere sphere uniforms :: sphere_maps rest (with_sphere sphere uniforms)
  end.

(** The defines of the shader once [render] has assigned its six. *)
Definition frame_defines (app : Application) : gmap string Z :=
  <["SPHERES_COUNT"%string := Z.of_nat (List.length (_properties app))]>
    (<["LIGHT_TYPE_POINT"%string := LightType_value POINT]>
       (<["LIGHT_TYPE_DIRECTIONAL"%string := LightType_value DIRECTIONAL]>
          (<["LIGHT_COUNT_POINT"%string := count instanceof_PointLight (_lights app)]>
             (<["LIGHT_COUNT_DIRECTIONAL"%string :=
                  count instanceof_DirectionalLight (_lights app)]>
                (<["LIGHTS_COUNT"%string := Z.of_nat (List.length (_lights app))]>
                   (defines app)))))).

(** The calls that [render] makes before the sphere loop. *)
Definition frame_prelude (app : Application) : list GLCall :=
  [Clear; SetDepthTest true]
  ++ match diffuse (_environments app (_currentEnvironment app)) with
     | Some t => [UploadTexture t] | None => []
     end
  ++ match specular (_environments app (_currentEnvironment app)) with
     | Some t => [UploadTexture t] | None => []
     end.

(** The tag that [render] uploads for a recognised light. *)
Definition light_tag (l : PonctualLight) : Z :=
  if instanceof_DirectionalLight l then LightType_value DIRECTIONAL
  else LightType_value POINT.

(** The uniform map after the four assignments that [render] makes for a
    recognised light at index [i]. *)
Definition light_uniforms (i : nat) (l : PonctualLight)
    (uniforms : gmap string UniformValue) : gmap string UniformValue :=
  let typed :=
    match l with
    | DirectionalLight directionWS _ _ =>
        <[light_key i "direction" := UVec3 directionWS]>
          (<[light_key i "type" := UNumber (IZR (LightType_value DIRECTIONAL))]> uniforms)
    | PointLight positionWS _ _ =>
        <[light_key i "position" := UVec3 positionWS]>
          (<[light_key i "type" := UNumber (IZR (LightType_value POINT))]> uniforms)
    | OtherLight _ _ => uniforms
    end in
  <[light_key i "intensity" := UNumber (light_intensity l)]>
    (<[light_key i "color" := UVec3 (light_color l)]> typed).

Fixpoint lights_uniforms (i : nat) (lights : list PonctualLight)
    (uniforms : gmap string UniformValue) : gmap string UniformValue :=
  match lights with
  | [] => uniforms
  | l :: rest => lights_uniforms (S i) rest (light_uniforms i l uniforms)
  end.

(** The uniform map once [render] has assigned the camera and the
    environment, when the key [uCamera.WsToCs] was absent or held a
    matrix. *)
Definition prelude_uniforms (app : Application) : gmap string UniformValue :=
  let u := <["uCamera.position"%string := UVec3 (position (_camera app))]>
             (<["uCamera.WsToCs"%string := UMat4 (WsToCs (_camera app))]> (_uniforms app)) in
  let u := match _brdfLUT app with
           | Some t => <["uEnvironment.brdfLUT"%string := UTexture t]> u
           | None => u
           end in
  let u := match diffuse (_environments app (_currentEnvironment app)) with
           | Some t => <["uEnvironment.diffuse"%string := UTexture t]> u
           | None => u
           end in
  match specular (_environments app (_currentEnvironment app)) with
  | Some t => <["uEnvironment.specular"%string := UTexture t]> u
  | None => u
  end.

(** The uniform map that the sphere loop starts from. *)
Definition frame_uniforms (app : Application) : gmap string UniformValue :=
  lights_uniforms 0 (_lights app) (prelude_uniforms app).

(** A key that is not a key of lights from index [i] on. *)
Definition not_light_key_from (i : nat) (k : string) : Prop :=
  forall j f, (i <= j)%nat -> k <> light_key j f.

(** A string without the character that closes the index of a key. *)
Fixpoint no_bracket (s : string) : Prop :=
  match s with
  | EmptyString => True
  | String c rest => c <> "]"%char /\ no_bracket rest
  end.

(** A small scene for the examples: two spheres, one environment. *)
Definition demo_sphere (r : R) : SphereProperties :=
  {| modelMatrix := mat4_create;
     material := {| albedo := vec3s 1; metallic := 0; roughness := r |} |}.

Definition demo_app (lights : list PonctualLight) : Application :=
  {| _context := []; defines := ∅;
     _properties := [demo_sphere 0; demo_sphere 1]; _uniforms := ∅;
     _lights := lights;
     _brdfLUT := Some 0%nat;
     _environments := (fun _ => {| diffuse := Some 1%nat; specular := None |});
     _currentEnvironment := ALEXS_APARTMENT;
     _camera := {| WsToCs := mat4_create; position := Vec3 0 0 10 |} |}.

(** The state that a frame without exception leaves behind, when the key
    [uCamera.WsToCs] was absent or held a matrix. *)
Definition after_frame (app : Application) : Application :=
  {| _context :=
       _context app ++ frame_prelude app
       ++ List.map (Draw (frame_defines app))
            (sphere_maps (_properties app) (frame_uniforms app));
     defines := frame_defines app;
     _properties := _properties app;
     _uniforms := fold_left (fun u sphere => with_sphere sphere u)
                    (_properties app) (frame_uniforms app);
     _lights := _lights app;
     _brdfLUT := _brdfLUT app;
     _environments := _environments app;
     _currentEnvironment := _currentEnvironment app;
     _camera := _camera app |}.

End IblApp.

(** ** Base variant: the host ([src/src/index.ts]) *)

Module BaseHost.

(** A number that a division produced: a real, or, after a division by
    zero, [NaN] or an infinity. *)
Inductive number : Type := Num (r : R) | NotFinite.

(** [a / b] on numbers. *)
Definition js_div (a b : R) : number :=
  if Req_dec_T b 0 then NotFinite else Num (a / b).

(** [UniformType]; [UUndefined] is the value of a property that an object
    does not have. *)
Inductive UniformValue : Type :=
| UNumber (n : number)
| UVec3 (v : vec3)
| UMat4 (m : mat4)
| UUndefined.

(** [enum LightType { POINT, DIRECTIONAL }] *)
Inductive LightType : Type := POINT | DIRECTIONAL.
Definition LightType_value (t : LightType) : Z :=
  match t with POINT => 0 | DIRECTIONAL => 1 end.

(** [light.directionWS] and [light.positionWS], read from any light. *)
Definition directionWS_of (light : IblHost.PonctualLight) : UniformValue :=
  match light with
  | IblHost.DirectionalLight directionWS _ _ => UVec3 directionWS
  | _ => UUndefined
  end.
Definition positionWS_of (light : IblHost.PonctualLight) : UniformValue :=
  match light with
  | IblHost.PointLight positionWS _ _ => UVec3 positionWS
  | _ => UUndefined
  end.

Record SphereAttributes : Type :=
  { position : vec3; albedo : vec3; metallic : number; roughness : number }.

(** The two counts that [render] assigns to the shader. *)
Record PBRShader : Type :=
  { directionalLightCount : nat; pointLightCount : nat }.

(** [interface GUIProperties]; a colour picker holds three numbers. *)
Record GUIProperties : Type := { gui_albedo : vec3; light_colors : vec3 }.

(** The calls received by the graphics context, oldest first.  A draw
    call records the shader and the uniform map it was given. *)
Inductive GLCall : Type :=
| Clear
| SetDepthTest (on : bool)
| Draw (shader : PBRShader) (uniforms : gmap string UniformValue).

Record Application : Type :=
  { _context : list GLCall;
    _shader : PBRShader;
    _sphere_attibutes : list SphereAttributes;
    _uniforms : gmap string UniformValue;
    _lights : list IblHost.PonctualLight;
    _camera : IblHost.Camera;
    _guiProperties : GUIProperties }.

Inductive outcome : Type :=
| Done (app : Application)
| Thrown (message : string) (app : Application).

(** [vec3.set(out, x, y, z)] writes the first three entries of the array
    [out] in place: of a [vec3] all of them, of a [mat4] (stored column
    by column) the first three of its first column.  It throws a
    [TypeError] when [out] is undefined or not an object. *)
Definition vec3_set (out : option UniformValue) (v : vec3) : option UniformValue :=
  match out with
  | Some (UVec3 _) => Some (UVec3 v)
  | Some (UMat4 m) =>
      Some (UMat4 (Mat4 (Pos4 (vx v) (py (row0 m)) (pz (row0 m)) (pw (row0 m)))
                        (Pos4 (vy v) (py (row1 m)) (pz (row1 m)) (pw (row1 m)))
                        (Pos4 (vz v) (py (row2 m)) (pz (row2 m)) (pw (row2 m)))
                        (row3 m)))
  | _ => None
  end.

(** [mat4.multiply(out, a, b)], given the product [a * b]: writes the
    sixteen entries of the array [out] in place; a [vec3] has room for
    the first three only. *)
Definition mat4_multiply (out : option UniformValue) (product : mat4)
  : option UniformValue :=
  match out with
  | Some (UMat4 _) => Some (UMat4 product)
  | Some (UVec3 _) =>
      Some (UVec3 (Vec3 (px (row0 product)) (px (row1 product)) (px (row2 product))))
  | _ => None
  end.

(** The body of the loop over the lights. *)
Definition light_uniforms (i : nat) (light : IblHost.PonctualLight)
    (uniforms : gmap string UniformValue) : gmap string UniformValue :=
  let lightType :=
    if IblHost.instanceof_DirectionalLight light then DIRECTIONAL else POINT in
  let uniforms :=
    <[IblApp.light_key i "type" := UNumber (Num (IZR (LightType_value lightType)))]>
      uniforms in
  let uniforms :=
    if IblHost.instanceof_DirectionalLight light
    then <[IblApp.light_key i "position" := directionWS_of light]> uniforms
    else <[IblApp.light_key i "position" := positionWS_of light]> uniforms in
  let uniforms :=
    <[IblApp.light_key i "color" := UVec3 (IblHost.light_color light)]> uniforms in
  <[IblApp.light_key i "intensity" := UNumber (Num (IblHost.light_intensity light))]>
    uniforms.

Fixpoint lights_uniforms (i : nat) (lights : list IblHost.PonctualLight)
    (uniforms : gmap string UniformValue) : gmap string UniformValue :=
  match lights with
  | [] => uniforms
  | light :: rest => lights_uniforms (S i) rest (light_uniforms i light uniforms)
  end.

(** The three assignments of the loop over the spheres. *)
Definition with_attr (attr : SphereAttributes)
    (uniforms : gmap string UniformValue) : gmap string UniformValue :=
  <["uAttributes.roughness"%string := UNumber (roughness attr)]>
    (<["uAttributes.metallic"%string := UNumber (metallic attr)]>
       (<["uAttributes.position"%string := UVec3 (position attr)]> uniforms)).

(** The loop over the spheres: the calls so far and the uniform map are
    threaded through. *)
Fixpoint draw_spheres (shader : PBRShader) (attrs : list SphereAttributes)
    (context : list GLCall) (uniforms : gmap string UniformValue)
  : list GLCall * gmap string UniformValue :=
  match attrs with
  | [] => (context, uniforms)
  | attr :: rest =>
      let uniforms := with_attr attr uniforms in
      draw_spheres shader rest (context ++ [Draw shader uniforms]) uniforms
  end.

(** [Application.render] *)
Definition render (app : Application) : outcome :=
  let context := _context app ++ [Clear; SetDepthTest true] in
  let props := _guiProperties app in
  let stopped context uniforms :=
    {| _context := context; _shader := _shader app;
       _sphere_attibutes := _sphere_attibutes app; _uniforms := uniforms;
       _lights := _lights app; _camera := _camera app;
       _guiProperties := _guiProperties app |} in
  match vec3_set (_uniforms app !! "uAttributes.albedo"%string)
          (vdivs (gui_albedo props) 255) with
  | None => Thrown "TypeError" (stopped context (_uniforms app))
  | Some albedo =>
      let uniforms := <["uAttributes.albedo"%string := albedo]> (_uniforms app) in
      match mat4_multiply (uniforms !! "uCamera.WsToCs"%string)
              (IblHost.WsToCs (_camera app)) with
      | None => Thrown "TypeError" (stopped context uniforms)
      | Some WsToCs =>
          let uniforms := <["uCamera.WsToCs"%string := WsToCs]> uniforms in
          let uniforms :=
            <["uCamera.position"%string := UVec3 (IblHost.position (_camera app))]>
              uniforms in
          let shader :=
            {| directionalLightCount :=
                 List.length (List.filter IblHost.instanceof_DirectionalLight (_lights app));
               pointLightCount :=
                 List.length (List.filter IblHost.instanceof_PointLight (_lights app)) |} in
          let uniforms := lights_uniforms 0 (_lights app) uniforms in
          let '(context, uniforms) :=
            draw_spheres shader (_sphere_attibutes app) context uniforms in
          Done {| _context := context; _shader := shader;
                  _sphere_attibutes := _sphere_attibutes app; _uniforms := uniforms;
                  _lights := _lights app; _camera := _camera app;
                  _guiProperties := _guiProperties app |}
      end
  end.

Definition is_draw (c : GLCall) : bool :=
  match c with Draw _ _ => true | _ => false end.
Definition draws (app : Application) : list GLCall :=
  List.filter is_draw (_context app).

(** The uniform maps of the successive draw calls of the sphere loop. *)
Fixpoint attr_maps (attrs : list SphereAttributes)
    (uniforms : gmap string UniformValue) : list (gmap string UniformValue) :=
  match attrs with
  | [] => []
  | attr :: rest => with_attr attr uniforms :: attr_maps rest (with_attr attr uniforms)
  end.

(** The uniform map that the sphere loop starts from, when the two
    arrays written in place are there. *)
Definition frame_uniforms (app : Application) : gmap string UniformValue :=
  lights_uniforms 0 (_lights app)
    (<["uCamera.position"%string := UVec3 (IblHost.position (_camera app))]>
       (<["uCamera.WsToCs"%string := UMat4 (IblHost.WsToCs (_camera app))]>
          (<["uAttributes.albedo"%string := UVec3 (vdivs (gui_albedo (_guiProperties app)) 255)]>
             (_uniforms app)))).

(** The counts of lights per class. *)
Definition frame_shader (app : Application) : PBRShader :=
  {| directionalLightCount :=
       List.length (List.filter IblHost.instanceof_DirectionalLight (_lights app));
     pointLightCount :=
       List.length (List.filter IblHost.instanceof_PointLight (_lights app)) |}.

(** The state that such a frame leaves behind. *)
Definition after_frame (app : Application) : Application :=
  {| _context := (_context app ++ [Clear; SetDepthTest true])
                 ++ List.map (Draw (frame_shader app))
                      (attr_maps (_sphere_attibutes app) (frame_uniforms app));
     _shader := frame_shader app;
     _sphere_attibutes := _sphere_attibutes app;
     _uniforms := fold_left (fun u attr => with_attr attr u)
                    (_sphere_attibutes app) (frame_uniforms app);
     _lights := _lights app; _camera := _camera app;
     _guiProperties := _guiProperties app |}.

(** The number of iterations of [for (let i = 0; i < n; i++)]: the least
    whole number that is not below [n]. *)
Definition iterations (n : R) : nat := Z.to_nat (1 - up (- n)).

(** The attribute that [_spawnSpheres] pushes at the indices [i], [j]. *)
Definition spawned (numberOfSpheres : R) (i j : nat) : SphereAttributes :=
  let dist := 1.1 in
  let x := INR i / numberOfSpheres * dist in
  let y := INR j / numberOfSpheres * dist in
  let z := 0 in
  let position := Vec3 x y z in
  let position := vadd position (Vec3 (- dist / 2) (- dist / 2) 0) in
  let scale := numberOfSpheres in
  let position := vscale position scale in
  {| position := position;
     albedo := Vec3 1 1 1;
     metallic := js_div (INR i) (numberOfSpheres - 1);
     roughness := js_div (INR j) (numberOfSpheres - 1) |}.

(** [_spawnSpheres]: the new value of [_sphere_attibutes]. *)
Definition _spawnSpheres (numberOfSpheres : R) : list SphereAttributes :=
  List.flat_map
    (fun i => List.map (fun j => spawned numberOfSpheres i j)
                (List.seq 0 (iterations numberOfSpheres)))
    (List.seq 0 (iterations numberOfSpheres)).

(** [_spawnLights]: the new value of [_lights]; [Math.PI] is taken as
    the real number. *)
Definition _spawnLights (numberOfLights : nat) : list IblHost.PonctualLight :=
  let dist := 20 in
  let nb_lights := numberOfLights in
  List.map
    (fun i =>
       let angle := INR i / INR nb_lights * 2 * Rtrigo1.PI in
       let x := cos angle * dist in
       let y := sin angle * dist in
       let z := - 6 in
       IblHost.PointLight (Vec3 x y z) (Vec3 1 1 1) 1)
    (List.seq 0 nb_lights).

(** A small scene for the examples, as the constructor leaves it but
    with the lights given. *)
Definition demo_app (lights : list IblHost.PonctualLight) : Application :=
  {| _context := [];
     _shader := {| directionalLightCount := 0; pointLightCount := 0 |};
     _sphere_attibutes := [spawned 2 0 0; spawned 2 0 1];
     _uniforms := <["uAttributes.albedo"%string := UVec3 (Vec3 0 0 0)]>
                    (<["uCamera.WsToCs"%string := UMat4 mat4_create]> ∅);
     _lights := lights;
     _camera := {| IblHost.WsToCs := mat4_create; IblHost.position := Vec3 0 0 2 |};
     _guiProperties := {| gui_albedo := Vec3 255 255 255;
                          light_colors := Vec3 255 255 255 |} |}.

End BaseHost.

(** ** Single-sphere variant: the host (second program of
    [src/unnamed/part_002]) *)

Module TemplateHost.

(** [interface Light] of the GUI. *)
Record Light : Type := { color : vec3; intensity : R }.

Record GUIProperties : Type :=
  { gui_material : IblHost.Material; gui_light : Light }.

(** The calls received by the graphics context, oldest first. *)
Inductive GLCall : Type :=
| Clear
| SetDepthTest (on : bool)
| SetCulling_BACK
| Draw (uniforms : gmap string IblHost.UniformValue).

Record Application : Type :=
  { _context : list GLCall;
    _uniforms : gmap string IblHost.UniformValue;
    _lights : list IblHost.PonctualLight;
    _camera : IblHost.Camera;
    _guiProperties : GUIProperties }.

Inductive outcome : Type :=
| Done (app : Application)
| Thrown (message : string) (app : Application).

(** [!value] is false for an object and for a number other than zero. *)
Definition truthy (value : option IblHost.UniformValue) : bool :=
  match value with
  | None => false
  | Some (IblHost.UNumber n) => if Req_dec_T n 0 then false else true
  | Some _ => true
  end.

(** [vec3.set(out, x, y, z)] writes the entries 0, 1 and 2 of [out] in
    place: of a [vec3] all entries, of a [mat4] (stored column by column)
    the first three of its first column; a texture stays the texture it
    is.  It throws a [TypeError] when [out] is undefined or a number. *)
Definition vec3_set (out : option IblHost.UniformValue) (v : vec3)
  : option IblHost.UniformValue :=
  match out with
  | Some (IblHost.UVec3 _) => Some (IblHost.UVec3 v)
  | Some (IblHost.UMat4 m) =>
      Some (IblHost.UMat4
              (Mat4 (Pos4 (vx v) (py (row0 m)) (pz (row0 m)) (pw (row0 m)))
                    (Pos4 (vy v) (py (row1 m)) (pz (row1 m)) (pw (row1 m)))
                    (Pos4 (vz v) (py (row2 m)) (pz (row2 m)) (pw (row2 m)))
                    (row3 m)))
  | Some (IblHost.UTexture t) => Some (IblHost.UTexture t)
  | Some (IblHost.UNumber _) | None => None
  end.

(** [mat4.multiply(out, a, b)], given the product [a * b]: writes the
    sixteen entries of [out] in place; a [vec3] has room for the first
    three only. *)
Definition mat4_multiply (out : option IblHost.UniformValue) (product : mat4)
  : option IblHost.UniformValue :=
  match out with
  | Some (IblHost.UMat4 _) => Some (IblHost.UMat4 product)
  | Some (IblHost.UVec3 _) =>
      Some (IblHost.UVec3
              (Vec3 (px (row0 product)) (px (row1 product)) (px (row2 product))))
  | Some (IblHost.UTexture t) => Some (IblHost.UTexture t)
  | Some (IblHost.UNumber _) | None => None
  end.

(** The key [`lights[${i}].` + field]. *)
Definition light_key (i : nat) (field : string) : string :=
  ("lights[" +:+ pretty i +:+ "].") +:+ field.

(** The body of the loop over the lights: a light that is an instance of
    neither class is given no uniform. *)
Definition light_uniforms (i : nat) (light : IblHost.PonctualLight)
    (uniforms : gmap string IblHost.UniformValue)
  : gmap string IblHost.UniformValue :=
  match light with
  | IblHost.DirectionalLight directionWS color intensity =>
      <[light_key i "intensity" := IblHost.UNumber intensity]>
        (<[light_key i "color" := IblHost.UVec3 color]>
           (<[light_key i "position" := IblHost.UVec3 directionWS]>
              (<[light_key i "type" :=
                   IblHost.UNumber (IZR (IblHost.LightType_value IblHost.DIRECTIONAL))]>
                 uniforms)))
  | IblHost.PointLight positionWS color intensity =>
      <[light_key i "intensity" := IblHost.UNumber intensity]>
        (<[light_key i "color" := IblHost.UVec3 color]>
           (<[light_key i "position" := IblHost.UVec3 positionWS]>
              (<[light_key i "type" :=
                   IblHost.UNumber (IZR (IblHost.LightType_value IblHost.POINT))]>
                 uniforms)))
  | IblHost.OtherLight _ _ => uniforms
  end.

Fixpoint lights_uniforms (i : nat) (lights : list IblHost.PonctualLight)
    (uniforms : gmap string IblHost.UniformValue)
  : gmap string IblHost.UniformValue :=
  match lights with
  | [] => uniforms
  | light :: rest => lights_uniforms (S i) rest (light_uniforms i light uniforms)
  end.

(** [if (!this._uniforms[key]) { this._uniforms[key] = fresh; }] *)
Definition ensure (key : string) (fresh : IblHost.UniformValue)
    (uniforms : gmap string IblHost.UniformValue)
  : gmap string IblHost.UniformValue :=
  if truthy (uniforms !! key) then uniforms else <[key := fresh]> uniforms.

(** The uniform map after the material and the lights, when the write in
    place of the albedo succeeds with [albedo]. *)
Definition material_uniforms (app : Application) (albedo : IblHost.UniformValue)
  : gmap string IblHost.UniformValue :=
  let props := _guiProperties app in
  let uniforms := ensure "uMaterial.albedo" (IblHost.UVec3 (vec3s 0)) (_uniforms app) in
  let uniforms := <["uMaterial.albedo"%string := albedo]> uniforms in
  let uniforms :=
    <["uMaterial.metallic"%string :=
        IblHost.UNumber (IblHost.metallic (gui_material props))]> uniforms in
  let uniforms :=
    <["uMaterial.roughness"%string :=
        IblHost.UNumber (IblHost.roughness (gui_material props))]> uniforms in
  lights_uniforms 0 (_lights app) uniforms.

(** [Application.render] *)
Definition render (app : Application) : outcome :=
  let context := _context app ++ [Clear; SetDepthTest true; SetCulling_BACK] in
  let props := _guiProperties app in
  let stopped uniforms :=
    {| _context := context; _uniforms := uniforms; _lights := _lights app;
       _camera := _camera app; _guiProperties := _guiProperties app |} in
  let uniforms := ensure "uMaterial.albedo" (IblHost.UVec3 (vec3s 0)) (_uniforms app) in
  match vec3_set (uniforms !! "uMaterial.albedo"%string)
          (vdivs (IblHost.albedo (gui_material props)) 255) with
  | None => Thrown "TypeError" (stopped uniforms)
  | Some albedo =>
      let uniforms := material_uniforms app albedo in
      let uniforms := ensure "uCamera.WsToCs" (IblHost.UMat4 mat4_create) uniforms in
      match mat4_multiply (uniforms !! "uCamera.WsToCs"%string)
              (IblHost.WsToCs (_camera app)) with
      | None => Thrown "TypeError" (stopped uniforms)
      | Some WsToCs =>
          let uniforms := <["uCamera.WsToCs"%string := WsToCs]> uniforms in
          let uniforms :=
            <["uCamera.position"%string :=
                IblHost.UVec3 (IblHost.position (_camera app))]> uniforms in
          Done {| _context := context ++ [Draw uniforms]; _uniforms := uniforms;
                  _lights := _lights app; _camera := _camera app;
                  _guiProperties := _guiProperties app |}
      end
  end.

(** The state that the constructor leaves, but with the lights given. *)
Definition demo_app (lights : list IblHost.PonctualLight) : Application :=
  {| _context := []; _uniforms := ∅; _lights := lights;
     _camera := {| IblHost.WsToCs := mat4_create; IblHost.position := Vec3 0 0 2 |};
     _guiProperties :=
       {| gui_material := {| IblHost.albedo := Vec3 255 255 255;
                             IblHost.metallic := 0; IblHost.roughness := 0 |};
          gui_light := {| color := Vec3 255 255 255; intensity := 1 |} |} |}.

End TemplateHost.

(** ** The formulas of the specification, as it words them *)

Module Spec.

(** The GGX distribution [α² / (π · ((N·H)²·(α²−1)+1)²)] as a function of
    [N·H] and [α]; [π] is the shader's constant. *)
Definition GGX_alpha (NdotH α : R) : R :=
  α ^ 2 / (Brdf.PI * (NdotH ^ 2 * (α ^ 2 - 1) + 1) ^ 2).

(** The distribution term of the specification: [α = roughness²]. *)
Definition GGX (N H : vec3) (roughness : R) : R :=
  GGX_alpha (dot N H) (roughness ^ 2).

(** The sRGB-to-linear transfer function of the specification:
    [c ≤ 0.04045 ⇒ c/12.92; else ((c+0.055)/1.055)^2.4]. *)
Definition linearize1 (c : R) : R :=
  if Rle_dec c 0.04045 then c / 12.92
  else Rpower ((c + 0.055) / 1.055) 2.4.

Definition linearize (c : vec3) : vec3 := vmap linearize1 c.

(** The affine map that sends [lo] to [0] and [hi] to [1]. *)
Definition remap01 (lo hi t : R) : R := (t - lo) / (hi - lo).

End Spec.

(** * Properties *)

(** ** Vectors *)

(** Decimal literals as quotients of integers, for [field]. *)
Ltac decimals := unfold Q2R; cbn [QArith_base.Qnum QArith_base.Qden].

Lemma vec3_eq (a b : vec3) :
  vx a = vx b -> vy a = vy b -> vz a = vz b -> a = b.
Proof. destruct a, b; simpl; intros -> -> ->; reflexivity. Qed.

Lemma PI_lit_pos : 0 < Brdf.PI.
Proof. unfold Brdf.PI. lra. Qed.

Lemma max_0_0 : max 0 0 = 0.
Proof. unfold max. apply Rmax_left. lra. Qed.

Lemma max_nonneg (a : R) : 0 <= max a 0.
Proof. unfold max. apply Rmax_r. Qed.

Lemma dot_zero_r (v : vec3) : dot v (vec3s 0) = 0.
Proof. unfold dot, vec3s; simpl. ring. Qed.

(** ** The distribution term *)

(** C1, as amended: for every [N], [H] and roughness, the distribution term of
    the shader is the GGX formula [α² / (π · (c²·(α²−1)+1)²)] taken at
    [α = roughness] (not [roughness²]) and at [c = max(N·H, 0)]. *)
Theorem DistributionGGX_alpha_is_roughness (N H : vec3) (roughness : R) :
  Brdf.DistributionGGX N H roughness
  = Spec.GGX_alpha (max (dot N H) 0) roughness.
Proof.
  unfold Brdf.DistributionGGX, Spec.GGX_alpha. cbv zeta.
  f_equal; ring.
Qed.

(** C1 fails as stated: at roughness [1/2] and [N = H = (0,0,1)] the shader
    computes [4/PI], the formula with [α = roughness²] gives [16/PI]. *)
Lemma DistributionGGX_not_alpha_squared :
  0 <= 1/2 <= 1 /\
  Brdf.DistributionGGX (Vec3 0 0 1) (Vec3 0 0 1) (1/2) = 4 / Brdf.PI /\
  Spec.GGX (Vec3 0 0 1) (Vec3 0 0 1) (1/2) = 16 / Brdf.PI /\
  Brdf.DistributionGGX (Vec3 0 0 1) (Vec3 0 0 1) (1/2)
  <> Spec.GGX (Vec3 0 0 1) (Vec3 0 0 1) (1/2).
Proof.
  pose proof PI_lit_pos as Hpi.
  assert (Hd : dot (Vec3 0 0 1) (Vec3 0 0 1) = 1) by (unfold dot; simpl; ring).
  assert (Hc : Brdf.DistributionGGX (Vec3 0 0 1) (Vec3 0 0 1) (1/2) = 4 / Brdf.PI).
  { unfold Brdf.DistributionGGX. cbv zeta. rewrite Hd.
    unfold max. rewrite Rmax_left by lra. field. lra. }
  assert (Hs : Spec.GGX (Vec3 0 0 1) (Vec3 0 0 1) (1/2) = 16 / Brdf.PI).
  { unfold Spec.GGX, Spec.GGX_alpha. rewrite Hd. field. lra. }
  repeat split; try lra; try assumption.
  rewrite Hc, Hs. intros Heq.
  assert (H4 : 4 / Brdf.PI * Brdf.PI = 16 / Brdf.PI * Brdf.PI) by (rewrite Heq; reflexivity).
  field_simplify in H4; lra.
Qed.

(** ** The specular divisor *)

(** In the IBL variant the divisor of the specular term is at least
    [0.001], whatever the three directions are. *)
Lemma ibl_specular_divisor_bounded (N V L : vec3) :
  0.001 <= IblFrag.specular_divisor N V L.
Proof. unfold IblFrag.specular_divisor, max. apply Rmax_r. Qed.

Lemma ibl_specular_divisor_nonzero (N V L : vec3) :
  IblFrag.specular_divisor N V L <> 0.
Proof. pose proof (ibl_specular_divisor_bounded N V L). lra. Qed.

(** C3 fails in the base variant: with the surface normal [(0,0,1)] and a
    directional light along [(1,0,0)] (a grazing light, [N·L = 0]) the
    specular term is divided by [denominator = 0]; the base shader has no
    [max(denominator, 0.001)]. *)
Theorem base_specular_divides_by_zero (uAttributes : BaseFrag.Attributes)
    (vWsPosition vWsViewPosition : vec3) :
  let inp := {| BaseFrag.vWsPosition := vWsPosition;
                BaseFrag.vWsNormal := Vec3 0 0 1;
                BaseFrag.vWsViewPosition := vWsViewPosition |} in
  let light := {| BaseFrag.type := BaseFrag.LIGHT_TYPE_DIRECTIONAL;
                  BaseFrag.position := Vec3 1 0 0;
                  BaseFrag.color := vec3s 1;
                  BaseFrag.intensity := 1 |} in
  let N := BaseFrag.surface_normal inp in
  let V := normalize (vsub (BaseFrag.vWsViewPosition inp) (BaseFrag.vWsPosition inp)) in
  let L := BaseFrag.getLightDirection uAttributes (BaseFrag.vWsPosition inp) light in
  BaseFrag.denominator N V L = 0.
Proof.
  cbv zeta. unfold BaseFrag.getLightDirection, BaseFrag.surface_normal; simpl.
  unfold BaseFrag.denominator.
  assert (Hd : dot (normalize (Vec3 0 0 1)) (normalize (Vec3 1 0 0)) = 0).
  { unfold dot, normalize, vdivs, vmap; simpl. unfold Rdiv. ring. }
  rewrite Hd, max_0_0. ring.
Qed.

(** ** The diffuse term of a metal *)

Lemma base_diffuse_metallic (V L F0 albedo : vec3) :
  BaseFrag.diffuse V L F0 albedo 1 = vec3s 0.
Proof.
  unfold BaseFrag.diffuse. cbv zeta.
  apply vec3_eq; simpl; unfold Rdiv; ring.
Qed.

(** C8: with [metallic = 1] the Lambertian diffuse term is the zero vector,
    for every albedo, view and light direction and every [F0] (hence every
    roughness and light), in both fragment shaders. *)
Theorem diffuse_zero_when_metallic (V L F0 albedo : vec3) :
  BaseFrag.diffuse V L F0 albedo 1 = vec3s 0
  /\ IblFrag.diffuse V L F0 albedo 1 = vec3s 0.
Proof.
  split.
  - unfold BaseFrag.diffuse. cbv zeta.
    apply vec3_eq; simpl; unfold Rdiv; ring.
  - unfold IblFrag.diffuse. cbv zeta.
    apply vec3_eq; simpl; unfold Rdiv; ring.
Qed.

(** With [metallic = 1] a light adds its specular term only. *)
Lemma base_light_term_metallic (a : BaseFrag.Attributes) (inp : BaseFrag.Inputs)
    (N V albedo F0 : vec3) (light : BaseFrag.Light) :
  BaseFrag.metallic a = 1 ->
  let L := BaseFrag.getLightDirection a (BaseFrag.vWsPosition inp) light in
  BaseFrag.light_term a inp N V albedo F0 light
  = vscale (vmul (BaseFrag.specular N V L F0 (BaseFrag.roughness a))
                 (BaseFrag.getLightColor light))
           (max (dot N L) 0).
Proof.
  intros Hm. cbv zeta. unfold BaseFrag.light_term. cbv zeta. rewrite Hm.
  rewrite base_diffuse_metallic.
  apply vec3_eq; simpl; ring.
Qed.

(** ** The light loop *)

Lemma for_loop_reads {A : Type} (f : nat -> A -> A) (count start : nat)
    (acc : A) (reads : list nat) :
  snd (for_loop count start
         (fun i '(x, r) => (f i x, r ++ [i])) (acc, reads))
  = reads ++ seq start count.
Proof.
  revert start acc reads.
  induction count as [|count IH]; intros start acc reads; simpl.
  - now rewrite app_nil_r.
  - rewrite IH. now rewrite <- app_assoc.
Qed.

(** The base light loop reads the slots [0 .. LIGHT_COUNT-1] of [uLights],
    each once and in order. *)
Lemma base_light_loop_reads (d : BaseFrag.Defines) (a : BaseFrag.Attributes)
    (uLights : list BaseFrag.Light) (inp : BaseFrag.Inputs) :
  snd (BaseFrag.light_loop d a uLights inp) = seq 0 (BaseFrag.LIGHT_COUNT d).
Proof.
  unfold BaseFrag.light_loop. cbv zeta.
  apply (for_loop_reads
           (fun i irradiance => vadd irradiance
              (BaseFrag.light_term a inp _ _ _ _ (nth i uLights BaseFrag.Light0)))).
Qed.

Lemma base_light_loop_in_bounds (d : BaseFrag.Defines) (a : BaseFrag.Attributes)
    (uLights : list BaseFrag.Light) (inp : BaseFrag.Inputs) (i : nat) :
  In i (snd (BaseFrag.light_loop d a uLights inp)) ->
  (i < BaseFrag.LIGHT_COUNT d)%nat.
Proof.
  rewrite base_light_loop_reads. intros Hi%in_seq. lia.
Qed.

(** C9, a defect of the code: with [LIGHT_COUNT = 0] the base fragment
    shader declares [uLights] with the size zero, which is not a legal
    array, so the shader does not compile: there is no fragment colour,
    and so no irradiance that is exactly zero, whatever the material and
    the geometry.  With one light or more it compiles, and its light loop
    reads the slots [0 .. LIGHT_COUNT-1] only. *)
Theorem base_no_lights_does_not_compile (d : BaseFrag.Defines)
    (uAttributes : BaseFrag.Attributes) (uLights : list BaseFrag.Light)
    (inp : BaseFrag.Inputs) :
  BaseFrag.LIGHT_COUNT d = 0%nat ->
  BaseFrag.uLights_declared d = false
  /\ BaseFrag.main d uAttributes uLights inp = None
  /\ (forall color, BaseFrag.main d uAttributes uLights inp <> Some color)
  /\ (forall d', (0 < BaseFrag.LIGHT_COUNT d')%nat ->
        BaseFrag.main d' uAttributes uLights inp
        = Some (Vec4 (fst (BaseFrag.light_loop d' uAttributes uLights inp)) 1)
        /\ snd (BaseFrag.light_loop d' uAttributes uLights inp)
           = seq 0 (BaseFrag.LIGHT_COUNT d')).
Proof.
  intros H0.
  assert (Hd : BaseFrag.uLights_declared d = false).
  { unfold BaseFrag.uLights_declared. rewrite H0. reflexivity. }
  assert (Hm : BaseFrag.main d uAttributes uLights inp = None).
  { unfold BaseFrag.main. now rewrite Hd. }
  split; [exact Hd|]. split; [exact Hm|]. split.
  - intros color. rewrite Hm. discriminate.
  - intros d' Hpos. split; [|apply base_light_loop_reads].
    unfold BaseFrag.main, BaseFrag.uLights_declared.
    destruct (Nat.ltb_spec 0 (BaseFrag.LIGHT_COUNT d')) as [_|Hle]; [reflexivity|lia].
Qed.

Lemma base_no_lights_does_not_compile_witness :
  let d := {| BaseFrag.DIRECTIONAL_LIGHT_COUNT := 0; BaseFrag.POINT_LIGHT_COUNT := 0 |} in
  let a := {| BaseFrag.attr_position := vec3s 0; BaseFrag.albedo := vec3s 1;
              BaseFrag.metallic := 0; BaseFrag.roughness := 1 |} in
  let inp := {| BaseFrag.vWsPosition := vec3s 0; BaseFrag.vWsNormal := Vec3 0 0 1;
                BaseFrag.vWsViewPosition := Vec3 0 0 2 |} in
  BaseFrag.LIGHT_COUNT d = 0%nat
  /\ BaseFrag.uLights_declared d = false
  /\ BaseFrag.main d a [] inp = None.
Proof.
  cbv zeta. split; [reflexivity|].
  destruct (base_no_lights_does_not_compile
              {| BaseFrag.DIRECTIONAL_LIGHT_COUNT := 0; BaseFrag.POINT_LIGHT_COUNT := 0 |}
              {| BaseFrag.attr_position := vec3s 0; BaseFrag.albedo := vec3s 1;
                 BaseFrag.metallic := 0; BaseFrag.roughness := 1 |}
              []
              {| BaseFrag.vWsPosition := vec3s 0; BaseFrag.vWsNormal := Vec3 0 0 1;
                 BaseFrag.vWsViewPosition := Vec3 0 0 2 |} eq_refl)
    as (Hd & Hm & _).
  split; assumption.
Defined.

(** ** The normal of the base variant *)

Lemma dot_self_zero (n : vec3) : dot n n = 0 -> n = vec3s 0.
Proof.
  destruct n as [a b c]. unfold dot, vec3s; simpl. intros H.
  assert (a = 0) by nra. assert (b = 0) by nra. assert (c = 0) by nra.
  subst; reflexivity.
Qed.

Lemma dot_self_nonneg (n : vec3) : 0 <= dot n n.
Proof. destruct n as [a b c]. unfold dot; simpl. nra. Qed.

(** A vector whose normalisation has three equal components has three
    equal components. *)
Lemma normalize_components_equal (n : vec3) :
  vx (normalize n) = vy (normalize n) ->
  vy (normalize n) = vz (normalize n) ->
  vx n = vy n /\ vy n = vz n.
Proof.
  unfold normalize, vdivs, vmap; simpl. intros Hxy Hyz.
  destruct (Req_dec (vlength n) 0) as [H0|Hn].
  - unfold vlength in H0. apply sqrt_eq_0 in H0; [|apply dot_self_nonneg].
    apply dot_self_zero in H0. subst n. simpl. split; reflexivity.
  - split.
    + apply (Rmult_eq_reg_r (/ vlength n)); [exact Hxy|].
      now apply Rinv_neq_0_compat.
    + apply (Rmult_eq_reg_r (/ vlength n)); [exact Hyz|].
      now apply Rinv_neq_0_compat.
Qed.

(** If [c * s = c / 2 + 1 / 2] holds for three values [c] and one [s], the
    three values are equal. *)
Lemma fixed_components_equal (s a b : R) :
  (a * 0.5 + 0.5) / s = a -> (b * 0.5 + 0.5) / s = b -> a = b.
Proof.
  intros Ha Hb.
  destruct (Req_dec s 0) as [->|Hs].
  - unfold Rdiv in Ha, Hb. rewrite Rinv_0 in Ha, Hb. lra.
  - assert (Ha' : a * 0.5 + 0.5 = a * s).
    { rewrite <- Ha at 2. field. exact Hs. }
    assert (Hb' : b * 0.5 + 0.5 = b * s).
    { rewrite <- Hb at 2. field. exact Hs. }
    assert (Hs2 : s - 0.5 <> 0) by (intros E; nra).
    apply (Rmult_eq_reg_r (s - 0.5)); [lra|exact Hs2].
Qed.

(** C10: in the base variant the vertex stage writes
    [vWsNormal = normalize(n) * 0.5 + 0.5], so the fragment stage lights
    with [N = normalize(normalize(n) * 0.5 + 0.5)]; whenever [n] is not
    proportional to [(1,1,1)] this [N] is not the unit normal
    [normalize(n)]. *)
Theorem base_normal_is_remapped (uCamera : BaseVert.Camera)
    (uAttributes : BaseVert.Attributes) (in_position n : vec3) :
  let v := BaseVert.main uCamera uAttributes in_position n in
  BaseVert.vWsNormal v = vadds (vscale (normalize n) 0.5) 0.5
  /\ BaseFrag.surface_normal (base_fragment_inputs v)
     = normalize (vadds (vscale (normalize n) 0.5) 0.5)
  /\ (~ (vx n = vy n /\ vy n = vz n) ->
      BaseFrag.surface_normal (base_fragment_inputs v) <> normalize n).
Proof.
  cbv zeta. split; [reflexivity|]. split; [reflexivity|].
  intros Hn Heq. apply Hn.
  unfold BaseFrag.surface_normal, base_fragment_inputs, BaseVert.main in Heq.
  simpl in Heq.
  set (u := normalize n) in *.
  set (s := vlength (vadds (vscale u 0.5) 0.5)) in *.
  assert (Hx : (vx u * 0.5 + 0.5) / s = vx u).
  { apply (f_equal vx) in Heq. exact Heq. }
  assert (Hy : (vy u * 0.5 + 0.5) / s = vy u).
  { apply (f_equal vy) in Heq. exact Heq. }
  assert (Hz : (vz u * 0.5 + 0.5) / s = vz u).
  { apply (f_equal vz) in Heq. exact Heq. }
  apply normalize_components_equal; fold u.
  - exact (fixed_components_equal s _ _ Hx Hy).
  - exact (fixed_components_equal s _ _ Hy Hz).
Qed.

Lemma base_normal_is_remapped_witness :
  let cam := {| BaseVert.WsToCs := mat4_create; BaseVert.cam_position := Vec3 0 0 2 |} in
  let a := {| BaseVert.attr_position := vec3s 0; BaseVert.albedo := vec3s 1;
              BaseVert.metallic := 0; BaseVert.roughness := 1 |} in
  let n := Vec3 1 0 0 in
  let v := BaseVert.main cam a (Vec3 1 0 0) n in
  ~ (vx n = vy n /\ vy n = vz n)
  /\ BaseFrag.surface_normal (base_fragment_inputs v) <> normalize n.
Proof.
  cbv zeta.
  assert (Hn : ~ (vx (Vec3 1 0 0) = vy (Vec3 1 0 0)
                  /\ vy (Vec3 1 0 0) = vz (Vec3 1 0 0))).
  { simpl. intros [H _]. lra. }
  split; [exact Hn|].
  apply base_normal_is_remapped. exact Hn.
Defined.

(** ** The equirectangular coordinates of the IBL variant *)

Lemma atan2_neg_x_axis : atan2 0 (-1) = Rtrigo1.PI.
Proof.
  unfold atan2.
  destruct (Rlt_dec 0 (-1)) as [H|_]; [lra|].
  destruct (Rlt_dec (-1) 0) as [_|H]; [|lra].
  destruct (Rle_dec 0 0) as [_|H]; [|lra].
  replace (0 / -1) with 0 by (unfold Rdiv; ring).
  rewrite atan_0. ring.
Qed.

(** The affine map of the specification sends the end points of the angle
    ranges to [0] and [1]. *)
Lemma remap01_endpoints (lo hi : R) :
  lo < hi -> Spec.remap01 lo hi lo = 0 /\ Spec.remap01 lo hi hi = 1.
Proof.
  intros H. unfold Spec.remap01. split; field; lra.
Qed.

(** C4 fails on the code: for the unit normal [(-1,0,0)] the azimuth is
    [atan(0,-1) = π], and the shader maps it to [π/PI + 0.5], which lies
    above [1]: the shader divides by [PI] and [PI/2] where the map onto
    [[0,1]] divides by [2·PI] and [PI], against its own comment
    ("Remap x from [-PI, PI] to [0, 1]"). *)
Theorem ibl_diffuseUV_leaves_unit_square :
  let N := Vec3 (-1) 0 0 in
  dot N N = 1
  /\ ux (IblFrag.diffuseUV N) = Rtrigo1.PI / Brdf.PI + 0.5
  /\ 1 < ux (IblFrag.diffuseUV N)
  /\ Spec.remap01 (- Rtrigo1.PI) Rtrigo1.PI (ux (IblFrag.cartesianToPolar N)) = 1.
Proof.
  cbv zeta.
  assert (Hu : ux (IblFrag.diffuseUV (Vec3 (-1) 0 0)) = Rtrigo1.PI / Brdf.PI + 0.5).
  { unfold IblFrag.diffuseUV, IblFrag.cartesianToPolar; simpl.
    now rewrite atan2_neg_x_axis. }
  pose proof PI2_3_2 as H3. pose proof PI_lit_pos as Hp.
  split; [unfold dot; simpl; ring|]. split; [exact Hu|]. split.
  - rewrite Hu.
    assert (Hlt : 0.5 < Rtrigo1.PI / Brdf.PI).
    { apply (Rmult_lt_reg_r Brdf.PI); [exact Hp|].
      unfold Rdiv. rewrite Rmult_assoc, Rinv_l by lra.
      unfold Brdf.PI in *. lra. }
    lra.
  - unfold IblFrag.cartesianToPolar; simpl. rewrite atan2_neg_x_axis.
    apply remap01_endpoints. lra.
Qed.

(** ** Unrecognised lights *)

Section HostStatements.
Import IblHost.

Lemma quiet_skip : quiet skip.
Proof. intros app. now exists app. Qed.

Lemma quiet_set_uniform key value : quiet (set_uniform key value).
Proof. intros app. eexists. split; reflexivity. Qed.

Lemma quiet_set_define key value : quiet (set_define key value).
Proof. intros app. eexists. split; reflexivity. Qed.

Lemma quiet_call c : is_draw c = false -> quiet (call c).
Proof.
  intros Hc app. eexists. split; [reflexivity|].
  unfold draws; simpl. rewrite List.filter_app; simpl. rewrite Hc.
  apply app_nil_r.
Qed.

Lemma quiet_bind (c1 c2 : stmt unit) : quiet c1 -> quiet c2 -> quiet (c1 ;; c2).
Proof.
  intros H1 H2 app.
  destruct (H1 app) as (app1 & E1 & D1).
  destruct (H2 app1) as (app2 & E2 & D2).
  exists app2. split; [|congruence].
  unfold mbind, stmt_bind. now rewrite E1.
Qed.

Lemma quiet_when_some {A} (o : option A) (k : A -> stmt unit) :
  (forall a, quiet (k a)) -> quiet (when_some o k).
Proof. intros Hk. destruct o; simpl; [apply Hk|apply quiet_skip]. Qed.

(** After a quiet statement, a statement that throws without drawing
    makes the sequence throw without drawing. *)
Lemma quiet_then_throw (c1 c2 : stmt unit) (message : string) :
  quiet c1 ->
  (forall app, exists app', c2 app = Thrown message app' /\ draws app' = draws app) ->
  forall app, exists app',
    (c1 ;; c2) app = Thrown message app' /\ draws app' = draws app.
Proof.
  intros H1 H2 app.
  destruct (H1 app) as (app1 & E1 & D1).
  destruct (H2 app1) as (app2 & E2 & D2).
  exists app2. split; [|congruence].
  unfold mbind, stmt_bind. now rewrite E1.
Qed.

Lemma throw_then (c1 c2 : stmt unit) (message : string) :
  (forall app, exists app', c1 app = Thrown message app' /\ draws app' = draws app) ->
  forall app, exists app',
    (c1 ;; c2) app = Thrown message app' /\ draws app' = draws app.
Proof.
  intros H1 app. destruct (H1 app) as (app1 & E1 & D1).
  exists app1. split; [|exact D1].
  unfold mbind, stmt_bind. now rewrite E1.
Qed.

(** The loop over the lights stops at the first light that is neither a
    [DirectionalLight] nor a [PointLight], with the exception that names
    its index; no draw call has been issued. *)
Lemma assemble_lights_throws (lights : list PonctualLight) :
  forall (i j : nat) (l : PonctualLight),
  list_find (fun l => unrecognised l = true) lights = Some (j, l) ->
  forall app, exists app',
    assemble_lights i lights app = Thrown (unknown_light_message (i + j)) app'
    /\ draws app' = draws app.
Proof.
  induction lights as [|light rest IH]; intros i j l Hfind; [discriminate|].
  simpl in Hfind. destruct (decide (unrecognised light = true)) as [Hu|Hu].
  - injection Hfind as <- <-. rewrite Nat.add_0_r.
    destruct light; try discriminate Hu.
    intros app. exists app. split; reflexivity.
  - destruct (list_find _ rest) as [[j' l']|] eqn:Hrest; [|discriminate].
    simpl in Hfind. injection Hfind as <- <-.
    replace (i + S j')%nat with (S i + j')%nat by lia.
    specialize (IH (S i) j' l' eq_refl).
    destruct light as [d c k|p c k|c k]; [| |now elim Hu]; simpl.
    + apply quiet_then_throw;
        [apply quiet_bind; apply quiet_set_uniform|].
      apply quiet_then_throw; [apply quiet_set_uniform|].
      apply quiet_then_throw; [apply quiet_set_uniform|]. exact IH.
    + apply quiet_then_throw;
        [apply quiet_bind; apply quiet_set_uniform|].
      apply quiet_then_throw; [apply quiet_set_uniform|].
      apply quiet_then_throw; [apply quiet_set_uniform|]. exact IH.
Qed.

Lemma quiet_ensure_uniform key fresh : quiet (ensure_uniform key fresh).
Proof.
  intros app. unfold ensure_uniform.
  destruct (truthy _); [apply quiet_skip|apply quiet_set_uniform].
Qed.

Lemma quiet_harmless (c : stmt unit) : quiet c -> harmless c.
Proof. intros H app. left. apply H. Qed.

Lemma harmless_multiply_into key product : harmless (multiply_into key product).
Proof.
  intros app. unfold multiply_into. destruct (mat4_multiply _ _).
  - left. apply quiet_set_uniform.
  - right. exists "TypeError"%string, app. split; reflexivity.
Qed.

Lemma harmless_then_fails (c1 c2 : stmt unit) :
  harmless c1 -> fails c2 -> fails (c1 ;; c2).
Proof.
  intros H1 H2 app. unfold mbind, stmt_bind.
  destruct (H1 app) as [(app1 & E1 & D1)|(message & app1 & E1 & D1)]; rewrite E1.
  - destruct (H2 app1) as (message & app2 & E2 & D2).
    exists message, app2. split; [exact E2|congruence].
  - exists message, app1. split; [reflexivity|exact D1].
Qed.

Lemma throws_fails (c : stmt unit) (message : string) :
  (forall app, exists app', c app = Thrown message app' /\ draws app' = draws app) ->
  fails c.
Proof. intros H app. destruct (H app) as (app' & E & D). eauto. Qed.

(** The statements of [render] up to the product of the camera, when the
    key [uCamera.WsToCs] is absent or holds a matrix: the matrix is
    created if need be and the product is written into it. *)
Lemma render_prefix (app : Application) (product : mat4) (k : stmt unit) :
  _uniforms app !! "uCamera.WsToCs"%string = None
  \/ (exists w, _uniforms app !! "uCamera.WsToCs"%string = Some (UMat4 w)) ->
  (call Clear ;;
   call (SetDepthTest true) ;;
   ensure_uniform "uCamera.WsToCs" (UMat4 mat4_create) ;;
   multiply_into "uCamera.WsToCs" product ;;
   k) app
  = k {| _context := _context app ++ [Clear; SetDepthTest true];
         defines := defines app;
         _properties := _properties app;
         _uniforms := <["uCamera.WsToCs"%string := UMat4 product]> (_uniforms app);
         _lights := _lights app;
         _brdfLUT := _brdfLUT app;
         _environments := _environments app;
         _currentEnvironment := _currentEnvironment app;
         _camera := _camera app |}.
Proof.
  intros Hw. destruct app as [ctx defs props unis lights lut envs cur cam].
  cbn [_uniforms] in Hw.
  lazy beta iota delta [mbind stmt_bind call ensure_uniform
                        _context defines _uniforms _properties _lights _brdfLUT
                        _environments _currentEnvironment _camera].
  destruct Hw as [Hn|(w & Hw)].
  - rewrite Hn. cbn [truthy].
    lazy beta iota delta [set_uniform multiply_into
                          _context defines _uniforms _properties _lights _brdfLUT
                          _environments _currentEnvironment _camera].
    rewrite lookup_insert_eq. cbn [mat4_multiply].
    lazy beta iota delta [set_uniform
                          _context defines _uniforms _properties _lights _brdfLUT
                          _environments _currentEnvironment _camera].
    rewrite insert_insert_eq, <- app_assoc. reflexivity.
  - rewrite Hw. cbn [truthy].
    lazy beta iota delta [skip mret stmt_ret multiply_into
                          _context defines _uniforms _properties _lights _brdfLUT
                          _environments _currentEnvironment _camera].
    rewrite Hw. cbn [mat4_multiply].
    lazy beta iota delta [set_uniform
                          _context defines _uniforms _properties _lights _brdfLUT
                          _environments _currentEnvironment _camera].
    rewrite <- app_assoc. reflexivity.
Qed.

(** [render] with an unrecognised light among [this._lights] never
    reaches a draw call: an exception leaves it before. *)
Lemma render_fails (app : Application) (j : nat) (l : PonctualLight) :
  list_find (fun l => unrecognised l = true) (_lights app) = Some (j, l) ->
  exists message app', render app = Thrown message app' /\ draws app' = draws app.
Proof.
  intros Hfind. unfold render. revert app Hfind.
  assert (H : forall app0 : Application,
             list_find (fun l => unrecognised l = true) (_lights app0) = Some (j, l) ->
             fails (call Clear ;;
                    call (SetDepthTest true) ;;
                    ensure_uniform "uCamera.WsToCs" (UMat4 mat4_create) ;;
                    multiply_into "uCamera.WsToCs" (WsToCs (_camera app0)) ;;
                    set_uniform "uCamera.position" (UVec3 (position (_camera app0))) ;;
                    when_some (_brdfLUT app0)
                      (fun t => set_uniform "uEnvironment.brdfLUT" (UTexture t)) ;;
                    when_some (diffuse (_environments app0 (_currentEnvironment app0)))
                      (fun t => call (UploadTexture t) ;;
                                set_uniform "uEnvironment.diffuse" (UTexture t)) ;;
                    when_some (specular (_environments app0 (_currentEnvironment app0)))
                      (fun t => call (UploadTexture t) ;;
                                set_uniform "uEnvironment.specular" (UTexture t)) ;;
                    set_define "LIGHTS_COUNT" (Z.of_nat (List.length (_lights app0))) ;;
                    set_define "LIGHT_COUNT_DIRECTIONAL"
                      (count instanceof_DirectionalLight (_lights app0)) ;;
                    set_define "LIGHT_COUNT_POINT"
                      (count instanceof_PointLight (_lights app0)) ;;
                    set_define "LIGHT_TYPE_DIRECTIONAL" (LightType_value DIRECTIONAL) ;;
                    set_define "LIGHT_TYPE_POINT" (LightType_value POINT) ;;
                    assemble_lights 0 (_lights app0) ;;
                    set_define "SPHERES_COUNT"
                      (Z.of_nat (List.length (_properties app0))) ;;
                    draw_spheres (_properties app0))).
  { intros app0 Hfind.
    repeat (apply harmless_then_fails;
            [first [ apply harmless_multiply_into
                   | apply quiet_harmless;
                     first [ apply quiet_set_uniform | apply quiet_set_define
                           | apply quiet_ensure_uniform
                           | now apply quiet_call
                           | apply quiet_when_some; intros t;
                             first [ apply quiet_set_uniform
                                   | apply quiet_bind;
                                     [now apply quiet_call
                                     |apply quiet_set_uniform] ] ] ]|]).
    apply (throws_fails _ (unknown_light_message j)).
    apply throw_then.
    exact (assemble_lights_throws (_lights app0) 0 j l Hfind). }
  intros app Hfind. exact (H app Hfind app).
Qed.

(** When the key [uCamera.WsToCs] is absent or holds a matrix, the
    exception is the one that names the first unrecognised light. *)
Lemma render_throws (app : Application) (j : nat) (l : PonctualLight) :
  _uniforms app !! "uCamera.WsToCs"%string = None
  \/ (exists w, _uniforms app !! "uCamera.WsToCs"%string = Some (UMat4 w)) ->
  list_find (fun l => unrecognised l = true) (_lights app) = Some (j, l) ->
  exists app',
    render app = Thrown (unknown_light_message j) app'
    /\ draws app' = draws app.
Proof.
  intros Hw Hfind. unfold render. rewrite (render_prefix app _ _ Hw).
  match goal with
  | |- exists app', ?c ?a = _ /\ _ =>
      assert (H : forall app0, exists app',
                   c app0 = Thrown (unknown_light_message j) app'
                   /\ draws app' = draws app0)
  end.
  { repeat (apply quiet_then_throw;
            [first [ apply quiet_set_uniform | apply quiet_set_define
                   | now apply quiet_call
                   | apply quiet_when_some; intros t;
                     first [ apply quiet_set_uniform
                           | apply quiet_bind;
                             [now apply quiet_call|apply quiet_set_uniform] ] ]|]).
    apply throw_then.
    exact (assemble_lights_throws (_lights app) 0 j l Hfind). }
  match goal with
  | |- exists app', ?c ?a = _ /\ _ => destruct (H a) as (app' & E & D)
  end.
  exists app'. split; [exact E|]. rewrite D. unfold draws. cbn [_context].
  rewrite List.filter_app. cbn [List.filter is_draw]. apply app_nil_r.
Qed.

End HostStatements.

(** *** The fragment shader on a type tag that no host uploads *)

Lemma ibl_get_light_dir_unrecognised (light : IblFrag.LightProperties) (ws : vec3) :
  IblFrag.type light <> IblFrag.LIGHT_TYPE_DIRECTIONAL ->
  IblFrag.type light <> IblFrag.LIGHT_TYPE_POINT ->
  IblFrag.get_light_dir light ws = vec3s 0.
Proof.
  intros Hd Hp. unfold IblFrag.get_light_dir.
  destruct (Z.eqb_spec (IblFrag.type light) IblFrag.LIGHT_TYPE_DIRECTIONAL); [contradiction|].
  destruct (Z.eqb_spec (IblFrag.type light) IblFrag.LIGHT_TYPE_POINT); [contradiction|].
  reflexivity.
Qed.

(** A light whose type tag the shader does not recognise adds nothing to
    the irradiance, whatever its colour and intensity. *)
Lemma ibl_light_term_unrecognised (m : IblFrag.Material) (inp : IblFrag.Inputs)
    (N V albedo f0 : vec3) (light : IblFrag.LightProperties) :
  IblFrag.type light <> IblFrag.LIGHT_TYPE_DIRECTIONAL ->
  IblFrag.type light <> IblFrag.LIGHT_TYPE_POINT ->
  IblFrag.light_term m inp N V albedo f0 light = vec3s 0.
Proof.
  intros Hd Hp. unfold IblFrag.light_term. cbv zeta.
  rewrite (ibl_get_light_dir_unrecognised light _ Hd Hp).
  rewrite dot_zero_r, max_0_0.
  apply vec3_eq; simpl; ring.
Qed.

Lemma pow_zero_base (y : R) : pow 0 y = 0.
Proof. unfold pow. destruct (Rlt_dec 0 0); [lra|reflexivity]. Qed.

Lemma pow_pos_base (x y : R) : 0 < x -> pow x y = Rpower x y.
Proof. intros Hx. unfold pow. destruct (Rlt_dec 0 x); [reflexivity|contradiction]. Qed.

(** ** The shader program cache *)

Section ProgramCacheProperties.
Import ProgramCache.

Variable gpu_compile : string -> string -> gmap string Z -> option Error.

Abbreviation getOrCompile := (getOrCompile gpu_compile).
Abbreviation reachable := (reachable gpu_compile).
Abbreviation later := (later gpu_compile).

Lemma cache_wf_empty : cache_wf empty.
Proof. split; simpl; intros *; rewrite lookup_empty; discriminate. Qed.

Lemma cache_wf_call vs fs d c :
  cache_wf c -> cache_wf (snd (getOrCompile vs fs d c)).
Proof.
  intros [Hlt Hinj]. unfold ProgramCache.getOrCompile. cbv zeta.
  destruct (programs c !! (vs, fs, d)) as [h|] eqn:Hk;
    cbn [snd programs next_handle]; [now split|].
  destruct (gpu_compile vs fs d) as [err|];
    cbn [snd programs next_handle]; [now split|].
  split; cbn [programs next_handle].
  - intros k h. rewrite lookup_insert. case_decide as E.
    + intros [= <-]. lia.
    + intros Hh. apply Hlt in Hh. lia.
  - intros k1 k2 h. rewrite !lookup_insert.
    case_decide as E1; case_decide as E2; intros H1 H2.
    + congruence.
    + injection H1 as <-. apply Hlt in H2. lia.
    + injection H2 as <-. apply Hlt in H1. lia.
    + eauto.
Qed.

Lemma reachable_wf c : reachable c -> cache_wf c.
Proof.
  induction 1; [apply cache_wf_empty|now apply cache_wf_call].
Qed.

Lemma later_reachable c c' : reachable c -> later c c' -> reachable c'.
Proof. intros Hc. induction 1; [assumption|now constructor]. Qed.

(** A successful call leaves the program it returns in the cache. *)
Lemma getOrCompile_cached vs fs d c h c' :
  getOrCompile vs fs d c = (inr h, c') -> programs c' !! (vs, fs, d) = Some h.
Proof.
  unfold ProgramCache.getOrCompile. cbv zeta.
  destruct (programs c !! (vs, fs, d)) as [h0|] eqn:Hk.
  - intros [= <- <-]. exact Hk.
  - destruct (gpu_compile vs fs d) as [err|]; [discriminate|].
    intros [= <- <-]. cbn [programs]. apply lookup_insert_eq.
Qed.

(** Calls never evict or replace a cached program. *)
Lemma later_keeps c c' k h :
  later c c' -> programs c !! k = Some h -> programs c' !! k = Some h.
Proof.
  intros Hl Hk. induction Hl as [|vs fs d c' Hl IH]; [assumption|].
  unfold ProgramCache.getOrCompile. cbv zeta.
  destruct (programs c' !! (vs, fs, d)) as [h0|] eqn:Hk';
    cbn [snd programs]; [assumption|].
  destruct (gpu_compile vs fs d) as [err|]; cbn [snd programs]; [assumption|].
  rewrite lookup_insert_ne; [assumption|]. congruence.
Qed.

(** A call on a cached key returns the cached program and leaves the
    cache, with its compilation counter, as it was. *)
Lemma getOrCompile_hit vs fs d c h :
  programs c !! (vs, fs, d) = Some h -> getOrCompile vs fs d c = (inr h, c).
Proof. intros Hk. unfold ProgramCache.getOrCompile. cbv zeta. now rewrite Hk. Qed.

(** C6: over one source pair, a call with the define set [D1] that
    returns [h1] and any later call with the define set [D2] that returns
    [h2]: if [D1 ≠ D2] the two handles are distinct; if [D1 = D2] the
    later call returns the identical handle and leaves the cache and its
    compilation counter unchanged (no second compilation). *)
Theorem getOrCompile_distinct_or_cached
    (vs fs : string) (D1 D2 : gmap string Z) (c c1 c2 c3 : Cache) (h1 h2 : nat) :
  reachable c ->
  getOrCompile vs fs D1 c = (inr h1, c1) ->
  later c1 c2 ->
  getOrCompile vs fs D2 c2 = (inr h2, c3) ->
  (D1 <> D2 -> h1 <> h2)
  /\ (D1 = D2 -> h2 = h1 /\ c3 = c2 /\ compilations c3 = compilations c2).
Proof.
  intros Hc H1 Hl H2.
  assert (Hc1 : reachable c1).
  { replace c1 with (snd (getOrCompile vs fs D1 c)) by now rewrite H1.
    now constructor. }
  pose proof (reachable_wf c2 (later_reachable c1 c2 Hc1 Hl)) as [Hlt Hinj].
  pose proof (later_keeps c1 c2 _ _ Hl (getOrCompile_cached _ _ _ _ _ _ H1)) as Hk1.
  split.
  - intros Hne Heq. subst h2.
    revert H2. unfold ProgramCache.getOrCompile. cbv zeta.
    destruct (programs c2 !! (vs, fs, D2)) as [h|] eqn:Hk2.
    + intros [= -> _]. apply Hne.
      pose proof (Hinj _ _ _ Hk1 Hk2) as E. congruence.
    + destruct (gpu_compile vs fs D2) as [err|]; [discriminate|].
      intros [= E _]. apply Hlt in Hk1. lia.
  - intros <-. rewrite (getOrCompile_hit _ _ _ _ _ Hk1) in H2.
    injection H2 as <- <-. auto.
Qed.

End ProgramCacheProperties.

Lemma getOrCompile_distinct_or_cached_witness :
  let gpu := fun (_ _ : string) (_ : gmap string Z) => @None ProgramCache.Error in
  let D1 : gmap string Z := {[ "LIGHT_COUNT"%string := 1%Z ]} in
  let D2 : gmap string Z := {[ "LIGHT_COUNT"%string := 2%Z ]} in
  let c1 := snd (ProgramCache.getOrCompile gpu "vs" "fs" D1 ProgramCache.empty) in
  let c2 := snd (ProgramCache.getOrCompile gpu "vs" "fs" D2 c1) in
  fst (ProgramCache.getOrCompile gpu "vs" "fs" D1 ProgramCache.empty) = inr 0%nat
  /\ fst (ProgramCache.getOrCompile gpu "vs" "fs" D2 c1) = inr 1%nat
  /\ (D1 <> D2 -> 0%nat <> 1%nat)
  /\ fst (ProgramCache.getOrCompile gpu "vs" "fs" D1 c2) = inr 0%nat
  /\ (D1 = D1 ->
      0%nat = 0%nat /\ c2 = c2
      /\ ProgramCache.compilations c2 = ProgramCache.compilations c2).
Proof.
  cbv zeta.
  set (gpu := fun (_ _ : string) (_ : gmap string Z) => @None ProgramCache.Error).
  set (D1 := ({[ "LIGHT_COUNT"%string := 1%Z ]} : gmap string Z)).
  set (D2 := ({[ "LIGHT_COUNT"%string := 2%Z ]} : gmap string Z)).
  set (c1 := snd (ProgramCache.getOrCompile gpu "vs" "fs" D1 ProgramCache.empty)).
  set (c2 := snd (ProgramCache.getOrCompile gpu "vs" "fs" D2 c1)).
  assert (E1 : ProgramCache.getOrCompile gpu "vs" "fs" D1 ProgramCache.empty = (inr 0%nat, c1))
    by (vm_compute; reflexivity).
  assert (E2 : ProgramCache.getOrCompile gpu "vs" "fs" D2 c1 = (inr 1%nat, c2))
    by (vm_compute; reflexivity).
  assert (E3 : ProgramCache.getOrCompile gpu "vs" "fs" D1 c2 = (inr 0%nat, c2))
    by (vm_compute; reflexivity).
  split; [now rewrite E1|]. split; [now rewrite E2|]. split.
  - exact (proj1 (getOrCompile_distinct_or_cached gpu "vs" "fs" D1 D2
                    ProgramCache.empty c1 c1 c2 0%nat 1%nat
                    (ProgramCache.reachable_empty gpu) E1
                    (ProgramCache.later_refl gpu c1) E2)).
  - split; [now rewrite E3|].
    exact (proj2 (getOrCompile_distinct_or_cached gpu "vs" "fs" D1 D1
                    ProgramCache.empty c1 c2 c2 0%nat 0%nat
                    (ProgramCache.reachable_empty gpu) E1
                    (ProgramCache.later_call gpu c1 "vs" "fs" D2 c1
                       (ProgramCache.later_refl gpu c1)) E3)).
Defined.

(** ** Real powers *)

Section RealPowers.

Lemma exp_le (x y : R) : x <= y -> exp x <= exp y.
Proof.
  intros [H| ->]; [left; now apply exp_increasing|right; reflexivity].
Qed.

(** [exp u <= 1 / (1 - u)] below [1]. *)
Lemma exp_upper (u : R) : 0 <= u < 1 -> exp u <= / (1 - u).
Proof.
  intros [H0 H1].
  pose proof (exp_ineq1_le (- u)) as Hl.
  rewrite exp_Ropp in Hl.
  pose proof (exp_pos u) as Hp.
  rewrite <- (Rinv_inv (exp u)).
  apply Rinv_le_contravar; lra.
Qed.

Lemma exp_mult_nat (n : nat) (x : R) : exp (INR n * x) = exp x ^ n.
Proof.
  induction n as [|n IH].
  - simpl. rewrite Rmult_0_l. apply exp_0.
  - rewrite S_INR, Rmult_plus_distr_r, Rmult_1_l, exp_plus, IH. simpl. ring.
Qed.

Lemma exp_3_lower : 11.39 <= exp 3.
Proof.
  replace 3 with (INR 6 * (1/2)) by (simpl; lra).
  rewrite exp_mult_nat.
  pose proof (exp_ineq1_le (1/2)) as H.
  apply Rle_trans with ((3/2) ^ 6); [lra|].
  apply pow_incr. lra.
Qed.

Lemma exp_6_lower : 320 <= exp 6.
Proof.
  replace 6 with (INR 96 * (1/16))
    by (rewrite INR_IZR_INZ; change (Z.of_nat 96) with 96%Z; lra).
  rewrite exp_mult_nat.
  pose proof (exp_ineq1_le (1/16)) as H.
  apply Rle_trans with ((17/16) ^ 96); [lra|].
  apply pow_incr. lra.
Qed.

Lemma ln_le (x y : R) : 0 < x -> x <= y -> ln x <= ln y.
Proof.
  intros Hx [H| ->]; [left; now apply ln_increasing|right; reflexivity].
Qed.

Lemma ln_nonpos (x : R) : 0 < x <= 1 -> ln x <= 0.
Proof. intros [H0 H1]. rewrite <- ln_1. now apply ln_le. Qed.

Lemma ln_lower_3 (s : R) : 0.09 <= s -> -3 <= ln s.
Proof.
  intros Hs. pose proof exp_3_lower as H3. pose proof (exp_pos 3) as Hp.
  assert (He : exp (Ropp 3) <= 0.09).
  { rewrite exp_Ropp.
    apply Rle_trans with (/ 11.39); [apply Rinv_le_contravar; lra|lra]. }
  apply Rle_trans with (ln (exp (Ropp 3))); [rewrite ln_exp; lra|].
  apply ln_le; [apply exp_pos|lra].
Qed.

Lemma ln_lower_6 (x : R) : 0.0031308 <= x -> -6 <= ln x.
Proof.
  intros Hx. pose proof exp_6_lower as H6. pose proof (exp_pos 6) as Hp.
  assert (He : exp (Ropp 6) <= x).
  { rewrite exp_Ropp.
    apply Rle_trans with (/ 320); [apply Rinv_le_contravar; lra|lra]. }
  apply Rle_trans with (ln (exp (Ropp 6))); [rewrite ln_exp; lra|].
  apply ln_le; [apply exp_pos|lra].
Qed.

Lemma Rpower_pos (x y : R) : 0 < Rpower x y.
Proof. apply exp_pos. Qed.

Lemma Rpower_base_1 (y : R) : Rpower 1 y = 1.
Proof. unfold Rpower. rewrite ln_1, Rmult_0_r. apply exp_0. Qed.

Lemma Rpower_le_1 (x y : R) : 0 < x <= 1 -> 0 <= y -> Rpower x y <= 1.
Proof.
  intros Hx Hy. rewrite <- (Rpower_base_1 y). now apply Rle_Rpower_l.
Qed.

(** Below [1], a larger exponent gives a smaller power. *)
Lemma Rpower_exponent_antitone (x a b : R) :
  0 < x <= 1 -> a <= b -> Rpower x b <= Rpower x a.
Proof.
  intros Hx Hab. unfold Rpower. apply exp_le.
  pose proof (ln_nonpos x Hx). nra.
Qed.

(** An exponent just below [1] barely moves a number of [(0,1]]. *)
Lemma near_identity_power (x eps M : R) :
  0 < x <= 1 -> - M <= ln x -> 0 <= eps -> eps * M < 1 ->
  x <= Rpower x (1 - eps) <= x / (1 - eps * M).
Proof.
  intros Hx HM He HeM.
  pose proof (ln_nonpos x Hx) as Hln.
  assert (E : Rpower x (1 - eps) = x * exp (- eps * ln x)).
  { unfold Rpower.
    replace ((1 - eps) * ln x) with (ln x + - eps * ln x) by ring.
    rewrite exp_plus, exp_ln by lra. reflexivity. }
  assert (Hu : 0 <= - eps * ln x <= eps * M) by nra.
  pose proof (exp_ineq1_le (- eps * ln x)) as Hlo.
  assert (Hhi : exp (- eps * ln x) <= / (1 - eps * M)).
  { apply Rle_trans with (exp (eps * M)); [apply exp_le; lra|].
    apply exp_upper. lra. }
  rewrite E. unfold Rdiv. split; nra.
Qed.

Lemma pow_lt_mono (n : nat) (a b : R) :
  0 <= a < b -> (0 < n)%nat -> a ^ n < b ^ n.
Proof.
  intros Hab Hn. destruct n as [|n]; [lia|clear Hn].
  induction n as [|n IH]; [simpl; lra|].
  change (a * a ^ S n < b * b ^ S n).
  pose proof (pow_le a (S n) (proj1 Hab)). nra.
Qed.

(** Comparing two non-negative numbers through a power. *)
Lemma pow_le_inv (n : nat) (a b : R) :
  (0 < n)%nat -> 0 <= a -> 0 <= b -> a ^ n <= b ^ n -> a <= b.
Proof.
  intros Hn Ha Hb Hle. destruct (Rle_lt_dec a b) as [H|H]; [exact H|].
  pose proof (pow_lt_mono n b a (conj Hb H) Hn). lra.
Qed.

(** The exponents [2.4 = 12/5] and [5/12] through integer powers. *)
Lemma Rpower_12_5 (t : R) : 0 < t -> Rpower t 2.4 ^ 5 = t ^ 12.
Proof.
  intros Ht.
  rewrite <- (Rpower_pow 5) by apply Rpower_pos.
  rewrite Rpower_mult.
  replace (2.4 * INR 5) with (INR 12) by (simpl; lra).
  now apply Rpower_pow.
Qed.

Lemma Rpower_5_12 (y : R) : 0 < y -> Rpower y (5/12) ^ 12 = y ^ 5.
Proof.
  intros Hy.
  rewrite <- (Rpower_pow 12) by apply Rpower_pos.
  rewrite Rpower_mult.
  replace (5 / 12 * INR 12) with (INR 5) by (simpl; lra).
  now apply Rpower_pow.
Qed.

(** The exponent [0.41666] of the shader against the exact [5/12]. *)
Lemma encode_power_bounds (y : R) :
  0.0031308 <= y <= 1 ->
  Rpower y (5/12) <= Rpower y 0.41666 <= Rpower y (5/12) / (1 - 0.00004).
Proof.
  intros Hy.
  assert (Hy' : 0 < y <= 1) by lra.
  pose proof (ln_nonpos y Hy') as Hln.
  pose proof (ln_lower_6 y (proj1 Hy)) as H6.
  pose proof (Rpower_pos y (5/12)) as Hw.
  assert (E : Rpower y 0.41666 = Rpower y (5/12) * exp (- (1/150000) * ln y)).
  { unfold Rpower. rewrite <- exp_plus. f_equal. lra. }
  assert (Hu : 0 <= - (1/150000) * ln y <= 0.00004) by lra.
  pose proof (exp_ineq1_le (- (1/150000) * ln y)) as Hlo.
  assert (Hhi : exp (- (1/150000) * ln y) <= / (1 - 0.00004)).
  { apply Rle_trans with (exp 0.00004); [apply exp_le; lra|].
    apply exp_upper. lra. }
  rewrite E. unfold Rdiv. split; nra.
Qed.

End RealPowers.

(** ** The colour transfer functions *)

Section Transfer.
Import Colour.

Lemma mix_true (x y : R) : mix x y (float_of_bool true) = y.
Proof. unfold mix; simpl. ring. Qed.

Lemma mix_false (x y : R) : mix x y (float_of_bool false) = x.
Proof. unfold mix; simpl. ring. Qed.

Lemma sRGBToLinear1_low (c : R) :
  c <= 0.04045 -> sRGBToLinear1 c = c * 0.0773993808.
Proof.
  intros H. unfold sRGBToLinear1, lessThanEqual.
  destruct (Rle_dec c 0.04045); [apply mix_true|contradiction].
Qed.

Lemma sRGBToLinear1_high (c : R) :
  0.04045 < c ->
  sRGBToLinear1 c = Rpower (c * 0.9478672986 + 0.0521327014) 2.4.
Proof.
  intros H. unfold sRGBToLinear1, lessThanEqual.
  destruct (Rle_dec c 0.04045); [lra|].
  rewrite mix_false. apply pow_pos_base. lra.
Qed.

Lemma LinearTosRGB1_low (c : R) :
  c <= 0.0031308 -> LinearTosRGB1 c = c * 12.92.
Proof.
  intros H. unfold LinearTosRGB1, lessThanEqual.
  destruct (Rle_dec c 0.0031308); [apply mix_true|contradiction].
Qed.

Lemma LinearTosRGB1_high (c : R) :
  0.0031308 < c -> LinearTosRGB1 c = Rpower c 0.41666 * 1.055 - 0.055.
Proof.
  intros H. unfold LinearTosRGB1, lessThanEqual.
  destruct (Rle_dec c 0.0031308); [lra|].
  rewrite mix_false. rewrite pow_pos_base by lra. reflexivity.
Qed.

(** The twelfth root of a fifth power, between two decimals. *)
Lemma root_bounds (y lo hi : R) :
  0 < y -> 0 <= lo -> 0 <= hi ->
  lo ^ 12 <= y ^ 5 -> y ^ 5 <= hi ^ 12 ->
  lo <= Rpower y (5/12) <= hi.
Proof.
  intros Hy Hlo Hhi H1 H2.
  pose proof (Rpower_pos y (5/12)) as Hw.
  rewrite <- (Rpower_5_12 y Hy) in H1, H2.
  split; apply (pow_le_inv 12); try lia; lra.
Qed.

(** The power [2.4] of a number of [(0,1]] moved down by at most one part
    in [10^9]. *)
Lemma Rpower_2_4_near (t z : R) :
  0 < z -> z * (1 - 0.000000001) <= t <= z ->
  Rpower z 2.4 * (1 - 0.000000001) ^ 3 <= Rpower t 2.4 <= Rpower z 2.4.
Proof.
  intros Hz Ht. split.
  - apply Rle_trans with (Rpower (z * (1 - 0.000000001)) 2.4).
    + rewrite <- Rpower_mult_distr by lra.
      apply Rmult_le_compat_l; [left; apply Rpower_pos|].
      rewrite <- (Rpower_pow 3) by lra.
      apply Rpower_exponent_antitone; [lra|simpl; lra].
    + apply Rle_Rpower_l; nra.
  - apply Rle_Rpower_l; nra.
Qed.

(** Encoding then decoding. *)
Lemma decode_encode (x : R) :
  0 <= x <= 1 -> Rabs (sRGBToLinear1 (LinearTosRGB1 x) - x) <= 0.0001.
Proof.
  intros Hx. apply Rabs_le.
  destruct (Rle_lt_dec x 0.0031308) as [Hlow|Hhigh].
  - rewrite LinearTosRGB1_low by exact Hlow.
    rewrite sRGBToLinear1_low by lra. lra.
  - rewrite LinearTosRGB1_high by exact Hhigh.
    set (z := Rpower x 0.41666).
    assert (Hx5 : 0.0031308 ^ 5 <= x ^ 5 <= 1 ^ 5)
      by (split; apply pow_incr; lra).
    destruct (root_bounds x 0.0904 1) as [Hw1 Hw2]; try lra.
    destruct (encode_power_bounds x) as [Hz1 Hz2]; [lra|]. fold z in Hz1, Hz2.
    assert (Hz : 0.0904 <= z <= 1).
    { split; [lra|]. apply Rpower_le_1; lra. }
    destruct (Rle_lt_dec (z * 1.055 - 0.055) 0.04045) as [Hy|Hy].
    + rewrite sRGBToLinear1_low by exact Hy.
      assert (Hxhi : x <= 0.00314).
      { apply (pow_le_inv 5); try lia; try lra.
        rewrite <- (Rpower_5_12 x) by lra.
        apply Rle_trans with (0.09047394 ^ 12); [|lra].
        apply pow_incr. pose proof (Rpower_pos x (5/12)). lra. }
      lra.
    + rewrite sRGBToLinear1_high by exact Hy.
      set (t := (z * 1.055 - 0.055) * 0.9478672986 + 0.0521327014).
      assert (Ht : z * (1 - 0.000000001) <= t <= z) by (unfold t; lra).
      assert (Hzq : Rpower z 2.4 = Rpower x (1 - 0.000016)).
      { unfold z. rewrite Rpower_mult. f_equal. lra. }
      destruct (near_identity_power x 0.000016 6) as [Hn1 Hn2]; try lra.
      { apply ln_lower_6. lra. }
      rewrite <- Hzq in Hn1, Hn2.
      destruct (Rpower_2_4_near t z) as [Hlo Hup]; [lra|exact Ht|].
      pose proof (Rpower_pos z 2.4). lra.
Qed.

(** Decoding then encoding. *)
Lemma encode_decode (x : R) :
  0 <= x <= 1 -> Rabs (LinearTosRGB1 (sRGBToLinear1 x) - x) <= 0.0001.
Proof.
  intros Hx. apply Rabs_le.
  destruct (Rle_lt_dec x 0.04045) as [Hlow|Hhigh].
  - rewrite sRGBToLinear1_low by exact Hlow.
    remember (x * 0.0773993808) as y eqn:Ey.
    destruct (Rle_lt_dec y 0.0031308) as [Hy|Hy].
    + rewrite LinearTosRGB1_low by exact Hy. lra.
    + rewrite LinearTosRGB1_high by exact Hy.
      assert (Hy5 : 0.0031308 ^ 5 <= y ^ 5 <= 0.0031309 ^ 5)
        by (split; apply pow_incr; lra).
      destruct (root_bounds y 0.0904 0.09048) as [Hw1 Hw2]; try lra.
      destruct (encode_power_bounds y) as [Hz1 Hz2]; [lra|].
      lra.
  - rewrite sRGBToLinear1_high by exact Hhigh.
    remember (x * 0.9478672986 + 0.0521327014) as s eqn:Es.
    assert (Hs : 0.0904739 <= s <= 1) by lra.
    remember (Rpower s 2.4) as y eqn:Ey.
    assert (Hypos : 0 < y) by (subst y; apply Rpower_pos).
    assert (Hy1 : y <= 1) by (subst y; apply Rpower_le_1; lra).
    assert (Hs12 : 0.0904739 ^ 12 <= s ^ 12) by (apply pow_incr; lra).
    assert (Hy5 : y ^ 5 = s ^ 12) by (subst y; apply Rpower_12_5; lra).
    destruct (Rle_lt_dec y 0.0031308) as [Hy|Hy].
    + rewrite LinearTosRGB1_low by exact Hy.
      assert (Hylo : 0.00313 <= y).
      { apply (pow_le_inv 5); try lia; lra. }
      assert (Hshi : s <= 0.09048).
      { apply (pow_le_inv 12); try lia; try lra.
        rewrite <- Hy5. apply Rle_trans with (0.0031308 ^ 5); [|lra].
        apply pow_incr. lra. }
      lra.
    + rewrite LinearTosRGB1_high by exact Hy.
      assert (Hyp : Rpower y 0.41666 = Rpower s (1 - 0.000016)).
      { subst y. rewrite Rpower_mult. f_equal. lra. }
      assert (Hln : - (3) <= ln s) by (apply ln_lower_3; lra).
      destruct (near_identity_power s 0.000016 3) as [Hn1 Hn2]; lra.
Qed.

End Transfer.

(** C7: for every [x] in [[0,1]], decoding the encoding of [x] with the
    shader's [sRGBToLinear] and [LinearTosRGB] gives [x] back within [1e-4],
    and so does encoding the decoding of [x]; the two break points
    [0.0031308] and [0.04045] are among these [x]. *)
Theorem srgb_round_trip (x : R) :
  0 <= x <= 1 ->
  Rabs (Colour.sRGBToLinear1 (Colour.LinearTosRGB1 x) - x) <= 0.0001
  /\ Rabs (Colour.LinearTosRGB1 (Colour.sRGBToLinear1 x) - x) <= 0.0001.
Proof.
  intros Hx. split; [now apply decode_encode|now apply encode_decode].
Qed.

Lemma srgb_round_trip_witness :
  (0 <= 0.04045 <= 1
   /\ Rabs (Colour.sRGBToLinear1 (Colour.LinearTosRGB1 0.04045) - 0.04045) <= 0.0001
   /\ Rabs (Colour.LinearTosRGB1 (Colour.sRGBToLinear1 0.04045) - 0.04045) <= 0.0001)
  /\ (0 <= 0.0031308 <= 1
      /\ Rabs (Colour.sRGBToLinear1 (Colour.LinearTosRGB1 0.0031308) - 0.0031308) <= 0.0001
      /\ Rabs (Colour.LinearTosRGB1 (Colour.sRGBToLinear1 0.0031308) - 0.0031308) <= 0.0001).
Proof.
  assert (H1 : 0 <= 0.04045 <= 1) by lra.
  assert (H2 : 0 <= 0.0031308 <= 1) by lra.
  split.
  - split; [exact H1|]. exact (srgb_round_trip 0.04045 H1).
  - split; [exact H2|]. exact (srgb_round_trip 0.0031308 H2).
Defined.

(** The round trip on whole colours: each channel within [1e-4], the alpha
    channel untouched. *)
Lemma srgb_round_trip_vec4 (value : vec4) :
  0 <= vx (rgb value) <= 1 -> 0 <= vy (rgb value) <= 1 -> 0 <= vz (rgb value) <= 1 ->
  let back := Colour.sRGBToLinear (Colour.LinearTosRGB value) in
  Rabs (vx (rgb back) - vx (rgb value)) <= 0.0001
  /\ Rabs (vy (rgb back) - vy (rgb value)) <= 0.0001
  /\ Rabs (vz (rgb back) - vz (rgb value)) <= 0.0001
  /\ alpha back = alpha value.
Proof.
  intros Hr Hg Hb. cbv zeta. simpl.
  repeat split; try reflexivity; now apply decode_encode.
Qed.

(** ** The radiance of a light *)

(** C2, a defect of the code: [get_light_color] of the IBL fragment shader
    returns [light.color * light.intensity], the colour as it was given,
    where the specification asks for [linearize(light.color) *
    light.intensity].  For a light of positive intensity whose red channel
    lies in [(0, 0.04045]] the radiance of the IBL variant is 12.92 times
    the specified one; [getLightColor] of the base variant, given the same
    colour and intensity, applies the transfer function and stays below a
    twelfth of the radiance of the IBL variant. *)
Theorem ibl_radiance_is_not_linearized (li : IblFrag.LightProperties)
    (lb : BaseFrag.Light) (wsPosition : vec3) :
  0 < vx (IblFrag.color li) <= 0.04045 ->
  0 < IblFrag.intensity li ->
  BaseFrag.color lb = IblFrag.color li ->
  BaseFrag.intensity lb = IblFrag.intensity li ->
  let expected := vscale (Spec.linearize (IblFrag.color li)) (IblFrag.intensity li) in
  IblFrag.get_light_color li wsPosition
  = vscale (IblFrag.color li) (IblFrag.intensity li)
  /\ vx (IblFrag.get_light_color li wsPosition) = 12.92 * vx expected
  /\ IblFrag.get_light_color li wsPosition <> expected
  /\ 12 * vx (BaseFrag.getLightColor lb) < vx (IblFrag.get_light_color li wsPosition).
Proof.
  intros Hc Hi Ecol Eint. cbv zeta.
  assert (Hx : vx (vscale (Spec.linearize (IblFrag.color li)) (IblFrag.intensity li))
               = vx (IblFrag.color li) / 12.92 * IblFrag.intensity li).
  { unfold vscale, Spec.linearize, vmap. cbn [vx]. unfold Spec.linearize1.
    destruct (Rle_dec (vx (IblFrag.color li)) 0.04045) as [_|Hn]; [reflexivity|lra]. }
  assert (Hg : vx (IblFrag.get_light_color li wsPosition)
               = vx (IblFrag.color li) * IblFrag.intensity li) by reflexivity.
  assert (Hpos : 0 < vx (IblFrag.color li) * IblFrag.intensity li)
    by (apply Rmult_lt_0_compat; lra).
  split; [reflexivity|]. split; [|split].
  - rewrite Hx, Hg. decimals. field.
  - intros Heq. apply (f_equal vx) in Heq. rewrite Hx, Hg in Heq.
    replace (vx (IblFrag.color li) / 12.92 * IblFrag.intensity li)
      with (vx (IblFrag.color li) * IblFrag.intensity li / 12.92) in Heq
      by (decimals; field).
    lra.
  - rewrite Hg. unfold BaseFrag.getLightColor, vscale, vmap. cbn [vx rgb].
    unfold Colour.sRGBToLinear, vmap. cbn [rgb vx]. rewrite Ecol, Eint.
    rewrite sRGBToLinear1_low by lra.
    replace (12 * (vx (IblFrag.color li) * 0.0773993808 * IblFrag.intensity li))
      with (0.9287925696 * (vx (IblFrag.color li) * IblFrag.intensity li))
      by (decimals; field).
    lra.
Qed.

Lemma ibl_radiance_is_not_linearized_witness :
  let li := {| IblFrag.type := IblFrag.LIGHT_TYPE_DIRECTIONAL;
               IblFrag.position := vec3s 0; IblFrag.direction := vec3s 1;
               IblFrag.color := vec3s 0.01; IblFrag.intensity := 1 |} in
  let lb := {| BaseFrag.type := BaseFrag.LIGHT_TYPE_DIRECTIONAL;
               BaseFrag.position := vec3s 1;
               BaseFrag.color := vec3s 0.01; BaseFrag.intensity := 1 |} in
  let expected := vscale (Spec.linearize (IblFrag.color li)) (IblFrag.intensity li) in
  IblFrag.get_light_color li (vec3s 0)
  = vscale (IblFrag.color li) (IblFrag.intensity li)
  /\ vx (IblFrag.get_light_color li (vec3s 0)) = 12.92 * vx expected
  /\ IblFrag.get_light_color li (vec3s 0) <> expected
  /\ 12 * vx (BaseFrag.getLightColor lb) < vx (IblFrag.get_light_color li (vec3s 0)).
Proof.
  cbv zeta.
  apply (ibl_radiance_is_not_linearized
           {| IblFrag.type := IblFrag.LIGHT_TYPE_DIRECTIONAL;
              IblFrag.position := vec3s 0; IblFrag.direction := vec3s 1;
              IblFrag.color := vec3s 0.01; IblFrag.intensity := 1 |}
           {| BaseFrag.type := BaseFrag.LIGHT_TYPE_DIRECTIONAL;
              BaseFrag.position := vec3s 1;
              BaseFrag.color := vec3s 0.01; BaseFrag.intensity := 1 |}
           (vec3s 0)).
  - simpl. lra.
  - simpl. lra.
  - reflexivity.
  - reflexivity.
Defined.

(** ** Ranges of the three terms of the BRDF *)

Lemma dot_unit_le_1 (a b : vec3) : dot a a = 1 -> dot b b = 1 -> dot a b <= 1.
Proof.
  destruct a as [a1 a2 a3], b as [b1 b2 b3]. unfold dot; simpl. intros Ha Hb.
  pose proof (pow2_ge_0 (a1 - b1)). pose proof (pow2_ge_0 (a2 - b2)).
  pose proof (pow2_ge_0 (a3 - b3)). nra.
Qed.

(** The clamped cosine of the angle between two unit vectors. *)
Lemma clamped_cosine_range (a b : vec3) :
  dot a a = 1 -> dot b b = 1 -> 0 <= max (dot a b) 0 <= 1.
Proof.
  intros Ha Hb. pose proof (dot_unit_le_1 a b Ha Hb).
  unfold max. split; [apply Rmax_r|apply Rmax_lub; lra].
Qed.

Lemma pow_unit_range (x y : R) : 0 <= x <= 1 -> 0 <= y -> 0 <= pow x y <= 1.
Proof.
  intros Hx Hy. unfold pow. destruct (Rlt_dec 0 x) as [Hp|Hn]; [|lra].
  split; [left; apply Rpower_pos|apply Rpower_le_1; lra].
Qed.

Lemma pow_one_base (y : R) : pow 1 y = 1.
Proof. rewrite pow_pos_base by lra. apply Rpower_base_1. Qed.

Lemma fresnel_channel_range (f p : R) :
  0 <= f <= 1 -> 0 <= p <= 1 -> f <= f + (1 - f) * p <= 1.
Proof. intros Hf Hp. split; nra. Qed.

(** The Fresnel term: for a cosine in [[0,1]] and a base reflectivity with
    channels in [[0,1]], every channel of [FresnelSchlick] lies between the
    base reflectivity and [1]; it is the base reflectivity at normal
    incidence (cosine [1]) and [1] at grazing incidence (cosine [0]). *)
Theorem FresnelSchlick_range (cosTheta : R) (F0 : vec3) :
  0 <= cosTheta <= 1 ->
  0 <= vx F0 <= 1 -> 0 <= vy F0 <= 1 -> 0 <= vz F0 <= 1 ->
  let F := Brdf.FresnelSchlick cosTheta F0 in
  (vx F0 <= vx F <= 1 /\ vy F0 <= vy F <= 1 /\ vz F0 <= vz F <= 1)
  /\ Brdf.FresnelSchlick 1 F0 = F0
  /\ Brdf.FresnelSchlick 0 F0 = vec3s 1.
Proof.
  intros Hc Hx Hy Hz. cbv zeta.
  assert (Hp : 0 <= pow (1 - cosTheta) 5 <= 1) by (apply pow_unit_range; lra).
  split; [|split].
  - unfold Brdf.FresnelSchlick; simpl.
    repeat split; apply fresnel_channel_range; assumption.
  - unfold Brdf.FresnelSchlick. replace (1 - 1) with 0 by ring.
    rewrite pow_zero_base. apply vec3_eq; simpl; ring.
  - unfold Brdf.FresnelSchlick. replace (1 - 0) with 1 by ring.
    rewrite pow_one_base. apply vec3_eq; simpl; ring.
Qed.

Lemma FresnelSchlick_range_witness :
  let F := Brdf.FresnelSchlick 0.5 (vec3s 0.04) in
  (0.04 <= vx F <= 1 /\ 0.04 <= vy F <= 1 /\ 0.04 <= vz F <= 1)
  /\ Brdf.FresnelSchlick 1 (vec3s 0.04) = vec3s 0.04
  /\ Brdf.FresnelSchlick 0 (vec3s 0.04) = vec3s 1.
Proof.
  cbv zeta. apply (FresnelSchlick_range 0.5 (vec3s 0.04)); simpl; lra.
Defined.

(** The divisor of [GeometrySchlickGGX] is positive for a cosine in
    [[0,1]] and a non-negative roughness, and the quotient lies in [[0,1]]. *)
Lemma GeometrySchlickGGX_range (NdotV roughness : R) :
  0 <= NdotV <= 1 -> 0 <= roughness ->
  let k := (roughness + 1) * (roughness + 1) / 8 in
  0 < NdotV * (1 - k) + k
  /\ 0 <= Brdf.GeometrySchlickGGX NdotV roughness <= 1.
Proof.
  intros Hx Hr. cbv zeta.
  set (k := (roughness + 1) * (roughness + 1) / 8).
  assert (Hk : 1 / 8 <= k) by (unfold k; nra).
  assert (Hd : 0 < NdotV * (1 - k) + k) by nra.
  split; [exact Hd|].
  unfold Brdf.GeometrySchlickGGX. cbv zeta. fold k.
  split.
  - apply Rmult_le_pos; [lra|]. left. now apply Rinv_0_lt_compat.
  - apply (Rmult_le_reg_r (NdotV * (1 - k) + k)); [exact Hd|].
    unfold Rdiv. rewrite Rmult_assoc, Rinv_l by lra. nra.
Qed.

(** The geometry term: for unit [N], [V], [L] and a non-negative roughness
    [GeometrySmith] lies in [[0,1]], and it vanishes when the light or the
    viewer is not above the surface. *)
Theorem GeometrySmith_range (N V L : vec3) (roughness : R) :
  dot N N = 1 -> dot V V = 1 -> dot L L = 1 -> 0 <= roughness ->
  0 <= Brdf.GeometrySmith N V L roughness <= 1
  /\ (dot N L <= 0 \/ dot N V <= 0 -> Brdf.GeometrySmith N V L roughness = 0).
Proof.
  intros HN HV HL Hr.
  pose proof (clamped_cosine_range N V HN HV) as Hnv.
  pose proof (clamped_cosine_range N L HN HL) as Hnl.
  destruct (GeometrySchlickGGX_range _ roughness Hnv Hr) as [_ H1].
  destruct (GeometrySchlickGGX_range _ roughness Hnl Hr) as [_ H2].
  unfold Brdf.GeometrySmith. cbv zeta. split; [split; nra|].
  assert (Hz : Brdf.GeometrySchlickGGX 0 roughness = 0).
  { unfold Brdf.GeometrySchlickGGX. cbv zeta. unfold Rdiv. ring. }
  intros [Hl|Hv].
  - replace (max (dot N L) 0) with 0 by (unfold max; now rewrite Rmax_right).
    rewrite Hz. ring.
  - replace (max (dot N V) 0) with 0 by (unfold max; now rewrite Rmax_right).
    rewrite Hz. ring.
Qed.

Lemma GeometrySmith_range_witness :
  0 <= Brdf.GeometrySmith (Vec3 0 0 1) (Vec3 0 0 1) (Vec3 1 0 0) 0.5 <= 1
  /\ (dot (Vec3 0 0 1) (Vec3 1 0 0) <= 0 \/ dot (Vec3 0 0 1) (Vec3 0 0 1) <= 0 ->
      Brdf.GeometrySmith (Vec3 0 0 1) (Vec3 0 0 1) (Vec3 1 0 0) 0.5 = 0).
Proof.
  apply GeometrySmith_range; unfold dot; simpl; lra.
Defined.

Lemma quotient_bounds (x d lo hi : R) :
  0 < d -> lo * d <= x -> x <= hi * d -> lo <= x / d <= hi.
Proof.
  intros Hd Hlo Hhi. split.
  - apply (Rmult_le_reg_r d); [exact Hd|].
    unfold Rdiv. rewrite Rmult_assoc, Rinv_l by lra. lra.
  - apply (Rmult_le_reg_r d); [exact Hd|].
    unfold Rdiv. rewrite Rmult_assoc, Rinv_l by lra. lra.
Qed.

(** The distribution term: for unit [N] and [H] and a roughness in
    [(0,1]], [DistributionGGX] lies between [roughness²/PI] and
    [1/(PI·roughness²)]; the upper bound is reached when [H = N]. *)
Theorem DistributionGGX_range (N H : vec3) (roughness : R) :
  dot N N = 1 -> dot H H = 1 -> 0 < roughness <= 1 ->
  roughness * roughness / Brdf.PI <= Brdf.DistributionGGX N H roughness
    <= 1 / (Brdf.PI * (roughness * roughness))
  /\ Brdf.DistributionGGX N N roughness = 1 / (Brdf.PI * (roughness * roughness)).
Proof.
  intros HN HH Hr. pose proof PI_lit_pos as Hpi.
  pose proof (clamped_cosine_range N H HN HH) as Hc.
  split.
  - unfold Brdf.DistributionGGX. cbv zeta.
    remember (max (dot N H) 0) as c eqn:Ec.
    remember (roughness * roughness) as a2 eqn:Ea2.
    assert (Ha2 : 0 < a2 <= 1) by (subst a2; nra).
    assert (Hcc : 0 <= c * c <= 1) by nra.
    remember (c * c * (a2 - 1) + 1) as denom eqn:Eden.
    assert (Hden : a2 <= denom <= 1).
    { subst denom. generalize dependent (c * c). intros cc Hcc. nra. }
    assert (Hdd : a2 * a2 <= denom * denom <= 1) by nra.
    apply quotient_bounds;
      [apply Rmult_lt_0_compat; [apply Rmult_lt_0_compat|]; lra| |].
    + replace (a2 / Brdf.PI * (Brdf.PI * denom * denom))
        with (a2 * (denom * denom)) by (field; lra).
      nra.
    + apply (Rmult_le_reg_r a2); [lra|].
      replace (1 / (Brdf.PI * a2) * (Brdf.PI * denom * denom) * a2)
        with (denom * denom) by (field; lra).
      nra.
  - unfold Brdf.DistributionGGX. cbv zeta.
    rewrite HN. unfold max. rewrite Rmax_left by lra.
    field. repeat split; nra.
Qed.

Lemma DistributionGGX_range_witness :
  0.5 * 0.5 / Brdf.PI <= Brdf.DistributionGGX (Vec3 0 0 1) (Vec3 1 0 0) 0.5
    <= 1 / (Brdf.PI * (0.5 * 0.5))
  /\ Brdf.DistributionGGX (Vec3 0 0 1) (Vec3 0 0 1) 0.5 = 1 / (Brdf.PI * (0.5 * 0.5)).
Proof.
  apply DistributionGGX_range; unfold dot; simpl; lra.
Defined.

(** ** Range and monotonicity of the transfer functions *)

Section TransferShape.
Import Colour.

Lemma exp_5_upper : exp 5 <= 243.
Proof.
  replace 5 with (INR 5 * 1) by (simpl; lra).
  rewrite exp_mult_nat. pose proof exp_le_3 as H3. pose proof (exp_pos 1) as Hp.
  apply Rle_trans with (3 ^ 5); [apply pow_incr; lra|lra].
Qed.

Lemma ln_break_upper : ln 0.0031308 <= - (5).
Proof.
  pose proof exp_5_upper as H5. pose proof (exp_pos 5) as Hp.
  rewrite <- (ln_exp (- (5))). apply ln_le; [lra|].
  rewrite exp_Ropp.
  apply Rle_trans with (/ 243); [lra|apply Rinv_le_contravar; lra].
Qed.

(** Just above its break point the encoding is already above the value
    the linear segment reaches at the break point. *)
Lemma encode_above_break (c : R) :
  0.0031308 < c -> 0.0904738730 <= Rpower c 0.41666.
Proof.
  intros Hc.
  apply Rle_trans with (Rpower 0.0031308 0.41666);
    [|apply Rle_Rpower_l; lra].
  destruct (root_bounds 0.0031308 0.0904737 1) as [Hw _]; try lra.
  pose proof ln_break_upper as Hln.
  assert (E : Rpower 0.0031308 0.41666
              = Rpower 0.0031308 (5/12) * exp (- (1/150000) * ln 0.0031308)).
  { unfold Rpower. rewrite <- exp_plus. f_equal. lra. }
  pose proof (exp_ineq1_le (- (1/150000) * ln 0.0031308)) as Hlo.
  rewrite E. nra.
Qed.

(** Just above its break point the decoding is already above the value
    the linear segment reaches at the break point. *)
Lemma decode_above_break (c : R) :
  0.04045 < c -> 0.04045 * 0.0773993808 <= Rpower (c * 0.9478672986 + 0.0521327014) 2.4.
Proof.
  intros Hc.
  set (s0 := 0.04045 * 0.9478672986 + 0.0521327014).
  apply Rle_trans with (Rpower s0 2.4);
    [|apply Rle_Rpower_l; unfold s0; lra].
  pose proof (Rpower_pos s0 2.4) as Hp.
  apply (pow_le_inv 5); try lia; try lra.
  rewrite Rpower_12_5 by (unfold s0; lra). unfold s0. lra.
Qed.

(** Both transfer functions keep a channel of [[0,1]] in [[0,1]]. *)
Theorem transfer_functions_keep_unit_range (c : R) :
  0 <= c <= 1 ->
  0 <= sRGBToLinear1 c <= 1 /\ 0 <= LinearTosRGB1 c <= 1.
Proof.
  intros Hc. split.
  - destruct (Rle_lt_dec c 0.04045) as [Hlow|Hhigh].
    + rewrite sRGBToLinear1_low by exact Hlow. lra.
    + rewrite sRGBToLinear1_high by exact Hhigh.
      split; [left; apply Rpower_pos|apply Rpower_le_1; lra].
  - destruct (Rle_lt_dec c 0.0031308) as [Hlow|Hhigh].
    + rewrite LinearTosRGB1_low by exact Hlow. lra.
    + rewrite LinearTosRGB1_high by exact Hhigh.
      pose proof (encode_above_break c Hhigh).
      pose proof (Rpower_le_1 c 0.41666). lra.
Qed.

Lemma transfer_functions_keep_unit_range_witness :
  0 <= sRGBToLinear1 0.5 <= 1 /\ 0 <= LinearTosRGB1 0.5 <= 1.
Proof. apply transfer_functions_keep_unit_range. lra. Defined.

(** Both transfer functions are non-decreasing on [[0,1]], across their
    break points too. *)
Theorem transfer_functions_monotone (a b : R) :
  0 <= a -> a <= b -> b <= 1 ->
  sRGBToLinear1 a <= sRGBToLinear1 b /\ LinearTosRGB1 a <= LinearTosRGB1 b.
Proof.
  intros Ha Hab Hb. split.
  - destruct (Rle_lt_dec b 0.04045) as [Hbl|Hbh].
    + rewrite !sRGBToLinear1_low by lra. lra.
    + rewrite (sRGBToLinear1_high b) by exact Hbh.
      destruct (Rle_lt_dec a 0.04045) as [Hal|Hah].
      * rewrite sRGBToLinear1_low by exact Hal.
        pose proof (decode_above_break b Hbh). lra.
      * rewrite sRGBToLinear1_high by exact Hah.
        apply Rle_Rpower_l; lra.
  - destruct (Rle_lt_dec b 0.0031308) as [Hbl|Hbh].
    + rewrite !LinearTosRGB1_low by lra. lra.
    + rewrite (LinearTosRGB1_high b) by exact Hbh.
      destruct (Rle_lt_dec a 0.0031308) as [Hal|Hah].
      * rewrite LinearTosRGB1_low by exact Hal.
        pose proof (encode_above_break b Hbh). lra.
      * rewrite LinearTosRGB1_high by exact Hah.
        assert (Rpower a 0.41666 <= Rpower b 0.41666)
          by (apply Rle_Rpower_l; lra).
        lra.
Qed.

Lemma transfer_functions_monotone_witness :
  sRGBToLinear1 0.04 <= sRGBToLinear1 0.05
  /\ LinearTosRGB1 0.003 <= LinearTosRGB1 0.004.
Proof.
  split.
  - apply (transfer_functions_monotone 0.04 0.05); lra.
  - apply (transfer_functions_monotone 0.003 0.004); lra.
Defined.

End TransferShape.

(** ** From the vertex stage to the fragment stage *)

Lemma vlength_sqr (v : vec3) : vlength v * vlength v = dot v v.
Proof. unfold vlength. apply sqrt_sqrt. apply dot_self_nonneg. Qed.

Lemma vlength_pos (v : vec3) : v <> vec3s 0 -> 0 < vlength v.
Proof.
  intros Hv. unfold vlength. apply sqrt_lt_R0.
  destruct (dot_self_nonneg v) as [H|H]; [exact H|].
  elim Hv. now apply dot_self_zero.
Qed.

(** [normalize] gives a unit vector, outside the zero vector. *)
Lemma normalize_unit (v : vec3) : v <> vec3s 0 -> dot (normalize v) (normalize v) = 1.
Proof.
  intros Hv. pose proof (vlength_pos v Hv) as Hl.
  pose proof (vlength_sqr v) as Hs.
  unfold normalize, vdivs, vmap, dot in *; simpl in *.
  set (l := vlength v) in *.
  replace (vx v / l * (vx v / l) + vy v / l * (vy v / l) + vz v / l * (vz v / l))
    with ((vx v * vx v + vy v * vy v + vz v * vz v) / (l * l)) by (field; lra).
  rewrite <- Hs. field. lra.
Qed.

(** A unit vector is its own normalisation. *)
Lemma normalize_of_unit (u : vec3) : dot u u = 1 -> normalize u = u.
Proof.
  intros Hu. unfold normalize, vlength. rewrite Hu, sqrt_1.
  apply vec3_eq; simpl; field.
Qed.

Lemma dot_unit_lt_1 (a b : vec3) : dot a a = 1 -> dot b b = 1 -> a <> b -> dot a b < 1.
Proof.
  intros Ha Hb Hab. destruct (Rlt_le_dec (dot a b) 1) as [H|H]; [exact H|].
  elim Hab. destruct a as [a1 a2 a3], b as [b1 b2 b3].
  unfold dot in *; simpl in *.
  assert (H0 : (a1 - b1) * (a1 - b1) + (a2 - b2) * (a2 - b2) + (a3 - b3) * (a3 - b3) <= 0)
    by nra.
  pose proof (pow2_ge_0 (a1 - b1)). pose proof (pow2_ge_0 (a2 - b2)).
  pose proof (pow2_ge_0 (a3 - b3)).
  assert (a1 - b1 = 0) by nra. assert (a2 - b2 = 0) by nra.
  assert (a3 - b3 = 0) by nra.
  f_equal; lra.
Qed.

Lemma dot_interpolate (w0 w1 w2 : R) (a b c : vec3) :
  dot (interpolate w0 w1 w2 a b c) (interpolate w0 w1 w2 a b c)
  = w0 * w0 * dot a a + w1 * w1 * dot b b + w2 * w2 * dot c c
    + 2 * (w0 * w1) * dot a b + 2 * (w0 * w2) * dot a c + 2 * (w1 * w2) * dot b c.
Proof.
  destruct a, b, c. unfold interpolate, vadd, vzip, sscale, vmap, dot; simpl. ring.
Qed.

(** Between unit vectors the interpolated vector is at most of length
    one, and shorter as soon as two of them with positive weights
    differ. *)
Lemma interpolate_units (w0 w1 w2 : R) (a b c : vec3) :
  0 <= w0 -> 0 <= w1 -> 0 <= w2 -> w0 + w1 + w2 = 1 ->
  dot a a = 1 -> dot b b = 1 -> dot c c = 1 ->
  dot (interpolate w0 w1 w2 a b c) (interpolate w0 w1 w2 a b c) <= 1
  /\ (0 < w0 -> 0 < w1 -> a <> b ->
      dot (interpolate w0 w1 w2 a b c) (interpolate w0 w1 w2 a b c) < 1).
Proof.
  intros H0 H1 H2 Hs Ha Hb Hc.
  pose proof (dot_unit_le_1 a b Ha Hb) as Hab.
  pose proof (dot_unit_le_1 a c Ha Hc) as Hac.
  pose proof (dot_unit_le_1 b c Hb Hc) as Hbc.
  rewrite dot_interpolate, Ha, Hb, Hc.
  assert (Hsq : (w0 + w1 + w2) * (w0 + w1 + w2) = 1) by (rewrite Hs; ring).
  assert (P01 : 0 <= w0 * w1 * (1 - dot a b))
    by (apply Rmult_le_pos; [apply Rmult_le_pos; assumption|lra]).
  assert (P02 : 0 <= w0 * w2 * (1 - dot a c))
    by (apply Rmult_le_pos; [apply Rmult_le_pos; assumption|lra]).
  assert (P12 : 0 <= w1 * w2 * (1 - dot b c))
    by (apply Rmult_le_pos; [apply Rmult_le_pos; assumption|lra]).
  split; [nra|].
  intros Q0 Q1 Hne. pose proof (dot_unit_lt_1 a b Ha Hb Hne) as Hlt.
  assert (S01 : 0 < w0 * w1 * (1 - dot a b))
    by (apply Rmult_lt_0_compat; [apply Rmult_lt_0_compat; assumption|lra]).
  nra.
Qed.

(** In the IBL variant the vertex stage writes a unit normal and a unit
    view direction at each vertex, but what reaches a fragment is
    interpolated between the three vertices of its triangle: a normal and
    a view direction of length at most one, shorter than one as soon as
    two vertices with positive weights differ in their normalised normal.
    The [normalize] of the fragment stage is what makes [N] and [V] unit
    vectors, whenever the interpolated vector is not zero; at a vertex
    itself the input is the normalised normal of that vertex. *)
Theorem ibl_interpolated_normal_is_renormalized (uSphere : IblFrag.SphereProperties)
    (uCamera : IblVert.Camera) (p0 p1 p2 n0 n1 n2 : vec3) (w0 w1 w2 : R) :
  0 <= w0 -> 0 <= w1 -> 0 <= w2 -> w0 + w1 + w2 = 1 ->
  n0 <> vec3s 0 -> n1 <> vec3s 0 -> n2 <> vec3s 0 ->
  let v0 := IblVert.main uSphere uCamera p0 n0 in
  let v1 := IblVert.main uSphere uCamera p1 n1 in
  let v2 := IblVert.main uSphere uCamera p2 n2 in
  IblVert.cam_position uCamera <> IblVert.vWsPosition v0 ->
  IblVert.cam_position uCamera <> IblVert.vWsPosition v1 ->
  IblVert.cam_position uCamera <> IblVert.vWsPosition v2 ->
  let inp := ibl_fragment_inputs w0 w1 w2 v0 v1 v2 in
  dot (IblFrag.vWsNormal inp) (IblFrag.vWsNormal inp) <= 1
  /\ (0 < w0 -> 0 < w1 -> normalize n0 <> normalize n1 ->
      dot (IblFrag.vWsNormal inp) (IblFrag.vWsNormal inp) < 1)
  /\ dot (IblFrag.vWsViewDir inp) (IblFrag.vWsViewDir inp) <= 1
  /\ (IblFrag.vWsNormal inp <> vec3s 0 ->
      dot (normalize (IblFrag.vWsNormal inp)) (normalize (IblFrag.vWsNormal inp)) = 1)
  /\ (IblFrag.vWsViewDir inp <> vec3s 0 ->
      dot (normalize (IblFrag.vWsViewDir inp)) (normalize (IblFrag.vWsViewDir inp)) = 1)
  /\ IblFrag.vWsNormal (ibl_fragment_inputs 1 0 0 v0 v1 v2) = normalize n0.
Proof.
  intros H0 H1 H2 Hs Hn0 Hn1 Hn2 v0 v1 v2 Hc0 Hc1 Hc2 inp.
  assert (Hsub : forall c p : vec3, c <> p -> vsub c p <> vec3s 0).
  { intros c p Hcp E. apply Hcp. destruct c, p.
    unfold vsub, vzip, vec3s in E. simpl in E. injection E as E1 E2 E3.
    f_equal; lra. }
  pose proof (normalize_unit n0 Hn0) as U0.
  pose proof (normalize_unit n1 Hn1) as U1.
  pose proof (normalize_unit n2 Hn2) as U2.
  pose proof (normalize_unit _ (Hsub _ _ Hc0)) as W0.
  pose proof (normalize_unit _ (Hsub _ _ Hc1)) as W1.
  pose proof (normalize_unit _ (Hsub _ _ Hc2)) as W2.
  destruct (interpolate_units w0 w1 w2 _ _ _ H0 H1 H2 Hs U0 U1 U2) as [Nle Nlt].
  destruct (interpolate_units w0 w1 w2 _ _ _ H0 H1 H2 Hs W0 W1 W2) as [Vle _].
  split; [exact Nle|]. split; [exact Nlt|]. split; [exact Vle|].
  split; [apply normalize_unit|]. split; [apply normalize_unit|].
  unfold ibl_fragment_inputs, interpolate. cbn [IblFrag.vWsNormal].
  apply vec3_eq; simpl; ring.
Qed.

Lemma ibl_interpolated_normal_is_renormalized_witness :
  let uSphere := {| IblFrag.modelMatrix := mat4_create;
                    IblFrag.material := {| IblFrag.albedo := vec3s 1;
                                           IblFrag.metallic := 0;
                                           IblFrag.roughness := 1 |} |} in
  let uCamera := {| IblVert.WsToCs := mat4_create;
                    IblVert.cam_position := Vec3 0 0 10 |} in
  let v0 := IblVert.main uSphere uCamera (Vec3 0 0 1) (Vec3 0 0 2) in
  let v1 := IblVert.main uSphere uCamera (Vec3 1 0 0) (Vec3 2 0 0) in
  let v2 := IblVert.main uSphere uCamera (Vec3 0 1 0) (Vec3 0 2 0) in
  let inp := ibl_fragment_inputs (1 / 2) (1 / 2) 0 v0 v1 v2 in
  dot (IblFrag.vWsNormal inp) (IblFrag.vWsNormal inp) <= 1
  /\ (0 < 1 / 2 -> 0 < 1 / 2 -> normalize (Vec3 0 0 2) <> normalize (Vec3 2 0 0) ->
      dot (IblFrag.vWsNormal inp) (IblFrag.vWsNormal inp) < 1)
  /\ dot (IblFrag.vWsViewDir inp) (IblFrag.vWsViewDir inp) <= 1
  /\ (IblFrag.vWsNormal inp <> vec3s 0 ->
      dot (normalize (IblFrag.vWsNormal inp)) (normalize (IblFrag.vWsNormal inp)) = 1)
  /\ (IblFrag.vWsViewDir inp <> vec3s 0 ->
      dot (normalize (IblFrag.vWsViewDir inp)) (normalize (IblFrag.vWsViewDir inp)) = 1)
  /\ IblFrag.vWsNormal (ibl_fragment_inputs 1 0 0 v0 v1 v2) = normalize (Vec3 0 0 2).
Proof.
  cbv zeta.
  apply (ibl_interpolated_normal_is_renormalized
           {| IblFrag.modelMatrix := mat4_create;
              IblFrag.material := {| IblFrag.albedo := vec3s 1;
                                     IblFrag.metallic := 0;
                                     IblFrag.roughness := 1 |} |}
           {| IblVert.WsToCs := mat4_create;
              IblVert.cam_position := Vec3 0 0 10 |}
           (Vec3 0 0 1) (Vec3 1 0 0) (Vec3 0 1 0)
           (Vec3 0 0 2) (Vec3 2 0 0) (Vec3 0 2 0) (1 / 2) (1 / 2) 0).
  - lra.
  - lra.
  - lra.
  - lra.
  - intros H. apply (f_equal vz) in H. simpl in H. lra.
  - intros H. apply (f_equal vx) in H. simpl in H. lra.
  - intros H. apply (f_equal vy) in H. simpl in H. lra.
  - intros H. apply (f_equal vz) in H. simpl in H.
    unfold dot4, vec4_of in H. simpl in H. lra.
  - intros H. apply (f_equal vz) in H. simpl in H.
    unfold dot4, vec4_of in H. simpl in H. lra.
  - intros H. apply (f_equal vz) in H. simpl in H.
    unfold dot4, vec4_of in H. simpl in H. lra.
Defined.

(** In the base variant the direction to a point light does not depend on
    where the sphere is: the vertex stage adds [uAttributes.position] to the
    vertex and the fragment stage adds it to the light, so the direction is
    [normalize(light.position - in_position)]. *)
Theorem base_point_light_follows_sphere (uCamera : BaseVert.Camera)
    (vertAttributes : BaseVert.Attributes) (uAttributes : BaseFrag.Attributes)
    (in_position in_normal : vec3) (light : BaseFrag.Light) :
  BaseFrag.attr_position uAttributes = BaseVert.attr_position vertAttributes ->
  BaseFrag.type light <> BaseFrag.LIGHT_TYPE_DIRECTIONAL ->
  let inp := base_fragment_inputs
               (BaseVert.main uCamera vertAttributes in_position in_normal) in
  BaseFrag.getLightDirection uAttributes (BaseFrag.vWsPosition inp) light
  = normalize (vsub (BaseFrag.position light) in_position).
Proof.
  intros Hpos Hty. cbv zeta. unfold BaseFrag.getLightDirection.
  destruct (Z.eqb_spec (BaseFrag.type light) BaseFrag.LIGHT_TYPE_DIRECTIONAL);
    [contradiction|].
  cbv zeta. f_equal. rewrite Hpos. apply vec3_eq; simpl; ring.
Qed.

Lemma base_point_light_follows_sphere_witness :
  let cam := {| BaseVert.WsToCs := mat4_create; BaseVert.cam_position := Vec3 0 0 2 |} in
  let av := {| BaseVert.attr_position := Vec3 5 7 0; BaseVert.albedo := vec3s 1;
               BaseVert.metallic := 0; BaseVert.roughness := 1 |} in
  let af := {| BaseFrag.attr_position := Vec3 5 7 0; BaseFrag.albedo := vec3s 1;
               BaseFrag.metallic := 0; BaseFrag.roughness := 1 |} in
  let light := {| BaseFrag.type := BaseFrag.LIGHT_TYPE_POINT;
                  BaseFrag.position := Vec3 3 3 3;
                  BaseFrag.color := vec3s 1; BaseFrag.intensity := 1 |} in
  let inp := base_fragment_inputs (BaseVert.main cam av (Vec3 0 0 1) (Vec3 0 0 1)) in
  BaseFrag.getLightDirection af (BaseFrag.vWsPosition inp) light
  = normalize (vsub (Vec3 3 3 3) (Vec3 0 0 1)).
Proof.
  cbv zeta.
  apply (base_point_light_follows_sphere
           {| BaseVert.WsToCs := mat4_create; BaseVert.cam_position := Vec3 0 0 2 |}
           {| BaseVert.attr_position := Vec3 5 7 0; BaseVert.albedo := vec3s 1;
              BaseVert.metallic := 0; BaseVert.roughness := 1 |}
           {| BaseFrag.attr_position := Vec3 5 7 0; BaseFrag.albedo := vec3s 1;
              BaseFrag.metallic := 0; BaseFrag.roughness := 1 |}
           (Vec3 0 0 1) (Vec3 0 0 1));
    [reflexivity|simpl; discriminate].
Defined.

(** ** The light loop as a sum *)

Lemma vadd_comm (a b : vec3) : vadd a b = vadd b a.
Proof. apply vec3_eq; simpl; ring. Qed.

Lemma vadd_assoc (a b c : vec3) : vadd a (vadd b c) = vadd (vadd a b) c.
Proof. apply vec3_eq; simpl; ring. Qed.

Lemma vadd_zero_l (a : vec3) : vadd (vec3s 0) a = a.
Proof. apply vec3_eq; simpl; ring. Qed.

Lemma vadd_zero_r (a : vec3) : vadd a (vec3s 0) = a.
Proof. apply vec3_eq; simpl; ring. Qed.

(** The sum of the terms [f light] over a list of lights. *)
Lemma for_loop_sum {A : Type} (f : A -> vec3) (d : A) (l : list A) :
  forall (pre : list A) (acc : vec3) (reads : list nat),
  fst (for_loop (List.length l) (List.length pre)
         (fun i '(x, r) => (vadd x (f (nth i (pre ++ l) d)), r ++ [i]))
         (acc, reads))
  = vadd acc (foldr (fun a x => vadd (f a) x) (vec3s 0) l).
Proof.
  induction l as [|a l IH]; intros pre acc reads; simpl.
  - now rewrite vadd_zero_r.
  - rewrite app_nth2, Nat.sub_diag by lia. simpl.
    replace (pre ++ a :: l) with ((pre ++ [a]) ++ l) by now rewrite <- app_assoc.
    replace (S (List.length pre)) with (List.length (pre ++ [a]))
      by (rewrite length_app; simpl; lia).
    rewrite IH. now rewrite vadd_assoc.
Qed.

Lemma sum_terms_permutation {A : Type} (f : A -> vec3) (l l' : list A) :
  l ≡ₚ l' ->
  foldr (fun a x => vadd (f a) x) (vec3s 0) l
  = foldr (fun a x => vadd (f a) x) (vec3s 0) l'.
Proof.
  induction 1 as [|x l l' _ IH|x y l|l1 l2 l3 _ IH1 _ IH2]; simpl.
  - reflexivity.
  - now rewrite IH.
  - rewrite !vadd_assoc. f_equal. apply vadd_comm.
  - now rewrite IH1.
Qed.

(** When [uLights] holds exactly [LIGHT_COUNT] lights, the irradiance that
    the light loop accumulates is the sum of the terms of the lights, in
    both fragment shaders; hence it does not depend on the order of the
    lights in [uLights]. *)
Theorem light_loop_sums_the_lights
    (d : BaseFrag.Defines) (a : BaseFrag.Attributes) (inp : BaseFrag.Inputs)
    (ls ls' : list BaseFrag.Light)
    (d2 : IblFrag.Defines) (uSphere : IblFrag.SphereProperties)
    (inp2 : IblFrag.Inputs) (ms ms' : list IblFrag.LightProperties) :
  List.length ls = BaseFrag.LIGHT_COUNT d -> ls ≡ₚ ls' ->
  List.length ms = IblFrag.LIGHT_COUNT d2 -> ms ≡ₚ ms' ->
  let N := BaseFrag.surface_normal inp in
  let V := normalize (vsub (BaseFrag.vWsViewPosition inp) (BaseFrag.vWsPosition inp)) in
  let albedo := rgb (Colour.sRGBToLinear (Vec4 (BaseFrag.albedo a) 1)) in
  let F0 := vmix (vec3s 0.04) albedo (BaseFrag.metallic a) in
  let N2 := normalize (IblFrag.vWsNormal inp2) in
  let V2 := normalize (IblFrag.vWsViewDir inp2) in
  let m := IblFrag.material uSphere in
  let albedo2 := rgb (Colour.sRGBToLinear (Vec4 (IblFrag.albedo m) 1)) in
  let f0 := vmix (vec3s 0.04) albedo2 (IblFrag.metallic m) in
  fst (BaseFrag.light_loop d a ls inp)
  = foldr (fun light sum => vadd (BaseFrag.light_term a inp N V albedo F0 light) sum)
      (vec3s 0) ls
  /\ fst (BaseFrag.light_loop d a ls inp) = fst (BaseFrag.light_loop d a ls' inp)
  /\ fst (IblFrag.light_loop d2 uSphere ms inp2)
     = foldr (fun light sum => vadd (IblFrag.light_term m inp2 N2 V2 albedo2 f0 light) sum)
         (vec3s 0) ms
  /\ fst (IblFrag.light_loop d2 uSphere ms inp2)
     = fst (IblFrag.light_loop d2 uSphere ms' inp2).
Proof.
  intros Hl Hp Hm Hq. cbv zeta.
  assert (Hl' : List.length ls' = BaseFrag.LIGHT_COUNT d)
    by (rewrite <- Hl; symmetry; now apply Permutation_length).
  assert (Hm' : List.length ms' = IblFrag.LIGHT_COUNT d2)
    by (rewrite <- Hm; symmetry; now apply Permutation_length).
  assert (Hb : forall l, List.length l = BaseFrag.LIGHT_COUNT d ->
            fst (BaseFrag.light_loop d a l inp)
            = foldr (fun light sum =>
                       vadd (BaseFrag.light_term a inp (BaseFrag.surface_normal inp)
                               (normalize (vsub (BaseFrag.vWsViewPosition inp)
                                                (BaseFrag.vWsPosition inp)))
                               (rgb (Colour.sRGBToLinear (Vec4 (BaseFrag.albedo a) 1)))
                               (vmix (vec3s 0.04)
                                  (rgb (Colour.sRGBToLinear (Vec4 (BaseFrag.albedo a) 1)))
                                  (BaseFrag.metallic a)) light) sum)
                (vec3s 0) l).
  { intros l E. unfold BaseFrag.light_loop. cbv zeta. rewrite <- E.
    rewrite (for_loop_sum _ BaseFrag.Light0 l []). apply vadd_zero_l. }
  assert (Hi : forall l, List.length l = IblFrag.LIGHT_COUNT d2 ->
            fst (IblFrag.light_loop d2 uSphere l inp2)
            = foldr (fun light sum =>
                       vadd (IblFrag.light_term (IblFrag.material uSphere) inp2
                               (normalize (IblFrag.vWsNormal inp2))
                               (normalize (IblFrag.vWsViewDir inp2))
                               (rgb (Colour.sRGBToLinear
                                       (Vec4 (IblFrag.albedo (IblFrag.material uSphere)) 1)))
                               (vmix (vec3s 0.04)
                                  (rgb (Colour.sRGBToLinear
                                          (Vec4 (IblFrag.albedo (IblFrag.material uSphere)) 1)))
                                  (IblFrag.metallic (IblFrag.material uSphere))) light) sum)
                (vec3s 0) l).
  { intros l E. unfold IblFrag.light_loop. cbv zeta. rewrite <- E.
    rewrite (for_loop_sum _ IblFrag.Light0 l []). apply vadd_zero_l. }
  split; [now apply Hb|]. split.
  - rewrite (Hb ls Hl), (Hb ls' Hl'). now apply sum_terms_permutation.
  - split; [now apply Hi|].
    rewrite (Hi ms Hm), (Hi ms' Hm'). now apply sum_terms_permutation.
Qed.

Lemma light_loop_sums_the_lights_witness :
  let d := {| BaseFrag.DIRECTIONAL_LIGHT_COUNT := 1; BaseFrag.POINT_LIGHT_COUNT := 1 |} in
  let a := {| BaseFrag.attr_position := vec3s 0; BaseFrag.albedo := vec3s 1;
              BaseFrag.metallic := 0; BaseFrag.roughness := 1 |} in
  let inp := {| BaseFrag.vWsPosition := vec3s 0; BaseFrag.vWsNormal := Vec3 0 0 1;
                BaseFrag.vWsViewPosition := Vec3 0 0 2 |} in
  let sun := {| BaseFrag.type := BaseFrag.LIGHT_TYPE_DIRECTIONAL;
                BaseFrag.position := Vec3 1 1 1;
                BaseFrag.color := vec3s 1; BaseFrag.intensity := 1 |} in
  let lamp := {| BaseFrag.type := BaseFrag.LIGHT_TYPE_POINT;
                 BaseFrag.position := Vec3 3 3 3;
                 BaseFrag.color := vec3s 0.5; BaseFrag.intensity := 2 |} in
  let d2 := {| IblFrag.LIGHT_COUNT_DIRECTIONAL := 1; IblFrag.LIGHT_COUNT_POINT := 1 |} in
  let uSphere := {| IblFrag.modelMatrix := mat4_create;
                    IblFrag.material := {| IblFrag.albedo := vec3s 1;
                                           IblFrag.metallic := 0;
                                           IblFrag.roughness := 1 |} |} in
  let inp2 := {| IblFrag.vWsNormal := Vec3 0 0 1; IblFrag.vWsViewDir := Vec3 0 0 1;
                 IblFrag.vWsPosition := vec3s 0 |} in
  let sun2 := {| IblFrag.type := IblFrag.LIGHT_TYPE_DIRECTIONAL;
                 IblFrag.position := vec3s 0; IblFrag.direction := Vec3 1 1 1;
                 IblFrag.color := vec3s 1; IblFrag.intensity := 1 |} in
  let lamp2 := {| IblFrag.type := IblFrag.LIGHT_TYPE_POINT;
                  IblFrag.position := Vec3 3 3 3; IblFrag.direction := vec3s 0;
                  IblFrag.color := vec3s 0.5; IblFrag.intensity := 2 |} in
  fst (BaseFrag.light_loop d a [sun; lamp] inp)
  = fst (BaseFrag.light_loop d a [lamp; sun] inp)
  /\ fst (IblFrag.light_loop d2 uSphere [sun2; lamp2] inp2)
     = fst (IblFrag.light_loop d2 uSphere [lamp2; sun2] inp2).
Proof.
  cbv zeta.
  pose proof (light_loop_sums_the_lights
    {| BaseFrag.DIRECTIONAL_LIGHT_COUNT := 1; BaseFrag.POINT_LIGHT_COUNT := 1 |}
    {| BaseFrag.attr_position := vec3s 0; BaseFrag.albedo := vec3s 1;
       BaseFrag.metallic := 0; BaseFrag.roughness := 1 |}
    {| BaseFrag.vWsPosition := vec3s 0; BaseFrag.vWsNormal := Vec3 0 0 1;
       BaseFrag.vWsViewPosition := Vec3 0 0 2 |}
    [ {| BaseFrag.type := BaseFrag.LIGHT_TYPE_DIRECTIONAL;
         BaseFrag.position := Vec3 1 1 1;
         BaseFrag.color := vec3s 1; BaseFrag.intensity := 1 |};
      {| BaseFrag.type := BaseFrag.LIGHT_TYPE_POINT;
         BaseFrag.position := Vec3 3 3 3;
         BaseFrag.color := vec3s 0.5; BaseFrag.intensity := 2 |} ]
    [ {| BaseFrag.type := BaseFrag.LIGHT_TYPE_POINT;
         BaseFrag.position := Vec3 3 3 3;
         BaseFrag.color := vec3s 0.5; BaseFrag.intensity := 2 |};
      {| BaseFrag.type := BaseFrag.LIGHT_TYPE_DIRECTIONAL;
         BaseFrag.position := Vec3 1 1 1;
         BaseFrag.color := vec3s 1; BaseFrag.intensity := 1 |} ]
    {| IblFrag.LIGHT_COUNT_DIRECTIONAL := 1; IblFrag.LIGHT_COUNT_POINT := 1 |}
    {| IblFrag.modelMatrix := mat4_create;
       IblFrag.material := {| IblFrag.albedo := vec3s 1; IblFrag.metallic := 0;
                              IblFrag.roughness := 1 |} |}
    {| IblFrag.vWsNormal := Vec3 0 0 1; IblFrag.vWsViewDir := Vec3 0 0 1;
       IblFrag.vWsPosition := vec3s 0 |}
    [ {| IblFrag.type := IblFrag.LIGHT_TYPE_DIRECTIONAL;
         IblFrag.position := vec3s 0; IblFrag.direction := Vec3 1 1 1;
         IblFrag.color := vec3s 1; IblFrag.intensity := 1 |};
      {| IblFrag.type := IblFrag.LIGHT_TYPE_POINT;
         IblFrag.position := Vec3 3 3 3; IblFrag.direction := vec3s 0;
         IblFrag.color := vec3s 0.5; IblFrag.intensity := 2 |} ]
    [ {| IblFrag.type := IblFrag.LIGHT_TYPE_POINT;
         IblFrag.position := Vec3 3 3 3; IblFrag.direction := vec3s 0;
         IblFrag.color := vec3s 0.5; IblFrag.intensity := 2 |};
      {| IblFrag.type := IblFrag.LIGHT_TYPE_DIRECTIONAL;
         IblFrag.position := vec3s 0; IblFrag.direction := Vec3 1 1 1;
         IblFrag.color := vec3s 1; IblFrag.intensity := 1 |} ]
    eq_refl (perm_swap _ _ []) eq_refl (perm_swap _ _ [])) as H.
  cbv zeta in H. destruct H as (_ & Hb & _ & Hi). split; assumption.
Defined.

(** ** The IBL shader without a light above the surface, and its sampling
    coordinates *)

Lemma ibl_light_loop_reads (d : IblFrag.Defines) (uSphere : IblFrag.SphereProperties)
    (uLights : list IblFrag.LightProperties) (inp : IblFrag.Inputs) :
  snd (IblFrag.light_loop d uSphere uLights inp) = seq 0 (IblFrag.LIGHT_COUNT d).
Proof.
  unfold IblFrag.light_loop. cbv zeta.
  apply (for_loop_reads
           (fun i irradiance => vadd irradiance
              (IblFrag.light_term _ inp _ _ _ _ (nth i uLights IblFrag.Light0)))).
Qed.

(** A light that does not stand above the surface adds nothing to the
    irradiance. *)
Lemma ibl_light_term_below_horizon (m : IblFrag.Material) (inp : IblFrag.Inputs)
    (N V albedo f0 : vec3) (light : IblFrag.LightProperties) :
  dot N (IblFrag.get_light_dir light (IblFrag.vWsPosition inp)) <= 0 ->
  IblFrag.light_term m inp N V albedo f0 light = vec3s 0.
Proof.
  intros H. unfold IblFrag.light_term. cbv zeta.
  assert (E : max (dot N (IblFrag.get_light_dir light (IblFrag.vWsPosition inp))) 0 = 0)
    by (unfold max; apply Rmax_right; exact H).
  rewrite E. apply vec3_eq; simpl; ring.
Qed.

Lemma sum_of_zero_terms {A : Type} (f : A -> vec3) (l : list A) :
  (forall a, In a l -> f a = vec3s 0) ->
  foldr (fun a x => vadd (f a) x) (vec3s 0) l = vec3s 0.
Proof.
  induction l as [|a l IH]; intros H; [reflexivity|].
  simpl. rewrite (H a (or_introl eq_refl)), IH by (intros b Hb; apply H; now right).
  apply vadd_zero_l.
Qed.

(** The IBL fragment shader compiles with at least one light only.  Its
    light loop reads the slots [0 .. LIGHT_COUNT-1] of [uLights], each
    once; when [uLights] holds [LIGHT_COUNT] lights of which none stands
    above the surface ([N·L <= 0] for each), the irradiance is exactly
    zero and the fragment colour is the encoded environment term alone:
    the decoded RGBM texel times the linear albedo, with alpha [1]. *)
Theorem ibl_unlit_fragment_shows_environment (d : IblFrag.Defines)
    (uSphere : IblFrag.SphereProperties) (uLights : list IblFrag.LightProperties)
    (uEnvironment : IblFrag.EnvironmentProperties) (inp : IblFrag.Inputs) :
  (0 < IblFrag.LIGHT_COUNT d)%nat ->
  List.length uLights = IblFrag.LIGHT_COUNT d ->
  (forall light, In light uLights ->
     dot (normalize (IblFrag.vWsNormal inp))
         (IblFrag.get_light_dir light (IblFrag.vWsPosition inp)) <= 0) ->
  let N := normalize (IblFrag.vWsNormal inp) in
  let albedo :=
    rgb (Colour.sRGBToLinear (Vec4 (IblFrag.albedo (IblFrag.material uSphere)) 1)) in
  let texel := IblFrag.texture (IblFrag.env_diffuse uEnvironment) (IblFrag.diffuseUV N) in
  snd (IblFrag.light_loop d uSphere uLights inp) = seq 0 (IblFrag.LIGHT_COUNT d)
  /\ fst (IblFrag.light_loop d uSphere uLights inp) = vec3s 0
  /\ IblFrag.main d uSphere uLights uEnvironment inp
     = Some (Colour.LinearTosRGB (Vec4 (vmul (IblFrag.RGBMToRGB texel 6) albedo) 1))
  /\ (forall d0, IblFrag.LIGHT_COUNT d0 = 0%nat ->
        IblFrag.main d0 uSphere uLights uEnvironment inp = None).
Proof.
  intros Hpos Hlen Hbelow. cbv zeta.
  assert (Hl : fst (IblFrag.light_loop d uSphere uLights inp) = vec3s 0).
  { unfold IblFrag.light_loop. cbv zeta. rewrite <- Hlen.
    rewrite (for_loop_sum _ IblFrag.Light0 uLights []), vadd_zero_l.
    apply sum_of_zero_terms. intros light Hin.
    apply ibl_light_term_below_horizon. now apply Hbelow. }
  split; [apply ibl_light_loop_reads|]. split; [exact Hl|]. split.
  - unfold IblFrag.main, IblFrag.uLights_declared.
    destruct (Nat.ltb_spec 0 (IblFrag.LIGHT_COUNT d)) as [_|Hle]; [|lia].
    cbv zeta. rewrite Hl. now rewrite !vadd_zero_l.
  - intros d0 H0. unfold IblFrag.main, IblFrag.uLights_declared.
    rewrite H0. reflexivity.
Qed.

Lemma ibl_unlit_fragment_shows_environment_witness :
  let d := {| IblFrag.LIGHT_COUNT_DIRECTIONAL := 1; IblFrag.LIGHT_COUNT_POINT := 0 |} in
  let uSphere := {| IblFrag.modelMatrix := mat4_create;
                    IblFrag.material := {| IblFrag.albedo := vec3s 1;
                                           IblFrag.metallic := 0;
                                           IblFrag.roughness := 1 |} |} in
  let below := {| IblFrag.type := IblFrag.LIGHT_TYPE_DIRECTIONAL;
                  IblFrag.position := vec3s 0; IblFrag.direction := Vec3 0 0 (-1);
                  IblFrag.color := vec3s 1; IblFrag.intensity := 1 |} in
  let grey : IblFrag.sampler2D := fun _ => Vec4 (vec3s 0.5) 0.5 in
  let env := {| IblFrag.env_diffuse := grey; IblFrag.env_specular := grey;
                IblFrag.brdfLUT := grey |} in
  let inp := {| IblFrag.vWsNormal := Vec3 0 0 1; IblFrag.vWsViewDir := Vec3 0 0 1;
                IblFrag.vWsPosition := vec3s 0 |} in
  fst (IblFrag.light_loop d uSphere [below] inp) = vec3s 0.
Proof.
  cbv zeta.
  refine (proj1 (proj2 (ibl_unlit_fragment_shows_environment
            {| IblFrag.LIGHT_COUNT_DIRECTIONAL := 1; IblFrag.LIGHT_COUNT_POINT := 0 |}
            _ _
            {| IblFrag.env_diffuse := fun _ => Vec4 (vec3s 0.5) 0.5;
               IblFrag.env_specular := fun _ => Vec4 (vec3s 0.5) 0.5;
               IblFrag.brdfLUT := fun _ => Vec4 (vec3s 0.5) 0.5 |} _ _ _ _))).
  - unfold IblFrag.LIGHT_COUNT. cbn [IblFrag.LIGHT_COUNT_DIRECTIONAL
                                     IblFrag.LIGHT_COUNT_POINT Nat.add]. lia.
  - reflexivity.
  - intros light [<-|[]]. cbn [IblFrag.vWsNormal IblFrag.vWsPosition].
    unfold IblFrag.get_light_dir. cbn [IblFrag.type IblFrag.direction].
    change (IblFrag.LIGHT_TYPE_DIRECTIONAL =? IblFrag.LIGHT_TYPE_DIRECTIONAL)%Z with true.
    cbv iota.
    rewrite (normalize_of_unit (Vec3 0 0 1)) by (unfold dot; simpl; ring).
    rewrite (normalize_of_unit (Vec3 0 0 (-1))) by (unfold dot; simpl; ring).
    unfold dot; simpl. lra.
Defined.

Lemma atan2_range (y x : R) : - Rtrigo1.PI <= atan2 y x <= Rtrigo1.PI.
Proof.
  pose proof PI_RGT_0 as Hpi. pose proof (atan_bound (y / x)) as Hb.
  unfold atan2.
  destruct (Rlt_dec 0 x) as [Hx|Hx]; [lra|].
  destruct (Rlt_dec x 0) as [Hx'|Hx'].
  - assert (Hix : / x < 0) by now apply Rinv_lt_0_compat.
    destruct (Rle_dec 0 y) as [Hy|Hy].
    + assert (Hq : y / x <= 0) by (unfold Rdiv; nra).
      assert (atan (y / x) <= 0).
      { destruct Hq as [Hq|Hq]; [|rewrite Hq, atan_0; lra].
        left. rewrite <- atan_0. now apply atan_increasing. }
      lra.
    + assert (Hq : 0 < y / x) by (unfold Rdiv; nra).
      assert (0 < atan (y / x)) by (rewrite <- atan_0; now apply atan_increasing).
      lra.
  - destruct (Rlt_dec 0 y); [lra|]. destruct (Rlt_dec y 0); lra.
Qed.

(** The angles of [cartesianToPolar] lie in the ranges its comments give,
    [[-π, π]] and [[-π/2, π/2]], for every vector; the coordinates at which
    the environment is sampled therefore stay within [π/PI] of [0.5]. *)
Theorem cartesianToPolar_ranges (N : vec3) :
  let polar := IblFrag.cartesianToPolar N in
  let uv := IblFrag.diffuseUV N in
  - Rtrigo1.PI <= ux polar <= Rtrigo1.PI
  /\ - (Rtrigo1.PI / 2) <= uy polar <= Rtrigo1.PI / 2
  /\ Rabs (ux uv - 0.5) <= Rtrigo1.PI / Brdf.PI
  /\ Rabs (uy uv - 0.5) <= Rtrigo1.PI / Brdf.PI.
Proof.
  cbv zeta. pose proof PI_lit_pos as Hp.
  pose proof (atan2_range (vz N) (vx N)) as Ha.
  pose proof (asin_bound (vy N)) as Hs.
  assert (Hip : 0 < / Brdf.PI) by now apply Rinv_0_lt_compat.
  unfold IblFrag.diffuseUV, IblFrag.cartesianToPolar; simpl.
  split; [exact Ha|]. split; [exact Hs|]. split.
  - apply Rabs_le. unfold Rdiv. split; nra.
  - apply Rabs_le.
    replace (asin (vy N) / (Brdf.PI / 2) + 0.5 - 0.5)
      with (2 * asin (vy N) * / Brdf.PI) by (field; lra).
    unfold Rdiv. split; nra.
Qed.

(** ** A frame of the IBL host without exception *)

Section HostFrames.
Import IblHost IblApp.

(** The loop over recognised lights assigns their uniforms and nothing
    else. *)
Lemma assemble_lights_done (lights : list PonctualLight) :
  Forall (fun l => unrecognised l = false) lights ->
  forall (i : nat) (app : Application),
  assemble_lights i lights app
  = Done tt {| _context := _context app;
               defines := defines app;
               _properties := _properties app;
               _uniforms := lights_uniforms i lights (_uniforms app);
               _lights := _lights app;
               _brdfLUT := _brdfLUT app;
               _environments := _environments app;
               _currentEnvironment := _currentEnvironment app;
               _camera := _camera app |}.
Proof.
  induction 1 as [|l rest Hl _ IH]; intros i app.
  - destruct app; reflexivity.
  - destruct l as [d c k|p c k|c k]; [| |discriminate Hl].
    + change (assemble_lights i (DirectionalLight d c k :: rest) app)
        with (((set_uniform (light_key i "type") (UNumber (IZR (LightType_value DIRECTIONAL))) ;;
                set_uniform (light_key i "direction") (UVec3 d)) ;;
               set_uniform (light_key i "color") (UVec3 c) ;;
               set_uniform (light_key i "intensity") (UNumber k) ;;
               assemble_lights (S i) rest) app).
      unfold mbind, stmt_bind, set_uniform. rewrite IH. reflexivity.
    + change (assemble_lights i (PointLight p c k :: rest) app)
        with (((set_uniform (light_key i "type") (UNumber (IZR (LightType_value POINT))) ;;
                set_uniform (light_key i "position") (UVec3 p)) ;;
               set_uniform (light_key i "color") (UVec3 c) ;;
               set_uniform (light_key i "intensity") (UNumber k) ;;
               assemble_lights (S i) rest) app).
      unfold mbind, stmt_bind, set_uniform. rewrite IH. reflexivity.
Qed.

(** The loop over the spheres: one draw call per sphere, with the defines
    of the shader and the uniform map as it is at that moment. *)
Lemma draw_spheres_done (spheres : list SphereProperties) :
  forall app : Application,
  draw_spheres spheres app
  = Done tt {| _context := _context app
                 ++ List.map (Draw (defines app)) (sphere_maps spheres (_uniforms app));
               defines := defines app;
               _properties := _properties app;
               _uniforms := fold_left (fun u sphere => with_sphere sphere u)
                              spheres (_uniforms app);
               _lights := _lights app;
               _brdfLUT := _brdfLUT app;
               _environments := _environments app;
               _currentEnvironment := _currentEnvironment app;
               _camera := _camera app |}.
Proof.
  induction spheres as [|sphere rest IH]; intros app.
  - destruct app. cbn [draw_spheres sphere_maps fold_left List.map].
    unfold skip, mret, stmt_ret.
    cbv beta iota delta [_context defines _uniforms _properties _lights _brdfLUT
                         _environments _currentEnvironment _camera].
    now rewrite app_nil_r.
  - cbn [draw_spheres]. cbv zeta.
    change ("uSphere." +:+ "modelMatrix")%string with "uSphere.modelMatrix"%string.
    change ("uSphere." +:+ "material.albedo")%string with "uSphere.material.albedo"%string.
    change ("uSphere." +:+ "material.metallic")%string
      with "uSphere.material.metallic"%string.
    change ("uSphere." +:+ "material.roughness")%string
      with "uSphere.material.roughness"%string.
    unfold mbind, stmt_bind, set_uniform, draw, call. rewrite IH.
    cbv beta iota delta [_context defines _uniforms _properties _lights _brdfLUT
                         _environments _currentEnvironment _camera].
    cbn [sphere_maps fold_left List.map]. unfold with_sphere at 3 4.
    rewrite <- app_assoc. reflexivity.
Qed.

(** A frame with recognised lights only runs to its end, when the key
    [uCamera.WsToCs] is absent or holds a matrix. *)
Lemma render_done (app : Application) :
  _uniforms app !! "uCamera.WsToCs"%string = None
  \/ (exists w, _uniforms app !! "uCamera.WsToCs"%string = Some (UMat4 w)) ->
  Forall (fun l => unrecognised l = false) (_lights app) ->
  render app = Done tt (after_frame app).
Proof.
  intros Hw Hl. unfold render. rewrite (render_prefix app _ _ Hw). clear Hw.
  unfold after_frame, frame_uniforms, prelude_uniforms, frame_prelude.
  destruct app as [ctx defs props unis lights lut envs cur cam].
  cbn [_context defines _uniforms _properties _lights _brdfLUT
       _environments _currentEnvironment _camera] in *.
  destruct lut as [lut|];
    destruct (diffuse (envs cur)) as [td|];
    destruct (specular (envs cur)) as [ts|];
    lazy beta iota delta [mbind stmt_bind when_some skip mret stmt_ret
                          call set_uniform set_define
                          _context defines _uniforms _properties _lights _brdfLUT
                          _environments _currentEnvironment _camera];
    rewrite (assemble_lights_done _ Hl);
    lazy beta iota delta [_context defines _uniforms _properties _lights _brdfLUT
                          _environments _currentEnvironment _camera];
    rewrite draw_spheres_done;
    lazy beta iota delta [_context defines _uniforms _properties _lights _brdfLUT
                          _environments _currentEnvironment _camera];
    unfold frame_defines; rewrite <- ?app_assoc; reflexivity.
Qed.

End HostFrames.

(** ** The keys of the uniform map *)

Section UniformKeys.
Import IblHost IblApp.

Lemma append_cons (x : ascii) (a b : string) :
  (String x a +:+ b = String x (a +:+ b))%string.
Proof. reflexivity. Qed.

Lemma append_nil (b : string) : ("" +:+ b = b)%string.
Proof. reflexivity. Qed.

Lemma string_app_assoc (a b c : string) : ((a +:+ b) +:+ c = a +:+ (b +:+ c))%string.
Proof.
  induction a as [|x a IH]; [reflexivity|].
  rewrite !append_cons. now rewrite IH.
Qed.

Lemma pretty_N_char_no_bracket (x : N) : pretty_N_char x <> "]"%char.
Proof. unfold pretty_N_char. repeat case_match; discriminate. Qed.

Lemma pretty_N_go_no_bracket (x : N) :
  forall s, no_bracket s -> no_bracket (pretty_N_go x s).
Proof.
  induction (N.lt_wf_0 x) as [x _ IH]; intros s Hs.
  assert (x = 0 \/ 0 < x)%N as [->|Hx] by lia.
  - now rewrite pretty_N_go_0.
  - rewrite pretty_N_go_step by exact Hx. apply IH.
    + now apply N.div_lt.
    + split; [apply pretty_N_char_no_bracket|exact Hs].
Qed.

(** The decimal notation of an index holds no closing bracket. *)
Lemma pretty_nat_no_bracket (i : nat) : no_bracket (pretty i).
Proof.
  unfold pretty, pretty_nat, pretty, pretty_N.
  case_decide.
  - split; [discriminate|exact I].
  - apply pretty_N_go_no_bracket. exact I.
Qed.

Lemma bracket_split (a b r1 r2 : string) :
  no_bracket a -> no_bracket b ->
  (a +:+ String "]" r1 = b +:+ String "]" r2)%string -> a = b /\ r1 = r2.
Proof.
  revert b. induction a as [|x a IH]; intros [|y b] Ha Hb;
    rewrite ?append_cons, ?append_nil; intros E.
  - injection E as ->. now split.
  - injection E as E _. destruct Hb as [Hy _]. now elim Hy.
  - injection E as E _. destruct Ha as [Hx _]. now elim Hx.
  - injection E as -> E. destruct Ha as [_ Ha], Hb as [_ Hb].
    destruct (IH b Ha Hb E) as [-> ->]. now split.
Qed.

(** Two keys of lights are equal only for the same index and field. *)
Lemma light_key_inj (i j : nat) (f g : string) :
  light_key i f = light_key j g -> i = j /\ f = g.
Proof.
  unfold light_key. rewrite !string_app_assoc.
  intros E. apply String.app_inj in E.
  rewrite !append_cons, !append_nil in E.
  apply bracket_split in E; try apply pretty_nat_no_bracket.
  destruct E as [Ep Er]. split; [now apply pretty_nat_inj|].
  now injection Er.
Qed.

Lemma light_key_head (i : nat) (f : string) :
  exists rest, light_key i f = String "u" (String "L" rest).
Proof.
  unfold light_key. rewrite !string_app_assoc, !append_cons. eauto.
Qed.

Lemma light_uniforms_other (i : nat) (l : PonctualLight)
    (U : gmap string UniformValue) (k : string) :
  (forall f, k <> light_key i f) -> light_uniforms i l U !! k = U !! k.
Proof.
  intros Hk. unfold light_uniforms.
  destruct l; cbv zeta; rewrite ?lookup_insert_ne; auto.
Qed.

Lemma lights_uniforms_other (lights : list PonctualLight) :
  forall (i : nat) (U : gmap string UniformValue) (k : string),
  not_light_key_from i k -> lights_uniforms i lights U !! k = U !! k.
Proof.
  induction lights as [|l rest IH]; intros i U k Hk; [reflexivity|].
  cbn [lights_uniforms]. rewrite IH.
  - apply light_uniforms_other. intros f. apply Hk. lia.
  - intros j f Hj. apply Hk. lia.
Qed.

Lemma light_key_from_later (i j : nat) (f : string) :
  (i < j)%nat -> not_light_key_from j (light_key i f).
Proof.
  intros Hij j' g Hj E. apply light_key_inj in E as [-> _]. lia.
Qed.

Lemma light_key_field_ne (i : nat) (f g : string) :
  f <> g -> light_key i g <> light_key i f.
Proof. intros Hfg E. apply light_key_inj in E as [_ ->]. now elim Hfg. Qed.

(** What the assignments for one recognised light leave in the map. *)
Lemma light_uniforms_lookup (i : nat) (l : PonctualLight)
    (U : gmap string UniformValue) :
  unrecognised l = false ->
  let U' := light_uniforms i l U in
  U' !! light_key i "type" = Some (UNumber (IZR (light_tag l)))
  /\ U' !! light_key i "color" = Some (UVec3 (light_color l))
  /\ U' !! light_key i "intensity" = Some (UNumber (light_intensity l))
  /\ match l with
     | DirectionalLight directionWS _ _ =>
         U' !! light_key i "direction" = Some (UVec3 directionWS)
     | PointLight positionWS _ _ =>
         U' !! light_key i "position" = Some (UVec3 positionWS)
     | OtherLight _ _ => False
     end.
Proof.
  intros Hl. cbv zeta. unfold light_uniforms.
  destruct l as [d c k|p c k|c k]; [| |discriminate Hl]; cbv zeta;
    unfold light_tag, light_color, light_intensity, instanceof_DirectionalLight.
  - repeat split.
    + rewrite !lookup_insert_ne by (apply light_key_field_ne; discriminate).
      apply lookup_insert_eq.
    + rewrite lookup_insert_ne by (apply light_key_field_ne; discriminate).
      apply lookup_insert_eq.
    + apply lookup_insert_eq.
    + rewrite !lookup_insert_ne by (apply light_key_field_ne; discriminate).
      apply lookup_insert_eq.
  - repeat split.
    + rewrite !lookup_insert_ne by (apply light_key_field_ne; discriminate).
      apply lookup_insert_eq.
    + rewrite lookup_insert_ne by (apply light_key_field_ne; discriminate).
      apply lookup_insert_eq.
    + apply lookup_insert_eq.
    + rewrite !lookup_insert_ne by (apply light_key_field_ne; discriminate).
      apply lookup_insert_eq.
Qed.

End UniformKeys.

(** ** What a frame of the IBL host draws *)

Section FrameTheorems.
Import IblHost IblApp.

Lemma lights_uniforms_lookup (lights : list PonctualLight) :
  forall (i : nat) (U : gmap string UniformValue) (j : nat) (l : PonctualLight),
  lights !! j = Some l -> unrecognised l = false ->
  let U' := lights_uniforms i lights U in
  U' !! light_key (i + j) "type" = Some (UNumber (IZR (light_tag l)))
  /\ U' !! light_key (i + j) "color" = Some (UVec3 (light_color l))
  /\ U' !! light_key (i + j) "intensity" = Some (UNumber (light_intensity l))
  /\ match l with
     | DirectionalLight directionWS _ _ =>
         U' !! light_key (i + j) "direction" = Some (UVec3 directionWS)
     | PointLight positionWS _ _ =>
         U' !! light_key (i + j) "position" = Some (UVec3 positionWS)
     | OtherLight _ _ => False
     end.
Proof.
  induction lights as [|l0 rest IH]; intros i U j l Hj Hl; [discriminate Hj|].
  destruct j as [|j].
  - injection Hj as ->. cbv zeta. cbn [lights_uniforms]. rewrite Nat.add_0_r.
    pose proof (light_uniforms_lookup i l U Hl) as H. cbv zeta in H.
    destruct H as (Ht & Hc & Hi & Hd).
    rewrite !lights_uniforms_other by (apply light_key_from_later; lia).
    repeat split; assumption.
  - cbn [lights_uniforms]. replace (i + S j)%nat with (S i + j)%nat by lia.
    now apply IH.
Qed.

Lemma with_sphere_other (s : SphereProperties) (U : gmap string UniformValue)
    (k : string) :
  k <> "uSphere.modelMatrix"%string -> k <> "uSphere.material.albedo"%string ->
  k <> "uSphere.material.metallic"%string ->
  k <> "uSphere.material.roughness"%string ->
  with_sphere s U !! k = U !! k.
Proof.
  intros H1 H2 H3 H4. unfold with_sphere.
  rewrite !lookup_insert_ne by (intros E; symmetry in E; contradiction).
  reflexivity.
Qed.

Lemma with_sphere_lookup (s : SphereProperties) (U : gmap string UniformValue) :
  with_sphere s U !! "uSphere.modelMatrix"%string = Some (UMat4 (modelMatrix s))
  /\ with_sphere s U !! "uSphere.material.albedo"%string
     = Some (UVec3 (albedo (material s)))
  /\ with_sphere s U !! "uSphere.material.metallic"%string
     = Some (UNumber (metallic (material s)))
  /\ with_sphere s U !! "uSphere.material.roughness"%string
     = Some (UNumber (roughness (material s))).
Proof.
  unfold with_sphere. repeat split.
  - rewrite !lookup_insert_ne by discriminate. apply lookup_insert_eq.
  - rewrite !lookup_insert_ne by discriminate. apply lookup_insert_eq.
  - rewrite lookup_insert_ne by discriminate. apply lookup_insert_eq.
  - apply lookup_insert_eq.
Qed.

(** The map of the draw call of the sphere at index [k]: the four
    assignments of that sphere over a map that agrees with the initial one
    outside the keys of the spheres. *)
Lemma sphere_maps_nth (props : list SphereProperties) :
  forall (U : gmap string UniformValue) (k : nat) (s : SphereProperties),
  props !! k = Some s ->
  exists U0,
    sphere_maps props U !! k = Some (with_sphere s U0)
    /\ forall key,
         key <> "uSphere.modelMatrix"%string ->
         key <> "uSphere.material.albedo"%string ->
         key <> "uSphere.material.metallic"%string ->
         key <> "uSphere.material.roughness"%string ->
         U0 !! key = U !! key.
Proof.
  induction props as [|s0 rest IH]; intros U k s Hk; [discriminate Hk|].
  destruct k as [|k].
  - injection Hk as ->. exists U. split; [reflexivity|auto].
  - destruct (IH (with_sphere s0 U) k s Hk) as (U0 & E & Hother).
    exists U0. split; [exact E|].
    intros key H1 H2 H3 H4. rewrite Hother by assumption.
    now apply with_sphere_other.
Qed.

Lemma sphere_maps_length (props : list SphereProperties) :
  forall U, List.length (sphere_maps props U) = List.length props.
Proof. induction props as [|s rest IH]; intros U; simpl; [reflexivity|now rewrite IH]. Qed.

Lemma filter_draws (D : gmap string Z) (maps : list (gmap string UniformValue)) :
  List.filter is_draw (List.map (Draw D) maps) = List.map (Draw D) maps.
Proof. induction maps as [|U rest IH]; simpl; [reflexivity|now rewrite IH]. Qed.

Lemma draws_after_frame (app : Application) :
  draws (after_frame app)
  = draws app ++ List.map (Draw (frame_defines app))
                   (sphere_maps (_properties app) (frame_uniforms app)).
Proof.
  unfold draws, after_frame.
  cbv beta iota delta [_context]. rewrite !List.filter_app, filter_draws.
  f_equal. unfold frame_prelude.
  destruct (diffuse _), (specular _); reflexivity.
Qed.

(** When the key [uCamera.WsToCs] is absent from the uniform map (as the
    constructor leaves it) or holds a matrix (as a frame leaves it),
    [render] runs to its end exactly when every light is a
    [DirectionalLight] or a [PointLight]; it then adds one draw call per
    sphere and no other; otherwise it throws without any draw call. *)
Theorem render_draws_one_per_sphere (app : Application) :
  _uniforms app !! "uCamera.WsToCs"%string = None
  \/ (exists w, _uniforms app !! "uCamera.WsToCs"%string = Some (UMat4 w)) ->
  (Forall (fun l => unrecognised l = false) (_lights app) ->
   exists app' new,
     render app = Done tt app'
     /\ draws app' = draws app ++ new
     /\ List.length new = List.length (_properties app))
  /\ (~ Forall (fun l => unrecognised l = false) (_lights app) ->
      exists message app',
        render app = Thrown message app' /\ draws app' = draws app).
Proof.
  intros Hw. split.
  - intros Hl. exists (after_frame app). eexists.
    split; [now apply render_done|]. split; [apply draws_after_frame|].
    now rewrite length_map, sphere_maps_length.
  - intros Hn.
    destruct (list_find (fun l => unrecognised l = true) (_lights app))
      as [[j l]|] eqn:Hf.
    + destruct (render_throws app j l Hw Hf) as (app' & E & D). eauto.
    + elim Hn. apply list_find_None in Hf.
      eapply Forall_impl; [exact Hf|]. intros l Hu. simpl in Hu.
      now destruct (unrecognised l).
Qed.

Lemma render_draws_one_per_sphere_witness :
  let sphere r := {| modelMatrix := mat4_create;
                     material := {| albedo := vec3s 1; metallic := 0;
                                    roughness := r |} |} in
  let app lights :=
    {| _context := []; defines := ∅;
       _properties := [sphere 0; sphere 1]; _uniforms := ∅;
       _lights := lights;
       _brdfLUT := Some 0%nat;
       _environments := (fun _ => {| diffuse := Some 1%nat; specular := None |});
       _currentEnvironment := ALEXS_APARTMENT;
       _camera := {| WsToCs := mat4_create; position := Vec3 0 0 10 |} |} in
  (exists app' new,
     render (app [DirectionalLight (vec3s 1) (vec3s 1) 1]) = Done tt app'
     /\ draws app' = [] ++ new /\ List.length new = 2%nat)
  /\ (exists message app',
        render (app [OtherLight (vec3s 1) 1]) = Thrown message app'
        /\ draws app' = []).
Proof.
  cbv zeta. split.
  - match goal with
    | |- context [render ?a] =>
        refine (proj1 (render_draws_one_per_sphere a (or_introl eq_refl)) _);
        repeat constructor
    end.
  - match goal with
    | |- context [render ?a] =>
        refine (proj2 (render_draws_one_per_sphere a (or_introl eq_refl)) _)
    end.
    intros H. apply Forall_inv in H. discriminate H.
Defined.

Lemma map_lookup_Some {A B} (f : A -> B) (l : list A) (k : nat) (a : A) :
  l !! k = Some a -> List.map f l !! k = Some (f a).
Proof.
  revert k. induction l as [|x l IH]; intros [|k] H; try discriminate H.
  - injection H as ->. reflexivity.
  - simpl. now apply IH.
Qed.

(** The draw call of the sphere at index [k] in a frame that runs to its
    end. *)
Lemma frame_draw_nth (app : Application) (k : nat) (s : SphereProperties) :
  _properties app !! k = Some s ->
  exists U0,
    draws (after_frame app) !! (List.length (draws app) + k)%nat
    = Some (Draw (frame_defines app) (with_sphere s U0))
    /\ forall key,
         key <> "uSphere.modelMatrix"%string ->
         key <> "uSphere.material.albedo"%string ->
         key <> "uSphere.material.metallic"%string ->
         key <> "uSphere.material.roughness"%string ->
         U0 !! key = frame_uniforms app !! key.
Proof.
  intros Hk.
  destruct (sphere_maps_nth _ (frame_uniforms app) k s Hk) as (U0 & E & Hother).
  exists U0. split; [|exact Hother].
  rewrite draws_after_frame, lookup_app_r by lia.
  replace (List.length (draws app) + k - List.length (draws app))%nat with k by lia.
  now apply (map_lookup_Some (Draw (frame_defines app))).
Qed.

Lemma not_light_key (k : string) :
  (forall rest, k <> String "u" (String "L" rest)) -> not_light_key_from 0 k.
Proof.
  intros Hk j f _ E. destruct (light_key_head j f) as (rest & Er).
  rewrite Er in E. now apply (Hk rest).
Qed.

Lemma prelude_uniforms_camera (app : Application) :
  prelude_uniforms app !! "uCamera.WsToCs"%string = Some (UMat4 (WsToCs (_camera app)))
  /\ prelude_uniforms app !! "uCamera.position"%string
     = Some (UVec3 (position (_camera app))).
Proof.
  unfold prelude_uniforms. cbv zeta.
  destruct (_brdfLUT app), (diffuse _), (specular _); split;
    rewrite ?lookup_insert_ne by discriminate; apply lookup_insert_eq.
Qed.

(** In a frame that starts with the key [uCamera.WsToCs] absent or
    holding a matrix and that runs to its end, the draw call of each
    sphere is given that sphere's model matrix and material, and the
    camera of the frame, although all draw calls share one uniform
    object. *)
Theorem render_draws_each_sphere_with_its_material
    (app : Application) (k : nat) (s : SphereProperties) :
  _uniforms app !! "uCamera.WsToCs"%string = None
  \/ (exists w, _uniforms app !! "uCamera.WsToCs"%string = Some (UMat4 w)) ->
  Forall (fun l => unrecognised l = false) (_lights app) ->
  _properties app !! k = Some s ->
  exists app' D U,
    render app = Done tt app'
    /\ draws app' !! (List.length (draws app) + k)%nat = Some (Draw D U)
    /\ U !! "uSphere.modelMatrix"%string = Some (UMat4 (modelMatrix s))
    /\ U !! "uSphere.material.albedo"%string = Some (UVec3 (albedo (material s)))
    /\ U !! "uSphere.material.metallic"%string = Some (UNumber (metallic (material s)))
    /\ U !! "uSphere.material.roughness"%string = Some (UNumber (roughness (material s)))
    /\ U !! "uCamera.WsToCs"%string = Some (UMat4 (WsToCs (_camera app)))
    /\ U !! "uCamera.position"%string = Some (UVec3 (position (_camera app))).
Proof.
  intros Hkey Hl Hk.
  destruct (frame_draw_nth app k s Hk) as (U0 & E & Hother).
  destruct (with_sphere_lookup s U0) as (H1 & H2 & H3 & H4).
  destruct (prelude_uniforms_camera app) as (Hw & Hp).
  exists (after_frame app), (frame_defines app), (with_sphere s U0).
  split; [now apply render_done|]. split; [exact E|].
  repeat split; try assumption.
  - rewrite with_sphere_other, Hother by discriminate.
    unfold frame_uniforms.
    rewrite lights_uniforms_other by (apply not_light_key; discriminate).
    exact Hw.
  - rewrite with_sphere_other, Hother by discriminate.
    unfold frame_uniforms.
    rewrite lights_uniforms_other by (apply not_light_key; discriminate).
    exact Hp.
Qed.

Lemma light_key_not_sphere (j : nat) (f : string) (k : string) :
  (forall rest, k <> String "u" (String "L" rest)) -> light_key j f <> k.
Proof.
  intros Hk E. destruct (light_key_head j f) as (rest & Er).
  rewrite Er in E. now apply (Hk rest).
Qed.

(** In a frame that starts with the key [uCamera.WsToCs] absent or
    holding a matrix and that runs to its end, every draw call is given,
    for the light at each index [j], its type tag, colour and intensity,
    and its direction or position, under the keys [uLights[j].*]; the tag
    is the constant that the fragment shader compares with. *)
Theorem render_draws_carry_every_light
    (app : Application) (k : nat) (s : SphereProperties)
    (j : nat) (l : PonctualLight) :
  _uniforms app !! "uCamera.WsToCs"%string = None
  \/ (exists w, _uniforms app !! "uCamera.WsToCs"%string = Some (UMat4 w)) ->
  Forall (fun l => unrecognised l = false) (_lights app) ->
  _properties app !! k = Some s ->
  _lights app !! j = Some l ->
  exists app' D U,
    render app = Done tt app'
    /\ draws app' !! (List.length (draws app) + k)%nat = Some (Draw D U)
    /\ U !! light_key j "type" = Some (UNumber (IZR (light_tag l)))
    /\ U !! light_key j "color" = Some (UVec3 (light_color l))
    /\ U !! light_key j "intensity" = Some (UNumber (light_intensity l))
    /\ match l with
       | DirectionalLight directionWS _ _ =>
           U !! light_key j "direction" = Some (UVec3 directionWS)
           /\ light_tag l = IblFrag.LIGHT_TYPE_DIRECTIONAL
       | PointLight positionWS _ _ =>
           U !! light_key j "position" = Some (UVec3 positionWS)
           /\ light_tag l = IblFrag.LIGHT_TYPE_POINT
       | OtherLight _ _ => False
       end.
Proof.
  intros Hw Hl Hk Hj.
  destruct (frame_draw_nth app k s Hk) as (U0 & E & Hother).
  assert (Hrec : unrecognised l = false).
  { rewrite Forall_forall in Hl. apply Hl. eapply list_elem_of_lookup_2, Hj. }
  pose proof (lights_uniforms_lookup (_lights app) 0 (prelude_uniforms app) j l Hj Hrec)
    as H. cbv zeta in H. rewrite Nat.add_0_l in H. fold (frame_uniforms app) in H.
  destruct H as (Ht & Hc & Hi & Hd).
  assert (Hthrough : forall f,
            with_sphere s U0 !! light_key j f = frame_uniforms app !! light_key j f).
  { intros f.
    rewrite with_sphere_other, Hother
      by (apply light_key_not_sphere; discriminate). reflexivity. }
  exists (after_frame app), (frame_defines app), (with_sphere s U0).
  split; [now apply render_done|]. split; [exact E|].
  rewrite !Hthrough. repeat split; try assumption.
  destruct l; [| |exact Hd]; split; try exact Hd; reflexivity.
Qed.

Lemma render_draws_each_sphere_with_its_material_witness :
  let app := demo_app [DirectionalLight (vec3s 1) (vec3s 1) 1; PointLight (Vec3 3 3 3) (vec3s 1) 2] in
  exists app' D U,
    render app = Done tt app'
    /\ draws app' !! (List.length (draws app) + 1)%nat = Some (Draw D U)
    /\ U !! "uSphere.modelMatrix"%string = Some (UMat4 (modelMatrix (demo_sphere 1)))
    /\ U !! "uSphere.material.albedo"%string
       = Some (UVec3 (albedo (material (demo_sphere 1))))
    /\ U !! "uSphere.material.metallic"%string
       = Some (UNumber (metallic (material (demo_sphere 1))))
    /\ U !! "uSphere.material.roughness"%string
       = Some (UNumber (roughness (material (demo_sphere 1))))
    /\ U !! "uCamera.WsToCs"%string = Some (UMat4 (WsToCs (_camera app)))
    /\ U !! "uCamera.position"%string = Some (UVec3 (position (_camera app))).
Proof.
  cbv zeta.
  apply (render_draws_each_sphere_with_its_material
           (demo_app [DirectionalLight (vec3s 1) (vec3s 1) 1;
                      PointLight (Vec3 3 3 3) (vec3s 1) 2]) 1 (demo_sphere 1)).
  - left. reflexivity.
  - repeat constructor.
  - reflexivity.
Defined.

Lemma render_draws_carry_every_light_witness :
  let app := demo_app [DirectionalLight (vec3s 1) (vec3s 1) 1; PointLight (Vec3 3 3 3) (vec3s 1) 2] in
  exists app' D U,
    render app = Done tt app'
    /\ draws app' !! (List.length (draws app) + 0)%nat = Some (Draw D U)
    /\ U !! light_key 1 "type" = Some (UNumber (IZR (light_tag (PointLight (Vec3 3 3 3) (vec3s 1) 2))))
    /\ U !! light_key 1 "color" = Some (UVec3 (light_color (PointLight (Vec3 3 3 3) (vec3s 1) 2)))
    /\ U !! light_key 1 "intensity"
       = Some (UNumber (light_intensity (PointLight (Vec3 3 3 3) (vec3s 1) 2)))
    /\ (U !! light_key 1 "position" = Some (UVec3 (Vec3 3 3 3))
        /\ light_tag (PointLight (Vec3 3 3 3) (vec3s 1) 2) = IblFrag.LIGHT_TYPE_POINT).
Proof.
  cbv zeta.
  apply (render_draws_carry_every_light
           (demo_app [DirectionalLight (vec3s 1) (vec3s 1) 1;
                      PointLight (Vec3 3 3 3) (vec3s 1) 2])
           0 (demo_sphere 0) 1 (PointLight (Vec3 3 3 3) (vec3s 1) 2)).
  - left. reflexivity.
  - repeat constructor.
  - reflexivity.
  - reflexivity.
Defined.

Lemma count_recognised (lights : list PonctualLight) :
  Forall (fun l => unrecognised l = false) lights ->
  (List.length (List.filter instanceof_DirectionalLight lights)
   + List.length (List.filter instanceof_PointLight lights))%nat
  = List.length lights.
Proof.
  induction 1 as [|l rest Hl _ IH]; [reflexivity|].
  destruct l; [| |discriminate Hl]; simpl; lia.
Qed.

(** In a frame that starts with the key [uCamera.WsToCs] absent or
    holding a matrix and that runs to its end, every draw call is given
    the same defines: [LIGHTS_COUNT] is the number of lights, the two counts per
    class add up to it (so the [LIGHT_COUNT] of the fragment shader is the
    number of lights whose uniforms were assigned), the two type tags are
    those of the fragment shader, and [SPHERES_COUNT] is the number of
    spheres. *)
Theorem render_defines_match_the_lights (app : Application) :
  _uniforms app !! "uCamera.WsToCs"%string = None
  \/ (exists w, _uniforms app !! "uCamera.WsToCs"%string = Some (UMat4 w)) ->
  Forall (fun l => unrecognised l = false) (_lights app) ->
  exists app' D new directional point,
    render app = Done tt app'
    /\ draws app' = draws app ++ new
    /\ Forall (fun c => exists U, c = Draw D U) new
    /\ D !! "LIGHTS_COUNT"%string = Some (Z.of_nat (List.length (_lights app)))
    /\ D !! "LIGHT_COUNT_DIRECTIONAL"%string = Some (Z.of_nat directional)
    /\ D !! "LIGHT_COUNT_POINT"%string = Some (Z.of_nat point)
    /\ IblFrag.LIGHT_COUNT {| IblFrag.LIGHT_COUNT_DIRECTIONAL := directional;
                              IblFrag.LIGHT_COUNT_POINT := point |}
       = List.length (_lights app)
    /\ D !! "LIGHT_TYPE_DIRECTIONAL"%string = Some IblFrag.LIGHT_TYPE_DIRECTIONAL
    /\ D !! "LIGHT_TYPE_POINT"%string = Some IblFrag.LIGHT_TYPE_POINT
    /\ D !! "SPHERES_COUNT"%string = Some (Z.of_nat (List.length (_properties app))).
Proof.
  intros Hw Hl.
  exists (after_frame app), (frame_defines app),
    (List.map (Draw (frame_defines app))
       (sphere_maps (_properties app) (frame_uniforms app))),
    (List.length (List.filter instanceof_DirectionalLight (_lights app))),
    (List.length (List.filter instanceof_PointLight (_lights app))).
  split; [now apply render_done|]. split; [apply draws_after_frame|].
  split.
  { apply Forall_forall. intros c Hc. apply list_elem_of_In, in_map_iff in Hc.
    destruct Hc as (U & <- & _). now exists U. }
  unfold frame_defines, count.
  repeat split.
  - rewrite !lookup_insert_ne by discriminate. apply lookup_insert_eq.
  - rewrite !lookup_insert_ne by discriminate. apply lookup_insert_eq.
  - rewrite !lookup_insert_ne by discriminate. apply lookup_insert_eq.
  - unfold IblFrag.LIGHT_COUNT. cbn [IblFrag.LIGHT_COUNT_DIRECTIONAL IblFrag.LIGHT_COUNT_POINT].
    now apply count_recognised.
  - rewrite !lookup_insert_ne by discriminate. apply lookup_insert_eq.
  - rewrite !lookup_insert_ne by discriminate. apply lookup_insert_eq.
  - apply lookup_insert_eq.
Qed.

Lemma render_defines_match_the_lights_witness :
  let app := demo_app [DirectionalLight (vec3s 1) (vec3s 1) 1; PointLight (Vec3 3 3 3) (vec3s 1) 2] in
  exists app' D new directional point,
    render app = Done tt app'
    /\ draws app' = draws app ++ new
    /\ Forall (fun c => exists U, c = Draw D U) new
    /\ D !! "LIGHTS_COUNT"%string = Some (Z.of_nat (List.length (_lights app)))
    /\ D !! "LIGHT_COUNT_DIRECTIONAL"%string = Some (Z.of_nat directional)
    /\ D !! "LIGHT_COUNT_POINT"%string = Some (Z.of_nat point)
    /\ IblFrag.LIGHT_COUNT {| IblFrag.LIGHT_COUNT_DIRECTIONAL := directional;
                              IblFrag.LIGHT_COUNT_POINT := point |}
       = List.length (_lights app)
    /\ D !! "LIGHT_TYPE_DIRECTIONAL"%string = Some IblFrag.LIGHT_TYPE_DIRECTIONAL
    /\ D !! "LIGHT_TYPE_POINT"%string = Some IblFrag.LIGHT_TYPE_POINT
    /\ D !! "SPHERES_COUNT"%string = Some (Z.of_nat (List.length (_properties app))).
Proof.
  cbv zeta.
  apply (render_defines_match_the_lights
           (demo_app [DirectionalLight (vec3s 1) (vec3s 1) 1;
                      PointLight (Vec3 3 3 3) (vec3s 1) 2])).
  - left. reflexivity.
  - repeat constructor.
Defined.

Lemma update_done (gui : GUIProperties) (app : Application) :
  exists app',
    update gui app = Done tt app'
    /\ _properties app'
       = List.map (fun sphere =>
                     {| modelMatrix := modelMatrix sphere;
                        material := {| albedo := vdivs (gui_albedo gui) 255;
                                       metallic := metallic (material sphere);
                                       roughness := roughness (material sphere) |} |})
           (_properties app)
    /\ _currentEnvironment app' = environment gui
    /\ _context app' = _context app /\ _lights app' = _lights app
    /\ _uniforms app' = _uniforms app /\ _environments app' = _environments app
    /\ _brdfLUT app' = _brdfLUT app /\ _camera app' = _camera app
    /\ defines app' = defines app.
Proof.
  unfold update. eexists. split; [reflexivity|].
  cbn [_properties _currentEnvironment _context _lights _uniforms _environments
       _brdfLUT _camera defines].
  repeat split.
  destruct (environment gui), (_currentEnvironment app); reflexivity.
Qed.

(** [update] gives the sphere at every index the albedo of the colour
    picker divided by 255 and keeps its metallic, roughness and model
    matrix; the current environment becomes the selected one; no call
    reaches the GL context, and a second [update] with the same selection
    changes nothing. *)
Theorem update_applies_the_gui (gui : GUIProperties) (app : Application)
    (k : nat) (s : SphereProperties) :
  _properties app !! k = Some s ->
  exists app' s',
    update gui app = Done tt app'
    /\ _properties app' !! k = Some s'
    /\ albedo (material s') = vdivs (gui_albedo gui) 255
    /\ metallic (material s') = metallic (material s)
    /\ roughness (material s') = roughness (material s)
    /\ modelMatrix s' = modelMatrix s
    /\ List.length (_properties app') = List.length (_properties app)
    /\ _currentEnvironment app' = environment gui
    /\ _context app' = _context app
    /\ update gui app' = Done tt app'.
Proof.
  intros Hk.
  destruct (update_done gui app)
    as (app' & E & Hp & He & Hc & Hli & Hu & Hen & Hlu & Hca & Hd).
  exists app'. eexists. split; [exact E|].
  split; [rewrite Hp; apply map_lookup_Some, Hk|].
  cbn [albedo metallic roughness material modelMatrix].
  repeat split; try assumption.
  - rewrite Hp. apply List.length_map.
  - destruct app' as [ctx defs props unis lights lut envs cur cam].
    cbn [_properties _currentEnvironment _context _lights _uniforms _environments
         _brdfLUT _camera defines] in *.
    unfold update.
    cbn [_properties _currentEnvironment _context _lights _uniforms _environments
         _brdfLUT _camera defines].
    f_equal. f_equal.
    + rewrite Hp, List.map_map.
      cbn [albedo metallic roughness material modelMatrix].
      reflexivity.
    + rewrite He. destruct (environment gui); reflexivity.
Qed.

Lemma update_applies_the_gui_witness :
  let gui := {| gui_albedo := Vec3 255 0 51; environment := INTERIOR |} in
  let app := demo_app [] in
  exists app' s',
    update gui app = Done tt app'
    /\ _properties app' !! 1%nat = Some s'
    /\ albedo (material s') = vdivs (gui_albedo gui) 255
    /\ metallic (material s') = metallic (material (demo_sphere 1))
    /\ roughness (material s') = roughness (material (demo_sphere 1))
    /\ modelMatrix s' = modelMatrix (demo_sphere 1)
    /\ List.length (_properties app') = List.length (_properties app)
    /\ _currentEnvironment app' = environment gui
    /\ _context app' = _context app
    /\ update gui app' = Done tt app'.
Proof.
  cbv zeta.
  apply (update_applies_the_gui
           {| gui_albedo := Vec3 255 0 51; environment := INTERIOR |}
           (demo_app []) 1 (demo_sphere 1)).
  reflexivity.
Defined.

Lemma prelude_uniforms_environment (app : Application) :
  prelude_uniforms app !! "uEnvironment.diffuse"%string
  = match diffuse (_environments app (_currentEnvironment app)) with
    | Some t => Some (UTexture t)
    | None => _uniforms app !! "uEnvironment.diffuse"%string
    end
  /\ prelude_uniforms app !! "uEnvironment.specular"%string
     = match specular (_environments app (_currentEnvironment app)) with
       | Some t => Some (UTexture t)
       | None => _uniforms app !! "uEnvironment.specular"%string
       end.
Proof.
  unfold prelude_uniforms. cbv zeta.
  destruct (_brdfLUT app), (diffuse _), (specular _); split;
    rewrite ?lookup_insert_eq; rewrite ?lookup_insert_ne by discriminate;
    rewrite ?lookup_insert_eq; reflexivity.
Qed.

(** A frame, that is [update] followed by [render], from a uniform map in
    which the key [uCamera.WsToCs] is absent or holds a matrix: the draw
    call of every sphere is given the albedo of the colour picker divided by 255,
    whatever albedo the sphere had, with the sphere's own metallic and
    roughness, and the textures of the selected environment; a texture
    that the selected environment has not loaded leaves the uniform as the
    frame before left it. *)
Theorem update_then_render_uses_the_gui (gui : GUIProperties) (app : Application)
    (k : nat) (s : SphereProperties) :
  _uniforms app !! "uCamera.WsToCs"%string = None
  \/ (exists w, _uniforms app !! "uCamera.WsToCs"%string = Some (UMat4 w)) ->
  Forall (fun l => unrecognised l = false) (_lights app) ->
  _properties app !! k = Some s ->
  exists app1 app2 D U,
    update gui app = Done tt app1
    /\ render app1 = Done tt app2
    /\ draws app2 !! (List.length (draws app) + k)%nat = Some (Draw D U)
    /\ U !! "uSphere.material.albedo"%string
       = Some (UVec3 (vdivs (gui_albedo gui) 255))
    /\ U !! "uSphere.material.metallic"%string = Some (UNumber (metallic (material s)))
    /\ U !! "uSphere.material.roughness"%string
       = Some (UNumber (roughness (material s)))
    /\ U !! "uSphere.modelMatrix"%string = Some (UMat4 (modelMatrix s))
    /\ U !! "uEnvironment.diffuse"%string
       = match diffuse (_environments app (environment gui)) with
         | Some t => Some (UTexture t)
         | None => _uniforms app !! "uEnvironment.diffuse"%string
         end
    /\ U !! "uEnvironment.specular"%string
       = match specular (_environments app (environment gui)) with
         | Some t => Some (UTexture t)
         | None => _uniforms app !! "uEnvironment.specular"%string
         end.
Proof.
  intros Hw Hl Hk.
  destruct (update_done gui app)
    as (app1 & E & Hp & He & Hc & Hli & Hu & Hen & Hlu & Hca & Hd).
  assert (Hk1 : _properties app1 !! k
                = Some {| modelMatrix := modelMatrix s;
                          material := {| albedo := vdivs (gui_albedo gui) 255;
                                         metallic := metallic (material s);
                                         roughness := roughness (material s) |} |}).
  { rewrite Hp.
    exact (map_lookup_Some
             (fun sphere =>
                {| modelMatrix := modelMatrix sphere;
                   material := {| albedo := vdivs (gui_albedo gui) 255;
                                  metallic := metallic (material sphere);
                                  roughness := roughness (material sphere) |} |})
             _ k s Hk). }
  destruct (frame_draw_nth app1 k _ Hk1) as (U0 & Edraw & Hother).
  destruct (with_sphere_lookup
              {| modelMatrix := modelMatrix s;
                 material := {| albedo := vdivs (gui_albedo gui) 255;
                                metallic := metallic (material s);
                                roughness := roughness (material s) |} |} U0)
    as (H1 & H2 & H3 & H4).
  cbn [albedo metallic roughness material modelMatrix] in H1, H2, H3, H4.
  destruct (prelude_uniforms_environment app1) as (Hdi & Hsp).
  rewrite Hen, He, Hu in Hdi, Hsp.
  eexists app1, (after_frame app1), (frame_defines app1), _.
  split; [exact E|].
  split; [apply render_done; [rewrite Hu; exact Hw|rewrite Hli; exact Hl]|].
  split.
  { replace (draws app) with (draws app1) by (unfold draws; now rewrite Hc).
    exact Edraw. }
  repeat split; try assumption.
  - rewrite with_sphere_other, Hother by discriminate.
    unfold frame_uniforms.
    rewrite lights_uniforms_other by (apply not_light_key; discriminate).
    exact Hdi.
  - rewrite with_sphere_other, Hother by discriminate.
    unfold frame_uniforms.
    rewrite lights_uniforms_other by (apply not_light_key; discriminate).
    exact Hsp.
Qed.

Lemma update_then_render_uses_the_gui_witness :
  let gui := {| gui_albedo := Vec3 255 0 51; environment := INTERIOR |} in
  let app := demo_app [PointLight (Vec3 3 3 3) (vec3s 1) 2] in
  exists app1 app2 D U,
    update gui app = Done tt app1
    /\ render app1 = Done tt app2
    /\ draws app2 !! (List.length (draws app) + 1)%nat = Some (Draw D U)
    /\ U !! "uSphere.material.albedo"%string
       = Some (UVec3 (vdivs (gui_albedo gui) 255))
    /\ U !! "uSphere.material.metallic"%string
       = Some (UNumber (metallic (material (demo_sphere 1))))
    /\ U !! "uSphere.material.roughness"%string
       = Some (UNumber (roughness (material (demo_sphere 1))))
    /\ U !! "uSphere.modelMatrix"%string = Some (UMat4 (modelMatrix (demo_sphere 1)))
    /\ U !! "uEnvironment.diffuse"%string
       = match diffuse (_environments app (environment gui)) with
         | Some t => Some (UTexture t)
         | None => _uniforms app !! "uEnvironment.diffuse"%string
         end
    /\ U !! "uEnvironment.specular"%string
       = match specular (_environments app (environment gui)) with
         | Some t => Some (UTexture t)
         | None => _uniforms app !! "uEnvironment.specular"%string
         end.
Proof.
  cbv zeta.
  apply (update_then_render_uses_the_gui
           {| gui_albedo := Vec3 255 0 51; environment := INTERIOR |}
           (demo_app [PointLight (Vec3 3 3 3) (vec3s 1) 2]) 1 (demo_sphere 1)).
  - left. reflexivity.
  - repeat constructor.
  - reflexivity.
Defined.

(** A frame that runs to its end had recognised lights only. *)
Lemma render_done_recognised (app app' : Application) :
  render app = Done tt app' ->
  Forall (fun l => unrecognised l = false) (_lights app).
Proof.
  intros E.
  destruct (list_find (fun l => unrecognised l = true) (_lights app))
    as [[j l]|] eqn:Hf.
  - destruct (render_fails app j l Hf) as (message & app1 & E1 & _). congruence.
  - apply list_find_None in Hf.
    eapply Forall_impl; [exact Hf|]. intros l Hu. simpl in Hu.
    now destruct (unrecognised l).
Qed.

(** C5: a light that is neither a [PointLight] nor a [DirectionalLight]
    is fatal when [render] of the IBL host assembles the uniforms: the
    frame ends in an exception and no draw call is issued, so nothing is
    shaded with that light; when the key [uCamera.WsToCs] is absent or
    holds a matrix, the exception is "Unknown light type for light j."
    for the first such light, at an index [j] not after the light's own.
    In any frame that does reach its draw calls every light is of a known
    class, each draw call carries for it a type tag that the fragment
    shader knows, and for that tag [get_light_dir] takes the branch of
    that class, never the one that returns [vec3(0.0)]. *)
Theorem unrecognised_light_is_fatal_before_drawing
    (app : Application) (i : nat) (light : PonctualLight) :
  _lights app !! i = Some light ->
  unrecognised light = true ->
  (exists message app', render app = Thrown message app' /\ draws app' = draws app)
  /\ (_uniforms app !! "uCamera.WsToCs"%string = None
      \/ (exists w, _uniforms app !! "uCamera.WsToCs"%string = Some (UMat4 w)) ->
      exists j first app',
        list_find (fun l => unrecognised l = true) (_lights app) = Some (j, first)
        /\ (j <= i)%nat
        /\ render app = Thrown (unknown_light_message j) app'
        /\ draws app' = draws app)
  /\ (forall (frame frame' : Application) (k : nat) (s : SphereProperties)
             (i0 : nat) (light0 : PonctualLight),
        _uniforms frame !! "uCamera.WsToCs"%string = None
        \/ (exists w, _uniforms frame !! "uCamera.WsToCs"%string = Some (UMat4 w)) ->
        render frame = Done tt frame' ->
        _properties frame !! k = Some s ->
        _lights frame !! i0 = Some light0 ->
        unrecognised light0 = false
        /\ exists D U,
             draws frame' !! (List.length (draws frame) + k)%nat = Some (Draw D U)
             /\ U !! light_key i0 "type" = Some (UNumber (IZR (light_tag light0)))
             /\ (light_tag light0 = IblFrag.LIGHT_TYPE_DIRECTIONAL
                 \/ light_tag light0 = IblFrag.LIGHT_TYPE_POINT)
             /\ forall (uLight : IblFrag.LightProperties) (wsPosition : vec3),
                  IblFrag.type uLight = light_tag light0 ->
                  IblFrag.get_light_dir uLight wsPosition
                  = if instanceof_DirectionalLight light0
                    then normalize (IblFrag.direction uLight)
                    else normalize (vsub (IblFrag.position uLight) wsPosition)).
Proof.
  intros Hi Hu.
  assert (Hfirst : exists j first,
             list_find (fun l => unrecognised l = true) (_lights app) = Some (j, first)
             /\ (j <= i)%nat).
  { destruct (list_find (fun l => unrecognised l = true) (_lights app))
      as [[j first]|] eqn:Hf.
    - exists j, first. split; [reflexivity|].
      apply list_find_Some in Hf as (_ & _ & Hmin).
      destruct (le_lt_dec j i) as [Hle|Hlt]; [exact Hle|].
      elim (Hmin i light Hi Hlt). exact Hu.
    - apply list_find_None in Hf. rewrite Forall_forall in Hf.
      elim (Hf light); [|exact Hu]. eapply list_elem_of_lookup_2, Hi. }
  destruct Hfirst as (j & first & Hfind & Hji).
  split; [exact (render_fails app j first Hfind)|].
  split.
  { intros Hw. destruct (render_throws app j first Hw Hfind) as (app' & E & D).
    exists j, first, app'. auto. }
  intros frame frame' k s i0 light0 Hw E Hk Hi0.
  pose proof (render_done_recognised frame frame' E) as Hl.
  assert (Hrec : unrecognised light0 = false).
  { rewrite Forall_forall in Hl. apply Hl. eapply list_elem_of_lookup_2, Hi0. }
  split; [exact Hrec|].
  rewrite (render_done frame Hw Hl) in E. injection E as <-.
  destruct (frame_draw_nth frame k s Hk) as (U0 & Ed & Hother).
  pose proof (lights_uniforms_lookup (_lights frame) 0 (prelude_uniforms frame)
                i0 light0 Hi0 Hrec) as H.
  cbv zeta in H. rewrite Nat.add_0_l in H. fold (frame_uniforms frame) in H.
  destruct H as (Ht & _).
  exists (frame_defines frame), (with_sphere s U0).
  split; [exact Ed|]. split.
  { rewrite with_sphere_other, Hother
      by (apply light_key_not_sphere; discriminate). exact Ht. }
  destruct light0 as [d c n|p c n|c n]; [| |discriminate Hrec].
  - split; [left; reflexivity|]. intros uLight ws Etag.
    unfold IblFrag.get_light_dir. rewrite Etag. reflexivity.
  - split; [right; reflexivity|]. intros uLight ws Etag.
    unfold IblFrag.get_light_dir. rewrite Etag. reflexivity.
Qed.

Lemma unrecognised_light_is_fatal_before_drawing_witness :
  let app := demo_app [DirectionalLight (vec3s 1) (vec3s 1) 1; OtherLight (vec3s 1) 1] in
  exists message app', render app = Thrown message app' /\ draws app' = draws app.
Proof.
  cbv zeta.
  refine (proj1 (unrecognised_light_is_fatal_before_drawing
            (demo_app [DirectionalLight (vec3s 1) (vec3s 1) 1; OtherLight (vec3s 1) 1])
            1%nat (OtherLight (vec3s 1) 1) _ _)).
  - reflexivity.
  - reflexivity.
Defined.

End FrameTheorems.

(** ** What a frame of the base host draws *)

Section BaseFrames.
Import BaseHost.

Lemma base_draw_spheres_done (shader : PBRShader) (attrs : list SphereAttributes) :
  forall (context : list GLCall) (U : gmap string UniformValue),
  draw_spheres shader attrs context U
  = (context ++ List.map (Draw shader) (attr_maps attrs U),
     fold_left (fun u attr => with_attr attr u) attrs U).
Proof.
  induction attrs as [|attr rest IH]; intros context U.
  - cbn [draw_spheres attr_maps List.map fold_left]. now rewrite app_nil_r.
  - cbn [draw_spheres attr_maps List.map fold_left]. cbv zeta. rewrite IH.
    now rewrite <- app_assoc.
Qed.

(** A frame runs to its end when the two arrays that [render] writes in
    place are in the uniform map. *)
Lemma base_render_done (app : Application) (a0 : vec3) (w0 : mat4) :
  _uniforms app !! "uAttributes.albedo"%string = Some (UVec3 a0) ->
  _uniforms app !! "uCamera.WsToCs"%string = Some (UMat4 w0) ->
  render app = Done (after_frame app).
Proof.
  intros Ha Hw. unfold render. cbv zeta. rewrite Ha. cbn [vec3_set].
  rewrite lookup_insert_ne by discriminate. rewrite Hw. cbn [mat4_multiply].
  rewrite base_draw_spheres_done. reflexivity.
Qed.

Lemma base_with_attr_other (attr : SphereAttributes)
    (U : gmap string UniformValue) (k : string) :
  k <> "uAttributes.position"%string -> k <> "uAttributes.metallic"%string ->
  k <> "uAttributes.roughness"%string ->
  with_attr attr U !! k = U !! k.
Proof.
  intros H1 H2 H3. unfold with_attr.
  rewrite !lookup_insert_ne by (intros E; symmetry in E; contradiction).
  reflexivity.
Qed.

Lemma base_with_attr_lookup (attr : SphereAttributes) (U : gmap string UniformValue) :
  with_attr attr U !! "uAttributes.position"%string = Some (UVec3 (position attr))
  /\ with_attr attr U !! "uAttributes.metallic"%string = Some (UNumber (metallic attr))
  /\ with_attr attr U !! "uAttributes.roughness"%string
     = Some (UNumber (roughness attr)).
Proof.
  unfold with_attr. repeat split.
  - rewrite !lookup_insert_ne by discriminate. apply lookup_insert_eq.
  - rewrite lookup_insert_ne by discriminate. apply lookup_insert_eq.
  - apply lookup_insert_eq.
Qed.

Lemma base_fold_other (attrs : list SphereAttributes) :
  forall (U : gmap string UniformValue) (k : string),
  k <> "uAttributes.position"%string -> k <> "uAttributes.metallic"%string ->
  k <> "uAttributes.roughness"%string ->
  fold_left (fun u attr => with_attr attr u) attrs U !! k = U !! k.
Proof.
  induction attrs as [|attr rest IH]; intros U k H1 H2 H3; [reflexivity|].
  cbn [fold_left]. rewrite IH by assumption. now apply base_with_attr_other.
Qed.

Lemma attr_maps_nth (attrs : list SphereAttributes) :
  forall (U : gmap string UniformValue) (k : nat) (attr : SphereAttributes),
  attrs !! k = Some attr ->
  exists U0,
    attr_maps attrs U !! k = Some (with_attr attr U0)
    /\ forall key,
         key <> "uAttributes.position"%string ->
         key <> "uAttributes.metallic"%string ->
         key <> "uAttributes.roughness"%string ->
         U0 !! key = U !! key.
Proof.
  induction attrs as [|a0 rest IH]; intros U k attr Hk; [discriminate Hk|].
  destruct k as [|k].
  - injection Hk as ->. exists U. split; [reflexivity|auto].
  - destruct (IH (with_attr a0 U) k attr Hk) as (U0 & E & Hother).
    exists U0. split; [exact E|].
    intros key H1 H2 H3. rewrite Hother by assumption.
    now apply base_with_attr_other.
Qed.

Lemma attr_maps_length (attrs : list SphereAttributes) :
  forall U, List.length (attr_maps attrs U) = List.length attrs.
Proof. induction attrs as [|a rest IH]; intros U; simpl; [reflexivity|now rewrite IH]. Qed.

Lemma base_filter_draws (shader : PBRShader) (maps : list (gmap string UniformValue)) :
  List.filter is_draw (List.map (Draw shader) maps) = List.map (Draw shader) maps.
Proof. induction maps as [|U rest IH]; simpl; [reflexivity|now rewrite IH]. Qed.

Lemma base_draws_after_frame (app : Application) :
  draws (after_frame app)
  = draws app ++ List.map (Draw (frame_shader app))
                   (attr_maps (_sphere_attibutes app) (frame_uniforms app)).
Proof.
  unfold draws, after_frame. cbn [_context].
  rewrite !List.filter_app, base_filter_draws. cbn [List.filter is_draw].
  now rewrite app_nil_r.
Qed.

Lemma base_light_uniforms_other (i : nat) (l : IblHost.PonctualLight)
    (U : gmap string UniformValue) (k : string) :
  (forall f, k <> IblApp.light_key i f) -> light_uniforms i l U !! k = U !! k.
Proof.
  intros Hk. unfold light_uniforms. cbv zeta.
  destruct (IblHost.instanceof_DirectionalLight l); rewrite !lookup_insert_ne; auto.
Qed.

Lemma base_lights_uniforms_other (lights : list IblHost.PonctualLight) :
  forall (i : nat) (U : gmap string UniformValue) (k : string),
  IblApp.not_light_key_from i k -> lights_uniforms i lights U !! k = U !! k.
Proof.
  induction lights as [|l rest IH]; intros i U k Hk; [reflexivity|].
  cbn [lights_uniforms]. rewrite IH.
  - apply base_light_uniforms_other. intros f. apply Hk. lia.
  - intros j f Hj. apply Hk. lia.
Qed.

(** The tag and the vector that the base host uploads for a light. *)
Lemma base_light_uniforms_lookup (i : nat) (l : IblHost.PonctualLight)
    (U : gmap string UniformValue) :
  let U' := light_uniforms i l U in
  U' !! IblApp.light_key i "type"
  = Some (UNumber (Num (IZR (if IblHost.instanceof_DirectionalLight l
                             then LightType_value DIRECTIONAL
                             else LightType_value POINT))))
  /\ U' !! IblApp.light_key i "position"
     = Some (if IblHost.instanceof_DirectionalLight l
             then directionWS_of l else positionWS_of l)
  /\ U' !! IblApp.light_key i "color" = Some (UVec3 (IblHost.light_color l))
  /\ U' !! IblApp.light_key i "intensity"
     = Some (UNumber (Num (IblHost.light_intensity l))).
Proof.
  cbv zeta. unfold light_uniforms. cbv zeta.
  destruct (IblHost.instanceof_DirectionalLight l); repeat split.
  all: rewrite ?lookup_insert_eq; try reflexivity.
  all: rewrite lookup_insert_ne by (apply light_key_field_ne; discriminate).
  all: rewrite ?lookup_insert_eq; try reflexivity.
  all: rewrite lookup_insert_ne by (apply light_key_field_ne; discriminate).
  all: rewrite ?lookup_insert_eq; try reflexivity.
  all: rewrite lookup_insert_ne by (apply light_key_field_ne; discriminate).
  all: rewrite ?lookup_insert_eq; reflexivity.
Qed.

Lemma base_lights_uniforms_lookup (lights : list IblHost.PonctualLight) :
  forall (i : nat) (U : gmap string UniformValue) (j : nat) (l : IblHost.PonctualLight),
  lights !! j = Some l ->
  let U' := lights_uniforms i lights U in
  U' !! IblApp.light_key (i + j) "type"
  = Some (UNumber (Num (IZR (if IblHost.instanceof_DirectionalLight l
                             then LightType_value DIRECTIONAL
                             else LightType_value POINT))))
  /\ U' !! IblApp.light_key (i + j) "position"
     = Some (if IblHost.instanceof_DirectionalLight l
             then directionWS_of l else positionWS_of l)
  /\ U' !! IblApp.light_key (i + j) "color" = Some (UVec3 (IblHost.light_color l))
  /\ U' !! IblApp.light_key (i + j) "intensity"
     = Some (UNumber (Num (IblHost.light_intensity l))).
Proof.
  induction lights as [|l0 rest IH]; intros i U j l Hj; [discriminate Hj|].
  destruct j as [|j].
  - injection Hj as ->. cbv zeta. cbn [lights_uniforms]. rewrite Nat.add_0_r.
    pose proof (base_light_uniforms_lookup i l U) as H. cbv zeta in H.
    destruct H as (Ht & Hp & Hc & Hi).
    rewrite !base_lights_uniforms_other by (apply light_key_from_later; lia).
    repeat split; assumption.
  - cbn [lights_uniforms]. replace (i + S j)%nat with (S i + j)%nat by lia.
    now apply IH.
Qed.

(** The draw call of the sphere at index [k] in a frame that runs to its
    end. *)
Lemma base_frame_draw_nth (app : Application) (k : nat) (attr : SphereAttributes) :
  _sphere_attibutes app !! k = Some attr ->
  exists U0,
    draws (after_frame app) !! (List.length (draws app) + k)%nat
    = Some (Draw (frame_shader app) (with_attr attr U0))
    /\ forall key,
         key <> "uAttributes.position"%string ->
         key <> "uAttributes.metallic"%string ->
         key <> "uAttributes.roughness"%string ->
         U0 !! key = frame_uniforms app !! key.
Proof.
  intros Hk.
  destruct (attr_maps_nth _ (frame_uniforms app) k attr Hk) as (U0 & E & Hother).
  exists U0. split; [|exact Hother].
  rewrite base_draws_after_frame, lookup_app_r by lia.
  replace (List.length (draws app) + k - List.length (draws app))%nat with k by lia.
  now apply (map_lookup_Some (Draw (frame_shader app))).
Qed.

Lemma base_frame_uniforms_fixed (app : Application) :
  frame_uniforms app !! "uAttributes.albedo"%string
  = Some (UVec3 (vdivs (gui_albedo (_guiProperties app)) 255))
  /\ frame_uniforms app !! "uCamera.WsToCs"%string
     = Some (UMat4 (IblHost.WsToCs (_camera app)))
  /\ frame_uniforms app !! "uCamera.position"%string
     = Some (UVec3 (IblHost.position (_camera app))).
Proof.
  unfold frame_uniforms. repeat split.
  all: rewrite base_lights_uniforms_other by (apply not_light_key; discriminate).
  - rewrite !lookup_insert_ne by discriminate. apply lookup_insert_eq.
  - rewrite lookup_insert_ne by discriminate. apply lookup_insert_eq.
  - apply lookup_insert_eq.
Qed.

(** The base host's [render] cannot fail once the constructor has put a
    [vec3] under [uAttributes.albedo] and a [mat4] under [uCamera.WsToCs]:
    whatever the lights (of an unknown class too), the frame runs to its
    end, adds one draw call per sphere, and leaves a [vec3] and a [mat4]
    under the two keys, so that the next frame runs to its end as well. *)
Theorem base_render_never_throws (app : Application) (a0 : vec3) (w0 : mat4) :
  _uniforms app !! "uAttributes.albedo"%string = Some (UVec3 a0) ->
  _uniforms app !! "uCamera.WsToCs"%string = Some (UMat4 w0) ->
  exists app' new,
    render app = Done app'
    /\ draws app' = draws app ++ new
    /\ List.length new = List.length (_sphere_attibutes app)
    /\ _uniforms app' !! "uAttributes.albedo"%string
       = Some (UVec3 (vdivs (gui_albedo (_guiProperties app)) 255))
    /\ _uniforms app' !! "uCamera.WsToCs"%string
       = Some (UMat4 (IblHost.WsToCs (_camera app)))
    /\ _sphere_attibutes app' = _sphere_attibutes app
    /\ _lights app' = _lights app
    /\ exists app'', render app' = Done app''.
Proof.
  intros Ha Hw.
  destruct (base_frame_uniforms_fixed app) as (Fa & Fw & _).
  assert (Ha' : _uniforms (after_frame app) !! "uAttributes.albedo"%string
                = Some (UVec3 (vdivs (gui_albedo (_guiProperties app)) 255))).
  { unfold after_frame. cbn [_uniforms].
    rewrite base_fold_other by discriminate. exact Fa. }
  assert (Hw' : _uniforms (after_frame app) !! "uCamera.WsToCs"%string
                = Some (UMat4 (IblHost.WsToCs (_camera app)))).
  { unfold after_frame. cbn [_uniforms].
    rewrite base_fold_other by discriminate. exact Fw. }
  exists (after_frame app),
    (List.map (Draw (frame_shader app))
       (attr_maps (_sphere_attibutes app) (frame_uniforms app))).
  split; [exact (base_render_done app a0 w0 Ha Hw)|].
  split; [apply base_draws_after_frame|].
  split; [now rewrite List.length_map, attr_maps_length|].
  split; [exact Ha'|]. split; [exact Hw'|].
  split; [reflexivity|]. split; [reflexivity|].
  exists (after_frame (after_frame app)).
  exact (base_render_done _ _ _ Ha' Hw').
Qed.

Lemma base_render_never_throws_witness :
  let app := demo_app [IblHost.OtherLight (vec3s 1) 1] in
  exists app' new,
    render app = Done app'
    /\ draws app' = draws app ++ new
    /\ List.length new = List.length (_sphere_attibutes app)
    /\ _uniforms app' !! "uAttributes.albedo"%string
       = Some (UVec3 (vdivs (gui_albedo (_guiProperties app)) 255))
    /\ _uniforms app' !! "uCamera.WsToCs"%string
       = Some (UMat4 (IblHost.WsToCs (_camera app)))
    /\ _sphere_attibutes app' = _sphere_attibutes app
    /\ _lights app' = _lights app
    /\ exists app'', render app' = Done app''.
Proof.
  cbv zeta.
  apply (base_render_never_throws (demo_app [IblHost.OtherLight (vec3s 1) 1])
           (Vec3 0 0 0) mat4_create).
  - reflexivity.
  - reflexivity.
Defined.

(** In a frame of the base host, the draw call of each sphere is given
    that sphere's position, metallic and roughness, and the camera of the
    frame; the albedo it is given is the colour of the picker divided by
    255 for every sphere: the albedo stored with the sphere is not used. *)
Theorem base_render_draws_each_sphere (app : Application) (a0 : vec3) (w0 : mat4)
    (k : nat) (attr : SphereAttributes) :
  _uniforms app !! "uAttributes.albedo"%string = Some (UVec3 a0) ->
  _uniforms app !! "uCamera.WsToCs"%string = Some (UMat4 w0) ->
  _sphere_attibutes app !! k = Some attr ->
  exists app' shader U,
    render app = Done app'
    /\ draws app' !! (List.length (draws app) + k)%nat = Some (Draw shader U)
    /\ U !! "uAttributes.position"%string = Some (UVec3 (position attr))
    /\ U !! "uAttributes.metallic"%string = Some (UNumber (metallic attr))
    /\ U !! "uAttributes.roughness"%string = Some (UNumber (roughness attr))
    /\ U !! "uAttributes.albedo"%string
       = Some (UVec3 (vdivs (gui_albedo (_guiProperties app)) 255))
    /\ U !! "uCamera.WsToCs"%string = Some (UMat4 (IblHost.WsToCs (_camera app)))
    /\ U !! "uCamera.position"%string = Some (UVec3 (IblHost.position (_camera app))).
Proof.
  intros Ha Hw Hk.
  destruct (base_frame_draw_nth app k attr Hk) as (U0 & E & Hother).
  destruct (base_with_attr_lookup attr U0) as (H1 & H2 & H3).
  destruct (base_frame_uniforms_fixed app) as (Fa & Fw & Fp).
  exists (after_frame app), (frame_shader app), (with_attr attr U0).
  split; [exact (base_render_done app a0 w0 Ha Hw)|]. split; [exact E|].
  repeat split; try assumption.
  - rewrite base_with_attr_other, Hother by discriminate. exact Fa.
  - rewrite base_with_attr_other, Hother by discriminate. exact Fw.
  - rewrite base_with_attr_other, Hother by discriminate. exact Fp.
Qed.

Lemma base_render_draws_each_sphere_witness :
  let app := demo_app [IblHost.PointLight (Vec3 3 3 3) (vec3s 1) 1] in
  exists app' shader U,
    render app = Done app'
    /\ draws app' !! (List.length (draws app) + 1)%nat = Some (Draw shader U)
    /\ U !! "uAttributes.position"%string = Some (UVec3 (position (spawned 2 0 1)))
    /\ U !! "uAttributes.metallic"%string = Some (UNumber (metallic (spawned 2 0 1)))
    /\ U !! "uAttributes.roughness"%string = Some (UNumber (roughness (spawned 2 0 1)))
    /\ U !! "uAttributes.albedo"%string
       = Some (UVec3 (vdivs (gui_albedo (_guiProperties app)) 255))
    /\ U !! "uCamera.WsToCs"%string = Some (UMat4 (IblHost.WsToCs (_camera app)))
    /\ U !! "uCamera.position"%string = Some (UVec3 (IblHost.position (_camera app))).
Proof.
  cbv zeta.
  apply (base_render_draws_each_sphere
           (demo_app [IblHost.PointLight (Vec3 3 3 3) (vec3s 1) 1])
           (Vec3 0 0 0) mat4_create 1 (spawned 2 0 1)).
  - reflexivity.
  - reflexivity.
  - reflexivity.
Defined.

(** The base host and the base fragment shader agree on the lights: in
    every draw call of a frame, the light at index [j] has the tag that
    the shader compares with, [LIGHT_TYPE_DIRECTIONAL] for a
    [DirectionalLight] and [LIGHT_TYPE_POINT] for any other light, and
    under [uLights[j].position] its direction or its position, from which
    [getLightDirection] makes the normalised direction, or the normalised
    vector from the fragment to the light placed relative to the sphere;
    the two counts of the shader add up to the number of lights when no
    light is of an unknown class. *)
Theorem base_render_lights_match_the_shader (app : Application) (a0 : vec3) (w0 : mat4)
    (k : nat) (attr : SphereAttributes) (j : nat) (l : IblHost.PonctualLight) :
  _uniforms app !! "uAttributes.albedo"%string = Some (UVec3 a0) ->
  _uniforms app !! "uCamera.WsToCs"%string = Some (UMat4 w0) ->
  _sphere_attibutes app !! k = Some attr ->
  _lights app !! j = Some l ->
  exists app' shader U tag,
    render app = Done app'
    /\ draws app' !! (List.length (draws app) + k)%nat = Some (Draw shader U)
    /\ U !! IblApp.light_key j "type" = Some (UNumber (Num (IZR tag)))
    /\ U !! IblApp.light_key j "color" = Some (UVec3 (IblHost.light_color l))
    /\ U !! IblApp.light_key j "intensity"
       = Some (UNumber (Num (IblHost.light_intensity l)))
    /\ match l with
       | IblHost.DirectionalLight d c i =>
           tag = BaseFrag.LIGHT_TYPE_DIRECTIONAL
           /\ U !! IblApp.light_key j "position" = Some (UVec3 d)
           /\ forall uAttributes vWsPosition,
                BaseFrag.getLightDirection uAttributes vWsPosition
                  {| BaseFrag.type := tag; BaseFrag.position := d;
                     BaseFrag.color := c; BaseFrag.intensity := i |}
                = normalize d
       | IblHost.PointLight p c i =>
           tag = BaseFrag.LIGHT_TYPE_POINT
           /\ U !! IblApp.light_key j "position" = Some (UVec3 p)
           /\ forall uAttributes vWsPosition,
                BaseFrag.getLightDirection uAttributes vWsPosition
                  {| BaseFrag.type := tag; BaseFrag.position := p;
                     BaseFrag.color := c; BaseFrag.intensity := i |}
                = normalize (vsub (vadd p (BaseFrag.attr_position uAttributes))
                               vWsPosition)
       | IblHost.OtherLight _ _ =>
           tag = BaseFrag.LIGHT_TYPE_POINT
           /\ U !! IblApp.light_key j "position" = Some UUndefined
       end
    /\ (directionalLightCount shader + pointLightCount shader
        <= List.length (_lights app))%nat
    /\ (Forall (fun l => IblHost.unrecognised l = false) (_lights app) ->
        BaseFrag.LIGHT_COUNT
          {| BaseFrag.DIRECTIONAL_LIGHT_COUNT := directionalLightCount shader;
             BaseFrag.POINT_LIGHT_COUNT := pointLightCount shader |}
        = List.length (_lights app)).
Proof.
  intros Ha Hw Hk Hj.
  destruct (base_frame_draw_nth app k attr Hk) as (U0 & E & Hother).
  pose proof (base_lights_uniforms_lookup (_lights app) 0
                (<["uCamera.position"%string := UVec3 (IblHost.position (_camera app))]>
                   (<["uCamera.WsToCs"%string := UMat4 (IblHost.WsToCs (_camera app))]>
                      (<["uAttributes.albedo"%string :=
                           UVec3 (vdivs (gui_albedo (_guiProperties app)) 255)]>
                         (_uniforms app)))) j l Hj) as HL.
  cbv zeta in HL. rewrite Nat.add_0_l in HL.
  fold (frame_uniforms app) in HL. destruct HL as (Ht & Hp & Hc & Hi).
  assert (Hkey : forall f,
             with_attr attr U0 !! IblApp.light_key j f
             = frame_uniforms app !! IblApp.light_key j f).
  { intros f.
    rewrite base_with_attr_other, Hother
      by (apply light_key_not_sphere; discriminate).
    reflexivity. }
  exists (after_frame app), (frame_shader app), (with_attr attr U0),
    (if IblHost.instanceof_DirectionalLight l
     then LightType_value DIRECTIONAL else LightType_value POINT).
  split; [exact (base_render_done app a0 w0 Ha Hw)|]. split; [exact E|].
  rewrite !Hkey.
  split; [exact Ht|]. split; [exact Hc|]. split; [exact Hi|].
  split.
  { destruct l as [d c i|p c i|c i]; cbn [IblHost.instanceof_DirectionalLight] in *.
    - split; [reflexivity|]. split; [exact Hp|]. reflexivity.
    - split; [reflexivity|]. split; [exact Hp|]. reflexivity.
    - split; [reflexivity|exact Hp]. }
  unfold frame_shader. cbn [directionalLightCount pointLightCount].
  split.
  - generalize (_lights app). intros ls. induction ls as [|x ls IH]; [simpl; lia|].
    destruct x; simpl; lia.
  - intros Hl. unfold BaseFrag.LIGHT_COUNT.
    cbn [BaseFrag.DIRECTIONAL_LIGHT_COUNT BaseFrag.POINT_LIGHT_COUNT].
    now apply count_recognised.
Qed.

Lemma base_render_lights_match_the_shader_witness :
  let l := IblHost.DirectionalLight (Vec3 0 0 1) (vec3s 1) 1 in
  let app := demo_app [IblHost.PointLight (Vec3 3 3 3) (vec3s 1) 1; l] in
  exists app' shader U tag,
    render app = Done app'
    /\ draws app' !! (List.length (draws app) + 0)%nat = Some (Draw shader U)
    /\ U !! IblApp.light_key 1 "type" = Some (UNumber (Num (IZR tag)))
    /\ U !! IblApp.light_key 1 "color" = Some (UVec3 (IblHost.light_color l))
    /\ U !! IblApp.light_key 1 "intensity"
       = Some (UNumber (Num (IblHost.light_intensity l)))
    /\ (tag = BaseFrag.LIGHT_TYPE_DIRECTIONAL
        /\ U !! IblApp.light_key 1 "position" = Some (UVec3 (Vec3 0 0 1))
        /\ forall uAttributes vWsPosition,
             BaseFrag.getLightDirection uAttributes vWsPosition
               {| BaseFrag.type := tag; BaseFrag.position := Vec3 0 0 1;
                  BaseFrag.color := vec3s 1; BaseFrag.intensity := 1 |}
             = normalize (Vec3 0 0 1))
    /\ (directionalLightCount shader + pointLightCount shader
        <= List.length (_lights app))%nat
    /\ (Forall (fun l => IblHost.unrecognised l = false) (_lights app) ->
        BaseFrag.LIGHT_COUNT
          {| BaseFrag.DIRECTIONAL_LIGHT_COUNT := directionalLightCount shader;
             BaseFrag.POINT_LIGHT_COUNT := pointLightCount shader |}
        = List.length (_lights app)).
Proof.
  cbv zeta.
  apply (base_render_lights_match_the_shader
           (demo_app [IblHost.PointLight (Vec3 3 3 3) (vec3s 1) 1;
                      IblHost.DirectionalLight (Vec3 0 0 1) (vec3s 1) 1])
           (Vec3 0 0 0) mat4_create 0 (spawned 2 0 0) 1
           (IblHost.DirectionalLight (Vec3 0 0 1) (vec3s 1) 1)).
  - reflexivity.
  - reflexivity.
  - reflexivity.
  - reflexivity.
Defined.

End BaseFrames.

(** ** The grid of spheres of the base host *)

Section SphereGrid.
Import BaseHost.

Lemma grid_length {A : Type} (f : nat -> nat -> A) (k : nat) :
  forall n s,
  List.length (List.flat_map (fun i => List.map (f i) (List.seq 0 k)) (List.seq s n))
  = (n * k)%nat.
Proof.
  induction n as [|n IH]; intros s; [reflexivity|].
  cbn [List.seq List.flat_map].
  rewrite List.length_app, List.length_map, List.length_seq, IH. lia.
Qed.

Lemma grid_lookup {A : Type} (f : nat -> nat -> A) (k : nat) :
  forall n s i j, (i < n)%nat -> (j < k)%nat ->
  List.flat_map (fun i => List.map (f i) (List.seq 0 k)) (List.seq s n)
    !! (i * k + j)%nat
  = Some (f (s + i)%nat j).
Proof.
  induction n as [|n IH]; intros s i j Hi Hj; [lia|].
  cbn [List.seq List.flat_map].
  destruct i as [|i].
  - rewrite lookup_app_l by (rewrite List.length_map, List.length_seq; lia).
    rewrite Nat.add_0_r. cbn [Nat.mul Nat.add].
    apply map_lookup_Some. now apply lookup_seq_lt.
  - rewrite lookup_app_r by (rewrite List.length_map, List.length_seq; lia).
    rewrite List.length_map, List.length_seq.
    replace (S i * k + j - k)%nat with (i * k + j)%nat by lia.
    rewrite IH by lia. f_equal. f_equal. lia.
Qed.

(** A loop bounded by a whole number runs that many times. *)
Lemma iterations_whole (m : nat) : iterations (INR m) = m.
Proof.
  unfold iterations.
  assert (E : up (- INR m) = (1 - Z.of_nat m)%Z).
  { symmetry. apply tech_up; rewrite minus_IZR, <- INR_IZR_INZ; lra. }
  rewrite E. lia.
Qed.


Lemma spawned_position (n : R) (i j : nat) :
  n <> 0 ->
  position (spawned n i j) = Vec3 (1.1 * INR i - 0.55 * n) (1.1 * INR j - 0.55 * n) 0.
Proof.
  intros Hn. unfold spawned. cbv zeta. cbn [position].
  unfold vscale, vadd, vzip, vmap. cbn [vx vy vz].
  f_equal; decimals; field; exact Hn.
Qed.

Lemma spawnSpheres_lookup (n : R) (i j : nat) :
  (i < iterations n)%nat -> (j < iterations n)%nat ->
  _spawnSpheres n !! (i * iterations n + j)%nat = Some (spawned n i j).
Proof.
  intros Hi Hj. unfold _spawnSpheres.
  exact (grid_lookup (spawned n) (iterations n) (iterations n) 0 i j Hi Hj).
Qed.

Lemma spawnSpheres_length (n : R) :
  List.length (_spawnSpheres n) = (iterations n * iterations n)%nat.
Proof. unfold _spawnSpheres. apply grid_length. Qed.

(** Every element of the grid is the attribute of a row and a column. *)
Lemma spawnSpheres_inv (n : R) (a : nat) (s : SphereAttributes) :
  _spawnSpheres n !! a = Some s ->
  exists i j, (i < iterations n)%nat /\ (j < iterations n)%nat
              /\ a = (i * iterations n + j)%nat /\ s = spawned n i j.
Proof.
  intros Ha.
  assert (Hlt : (a < iterations n * iterations n)%nat).
  { rewrite <- spawnSpheres_length. now apply lookup_lt_Some with s. }
  set (k := iterations n) in *.
  assert (Hk : (0 < k)%nat) by (destruct k; lia).
  exists (a / k)%nat, (a mod k)%nat.
  assert (Hi : (a / k < k)%nat) by (apply Nat.Div0.div_lt_upper_bound; lia).
  assert (Hj : (a mod k < k)%nat) by (apply Nat.mod_upper_bound; lia).
  assert (Ea : a = (a / k * k + a mod k)%nat).
  { rewrite (Nat.div_mod_eq a k) at 1. lia. }
  repeat split; try assumption.
  pose proof (spawnSpheres_lookup n (a / k) (a mod k) Hi Hj) as E.
  fold k in E. rewrite <- Ea in E. congruence.
Qed.

(** [_spawnSpheres] with a whole number [m >= 2]: the grid has [m * m]
    spheres; the sphere of row [i] and column [j] sits at
    [(1.1 i - 0.55 m, 1.1 j - 0.55 m, 0)], is white, and has the metallic
    [i / (m - 1)] and the roughness [j / (m - 1)], both finite and in
    [[0, 1]]. *)
Theorem spawnSpheres_whole_grid (m i j : nat) :
  (2 <= m)%nat -> (i < m)%nat -> (j < m)%nat ->
  List.length (_spawnSpheres (INR m)) = (m * m)%nat
  /\ exists mt r,
       _spawnSpheres (INR m) !! (i * m + j)%nat
       = Some {| position := Vec3 (1.1 * INR i - 0.55 * INR m)
                               (1.1 * INR j - 0.55 * INR m) 0;
                 albedo := Vec3 1 1 1;
                 metallic := Num mt; roughness := Num r |}
       /\ mt = INR i / (INR m - 1) /\ 0 <= mt <= 1
       /\ r = INR j / (INR m - 1) /\ 0 <= r <= 1.
Proof.
  intros Hm Hi Hj.
  assert (HM : 2 <= INR m) by (apply (le_INR 2); exact Hm).
  assert (Hden : 0 < INR m - 1) by lra.
  assert (HI : 0 <= INR i <= INR m - 1).
  { split; [apply pos_INR|].
    assert (C : (S i <= m)%nat) by lia. apply le_INR in C. rewrite S_INR in C. lra. }
  assert (HJ : 0 <= INR j <= INR m - 1).
  { split; [apply pos_INR|].
    assert (C : (S j <= m)%nat) by lia. apply le_INR in C. rewrite S_INR in C. lra. }
  split; [rewrite spawnSpheres_length, iterations_whole; reflexivity|].
  exists (INR i / (INR m - 1)), (INR j / (INR m - 1)).
  split.
  - pose proof (spawnSpheres_lookup (INR m) i j) as E.
    rewrite iterations_whole in E. rewrite E by assumption. f_equal.
    pose proof (spawned_position (INR m) i j ltac:(lra)) as P.
    unfold spawned in *. cbv zeta in *. cbn [position] in P. rewrite P.
    unfold js_div. destruct (Req_dec_T (INR m - 1) 0) as [E0|_]; [lra|].
    reflexivity.
  - repeat split; try reflexivity.
    + apply Rmult_le_pos; [lra|]. apply Rlt_le, Rinv_0_lt_compat, Hden.
    + apply (Rmult_le_reg_r (INR m - 1)); [exact Hden|]. field_simplify; lra.
    + apply Rmult_le_pos; [lra|]. apply Rlt_le, Rinv_0_lt_compat, Hden.
    + apply (Rmult_le_reg_r (INR m - 1)); [exact Hden|]. field_simplify; lra.
Qed.

Lemma spawnSpheres_whole_grid_witness :
  List.length (_spawnSpheres (INR 5)) = (5 * 5)%nat
  /\ exists mt r,
       _spawnSpheres (INR 5) !! (4 * 5 + 2)%nat
       = Some {| position := Vec3 (1.1 * INR 4 - 0.55 * INR 5)
                               (1.1 * INR 2 - 0.55 * INR 5) 0;
                 albedo := Vec3 1 1 1;
                 metallic := Num mt; roughness := Num r |}
       /\ mt = INR 4 / (INR 5 - 1) /\ 0 <= mt <= 1
       /\ r = INR 2 / (INR 5 - 1) /\ 0 <= r <= 1.
Proof. apply (spawnSpheres_whole_grid 5 4 2); lia. Defined.

(** The spheres of a grid do not touch: two different elements of the
    list that [_spawnSpheres] builds for a positive bound are at least
    1.1 apart along the x axis or along the y axis, more than the
    diameter 1 of the sphere geometry. *)
Theorem spawnSpheres_spheres_are_apart (n : R) (a b : nat) (s t : SphereAttributes) :
  0 < n -> a <> b ->
  _spawnSpheres n !! a = Some s -> _spawnSpheres n !! b = Some t ->
  1.1 <= Rabs (vx (position s) - vx (position t))
  \/ 1.1 <= Rabs (vy (position s) - vy (position t)).
Proof.
  intros Hn Hab Ha Hb.
  apply spawnSpheres_inv in Ha as (i & j & Hi & Hj & -> & ->).
  apply spawnSpheres_inv in Hb as (i' & j' & Hi' & Hj' & -> & ->).
  rewrite !spawned_position by lra. cbn [vx vy].
  assert (Hd : forall p q : nat, p <> q -> 1.1 <= Rabs (1.1 * INR p - 0.55 * n
                                                      - (1.1 * INR q - 0.55 * n))).
  { intros p q Hpq.
    assert (C : (S p <= q \/ S q <= p)%nat) by lia.
    destruct C as [C|C]; apply le_INR in C; rewrite S_INR in C.
    - rewrite Rabs_left by lra. lra.
    - rewrite Rabs_right by lra. lra. }
  destruct (Nat.eq_dec i i') as [->|Hii].
  - right. apply Hd. intros ->. now apply Hab.
  - left. now apply Hd.
Qed.

Lemma spawnSpheres_spheres_are_apart_witness :
  1.1 <= Rabs (vx (position (spawned (INR 5) 0 3))
               - vx (position (spawned (INR 5) 1 3)))
  \/ 1.1 <= Rabs (vy (position (spawned (INR 5) 0 3))
                  - vy (position (spawned (INR 5) 1 3))).
Proof.
  apply (spawnSpheres_spheres_are_apart (INR 5) 3 8
           (spawned (INR 5) 0 3) (spawned (INR 5) 1 3)).
  - simpl. lra.
  - lia.
  - pose proof (spawnSpheres_lookup (INR 5) 0 3) as E.
    rewrite iterations_whole in E. apply E; lia.
  - pose proof (spawnSpheres_lookup (INR 5) 1 3) as E.
    rewrite iterations_whole in E. apply E; lia.
Defined.




(** [_spawnLights] makes as many lights as asked for; each of them is a
    [PointLight], white, of intensity 1, at height -6 and at distance 20
    from the z axis. *)
Theorem spawnLights_on_a_circle (numberOfLights i : nat) :
  (i < numberOfLights)%nat ->
  List.length (_spawnLights numberOfLights) = numberOfLights
  /\ exists x y,
       _spawnLights numberOfLights !! i
       = Some (IblHost.PointLight (Vec3 x y (- 6)) (Vec3 1 1 1) 1)
       /\ x * x + y * y = 20 * 20.
Proof.
  intros Hi. unfold _spawnLights. cbv zeta.
  split; [now rewrite List.length_map, List.length_seq|].
  exists (cos (INR i / INR numberOfLights * 2 * Rtrigo1.PI) * 20),
    (sin (INR i / INR numberOfLights * 2 * Rtrigo1.PI) * 20).
  split.
  - exact (map_lookup_Some
             (fun i =>
                IblHost.PointLight
                  (Vec3 (cos (INR i / INR numberOfLights * 2 * Rtrigo1.PI) * 20)
                     (sin (INR i / INR numberOfLights * 2 * Rtrigo1.PI) * 20) (- 6))
                  (Vec3 1 1 1) 1)
             (List.seq 0 numberOfLights) i i (lookup_seq_lt 0 numberOfLights i Hi)).
  - pose proof (sin2_cos2 (INR i / INR numberOfLights * 2 * Rtrigo1.PI)) as T.
    unfold Rsqr in T. nra.
Qed.

Lemma spawnLights_on_a_circle_witness :
  List.length (_spawnLights 4) = 4%nat
  /\ exists x y,
       _spawnLights 4 !! 1%nat
       = Some (IblHost.PointLight (Vec3 x y (- 6)) (Vec3 1 1 1) 1)
       /\ x * x + y * y = 20 * 20.
Proof. apply (spawnLights_on_a_circle 4 1). lia. Defined.

End SphereGrid.

(** ** What a frame of the single-sphere host draws *)

Section TemplateFrames.
Import TemplateHost.

Lemma template_light_key_inj (i j : nat) (f g : string) :
  light_key i f = light_key j g -> i = j /\ f = g.
Proof.
  unfold light_key. rewrite !string_app_assoc.
  intros E. apply String.app_inj in E.
  rewrite !append_cons, !append_nil in E.
  apply bracket_split in E; try apply pretty_nat_no_bracket.
  destruct E as [Ep Er]. split; [now apply pretty_nat_inj|].
  now injection Er.
Qed.

Lemma template_light_key_head (i : nat) (f : string) :
  exists rest, light_key i f = String "l" rest.
Proof. unfold light_key. rewrite !string_app_assoc, !append_cons. eauto. Qed.

Lemma template_light_key_ne (i : nat) (f : string) (k : string) :
  (forall rest, k <> String "l" rest) -> light_key i f <> k.
Proof.
  intros Hk E. destruct (template_light_key_head i f) as (rest & Er).
  rewrite Er in E. now apply (Hk rest).
Qed.

Lemma template_key_ne_light (k : string) (j : nat) (f : string) :
  (forall rest, k <> String "l" rest) -> k <> light_key j f.
Proof. intros Hk E. symmetry in E. revert E. now apply template_light_key_ne. Qed.

Lemma template_light_uniforms_other (i : nat) (l : IblHost.PonctualLight)
    (U : gmap string IblHost.UniformValue) (k : string) :
  (forall f, k <> light_key i f) -> light_uniforms i l U !! k = U !! k.
Proof.
  intros Hk. unfold light_uniforms.
  destruct l; rewrite ?lookup_insert_ne; auto.
Qed.

Lemma template_lights_uniforms_other (lights : list IblHost.PonctualLight) :
  forall (i : nat) (U : gmap string IblHost.UniformValue) (k : string),
  (forall j f, (i <= j)%nat -> k <> light_key j f) ->
  lights_uniforms i lights U !! k = U !! k.
Proof.
  induction lights as [|l rest IH]; intros i U k Hk; [reflexivity|].
  cbn [lights_uniforms]. rewrite IH.
  - apply template_light_uniforms_other. intros f. apply Hk. lia.
  - intros j f Hj. apply Hk. lia.
Qed.

(** What the loop over the lights leaves under the keys of the light at
    index [i + j]. *)
Lemma template_lights_uniforms_lookup (lights : list IblHost.PonctualLight) :
  forall (i : nat) (U : gmap string IblHost.UniformValue) (j : nat)
         (l : IblHost.PonctualLight),
  lights !! j = Some l ->
  let U' := lights_uniforms i lights U in
  match l with
  | IblHost.DirectionalLight d c k =>
      U' !! light_key (i + j) "type"
      = Some (IblHost.UNumber (IZR (IblHost.LightType_value IblHost.DIRECTIONAL)))
      /\ U' !! light_key (i + j) "position" = Some (IblHost.UVec3 d)
      /\ U' !! light_key (i + j) "color" = Some (IblHost.UVec3 c)
      /\ U' !! light_key (i + j) "intensity" = Some (IblHost.UNumber k)
  | IblHost.PointLight p c k =>
      U' !! light_key (i + j) "type"
      = Some (IblHost.UNumber (IZR (IblHost.LightType_value IblHost.POINT)))
      /\ U' !! light_key (i + j) "position" = Some (IblHost.UVec3 p)
      /\ U' !! light_key (i + j) "color" = Some (IblHost.UVec3 c)
      /\ U' !! light_key (i + j) "intensity" = Some (IblHost.UNumber k)
  | IblHost.OtherLight _ _ =>
      forall f, U' !! light_key (i + j) f = U !! light_key (i + j) f
  end.
Proof.
  induction lights as [|l0 rest IH]; intros i U j l Hj; [discriminate Hj|].
  destruct j as [|j].
  - injection Hj as ->. cbv zeta. cbn [lights_uniforms]. rewrite Nat.add_0_r.
    assert (Hlater : forall f j' g, (S i <= j')%nat -> light_key i f <> light_key j' g).
    { intros f j' g Hj' E. apply template_light_key_inj in E as [-> _]. lia. }
    assert (Hne : forall f g : string, f <> g -> light_key i g <> light_key i f).
    { intros f g Hfg E. apply template_light_key_inj in E as [_ ->]. now elim Hfg. }
    destruct l as [d c k|p c k|c k].
    + rewrite !template_lights_uniforms_other by (intros; now apply Hlater).
      unfold light_uniforms. repeat split.
      * rewrite !lookup_insert_ne by (apply Hne; discriminate). apply lookup_insert_eq.
      * rewrite !lookup_insert_ne by (apply Hne; discriminate). apply lookup_insert_eq.
      * rewrite !lookup_insert_ne by (apply Hne; discriminate). apply lookup_insert_eq.
      * apply lookup_insert_eq.
    + rewrite !template_lights_uniforms_other by (intros; now apply Hlater).
      unfold light_uniforms. repeat split.
      * rewrite !lookup_insert_ne by (apply Hne; discriminate). apply lookup_insert_eq.
      * rewrite !lookup_insert_ne by (apply Hne; discriminate). apply lookup_insert_eq.
      * rewrite !lookup_insert_ne by (apply Hne; discriminate). apply lookup_insert_eq.
      * apply lookup_insert_eq.
    + intros f. rewrite template_lights_uniforms_other by (intros; now apply Hlater).
      reflexivity.
  - cbn [lights_uniforms]. replace (i + S j)%nat with (S i + j)%nat by lia.
    pose proof (IH (S i) (light_uniforms i l0 U) j l Hj) as H. cbv zeta in H.
    destruct l as [d c k|p c k|c k]; try exact H.
    intros f. rewrite H. apply template_light_uniforms_other.
    intros g E. apply template_light_key_inj in E as [E _]. lia.
Qed.

(** The albedo that the write in place leaves when the key is absent or
    holds a [vec3]. *)
Lemma template_albedo_written (U : gmap string IblHost.UniformValue) (v : vec3) :
  U !! "uMaterial.albedo"%string = None
  \/ (exists a, U !! "uMaterial.albedo"%string = Some (IblHost.UVec3 a)) ->
  vec3_set (ensure "uMaterial.albedo" (IblHost.UVec3 (vec3s 0)) U
              !! "uMaterial.albedo"%string) v
  = Some (IblHost.UVec3 v).
Proof.
  intros [Hn|(a & Ha)]; unfold ensure.
  - rewrite Hn. cbn [truthy]. rewrite lookup_insert_eq. reflexivity.
  - rewrite Ha. cbn [truthy]. rewrite Ha. reflexivity.
Qed.

Lemma template_material_uniforms_WsToCs (app : Application)
    (albedo : IblHost.UniformValue) :
  material_uniforms app albedo !! "uCamera.WsToCs"%string
  = _uniforms app !! "uCamera.WsToCs"%string.
Proof.
  unfold material_uniforms. cbv zeta.
  rewrite template_lights_uniforms_other
    by (intros; apply template_key_ne_light; discriminate).
  rewrite !lookup_insert_ne by discriminate.
  unfold ensure. destruct (truthy _); [reflexivity|].
  now rewrite lookup_insert_ne by discriminate.
Qed.

(** A frame of the single-sphere host, from a uniform map in which the
    two arrays written in place are absent (as the constructor leaves
    them) or of their type. *)
Lemma template_render_done (app : Application) :
  _uniforms app !! "uMaterial.albedo"%string = None
  \/ (exists a, _uniforms app !! "uMaterial.albedo"%string = Some (IblHost.UVec3 a)) ->
  _uniforms app !! "uCamera.WsToCs"%string = None
  \/ (exists w, _uniforms app !! "uCamera.WsToCs"%string = Some (IblHost.UMat4 w)) ->
  exists U0,
    render app
    = Done {| _context := (_context app ++ [Clear; SetDepthTest true; SetCulling_BACK])
                          ++ [Draw (<["uCamera.position"%string :=
                                        IblHost.UVec3 (IblHost.position (_camera app))]>
                                      (<["uCamera.WsToCs"%string :=
                                           IblHost.UMat4 (IblHost.WsToCs (_camera app))]>
                                         U0))];
              _uniforms := <["uCamera.position"%string :=
                               IblHost.UVec3 (IblHost.position (_camera app))]>
                             (<["uCamera.WsToCs"%string :=
                                  IblHost.UMat4 (IblHost.WsToCs (_camera app))]> U0);
              _lights := _lights app; _camera := _camera app;
              _guiProperties := _guiProperties app |}
    /\ forall k, k <> "uCamera.WsToCs"%string ->
         U0 !! k
         = material_uniforms app
             (IblHost.UVec3
                (vdivs (IblHost.albedo (gui_material (_guiProperties app))) 255)) !! k.
Proof.
  intros Ha Hw. unfold render. cbv zeta.
  rewrite (template_albedo_written _ _ Ha).
  set (M := material_uniforms app _).
  assert (HM : M !! "uCamera.WsToCs"%string = _uniforms app !! "uCamera.WsToCs"%string)
    by apply template_material_uniforms_WsToCs.
  exists (ensure "uCamera.WsToCs" (IblHost.UMat4 mat4_create) M).
  unfold ensure. rewrite HM.
  destruct Hw as [Hn|(w & Hw)].
  - rewrite Hn. cbn [truthy]. rewrite lookup_insert_eq. cbn [mat4_multiply].
    split; [reflexivity|]. intros k Hk. now rewrite lookup_insert_ne by congruence.
  - rewrite Hw. cbn [truthy]. rewrite HM, Hw. cbn [mat4_multiply].
    split; [reflexivity|]. reflexivity.
Qed.

(** The single-sphere host gives a light of an unknown class no uniform
    and does not fail: the frame runs to its end with its one draw call,
    and that call sees under every key [lights[j].*] of such a light what
    the uniform map held before the frame, nothing when the map was
    empty. *)
Theorem template_render_skips_unknown_lights (app : Application)
    (j : nat) (c : vec3) (i : R) (f : string) :
  _uniforms app !! "uMaterial.albedo"%string = None
  \/ (exists a, _uniforms app !! "uMaterial.albedo"%string = Some (IblHost.UVec3 a)) ->
  _uniforms app !! "uCamera.WsToCs"%string = None
  \/ (exists w, _uniforms app !! "uCamera.WsToCs"%string = Some (IblHost.UMat4 w)) ->
  _lights app !! j = Some (IblHost.OtherLight c i) ->
  exists app' U,
    render app = Done app'
    /\ _context app'
       = _context app ++ [Clear; SetDepthTest true; SetCulling_BACK; Draw U]
    /\ U !! light_key j f = _uniforms app !! light_key j f.
Proof.
  intros Ha Hw Hj.
  destruct (template_render_done app Ha Hw) as (U0 & E & HU0).
  set (U := <["uCamera.position"%string := _]> _) in E.
  eexists. exists U. split; [exact E|]. cbn [_context].
  split; [now rewrite <- app_assoc|]. unfold U.
  rewrite !lookup_insert_ne by (intros E'; symmetry in E'; revert E';
                                apply template_light_key_ne; discriminate).
  rewrite HU0 by (apply template_light_key_ne; discriminate).
  unfold material_uniforms. cbv zeta.
  match goal with
  | |- lights_uniforms 0 _ ?X !! _ = _ =>
      pose proof (template_lights_uniforms_lookup (_lights app) 0 X j _ Hj) as HL
  end.
  cbv zeta in HL. rewrite Nat.add_0_l in HL.
  rewrite HL.
  rewrite !lookup_insert_ne by (intros E'; symmetry in E'; revert E';
                                apply template_light_key_ne; discriminate).
  unfold ensure. destruct (truthy _); [reflexivity|].
  rewrite lookup_insert_ne by (intros E'; symmetry in E'; revert E';
                               apply template_light_key_ne; discriminate).
  reflexivity.
Qed.

Lemma template_render_skips_unknown_lights_witness :
  let app := demo_app [IblHost.OtherLight (vec3s 1) 1] in
  exists app' U,
    render app = Done app'
    /\ _context app'
       = _context app ++ [Clear; SetDepthTest true; SetCulling_BACK; Draw U]
    /\ U !! light_key 0 "type" = _uniforms app !! light_key 0 "type".
Proof.
  cbv zeta.
  apply (template_render_skips_unknown_lights
           (demo_app [IblHost.OtherLight (vec3s 1) 1]) 0 (vec3s 1) 1 "type").
  - left. reflexivity.
  - left. reflexivity.
  - reflexivity.
Defined.

(** The one draw call of a frame of the single-sphere host is given the
    material of the GUI (the albedo of the picker divided by 255), the
    camera of the frame and, for the light at each index [j] that is a
    [DirectionalLight] or a [PointLight], its tag, its direction or
    position under [lights[j].position], its colour and its intensity;
    afterwards the two arrays written in place are in the map. *)
Theorem template_render_draws_gui_material_and_lights (app : Application)
    (j : nat) (l : IblHost.PonctualLight) :
  _uniforms app !! "uMaterial.albedo"%string = None
  \/ (exists a, _uniforms app !! "uMaterial.albedo"%string = Some (IblHost.UVec3 a)) ->
  _uniforms app !! "uCamera.WsToCs"%string = None
  \/ (exists w, _uniforms app !! "uCamera.WsToCs"%string = Some (IblHost.UMat4 w)) ->
  _lights app !! j = Some l -> IblHost.unrecognised l = false ->
  exists app' U,
    render app = Done app'
    /\ _context app'
       = _context app ++ [Clear; SetDepthTest true; SetCulling_BACK; Draw U]
    /\ _uniforms app' = U
    /\ U !! "uMaterial.albedo"%string
       = Some (IblHost.UVec3
                 (vdivs (IblHost.albedo (gui_material (_guiProperties app))) 255))
    /\ U !! "uMaterial.metallic"%string
       = Some (IblHost.UNumber (IblHost.metallic (gui_material (_guiProperties app))))
    /\ U !! "uMaterial.roughness"%string
       = Some (IblHost.UNumber (IblHost.roughness (gui_material (_guiProperties app))))
    /\ U !! "uCamera.WsToCs"%string
       = Some (IblHost.UMat4 (IblHost.WsToCs (_camera app)))
    /\ U !! "uCamera.position"%string
       = Some (IblHost.UVec3 (IblHost.position (_camera app)))
    /\ U !! light_key j "type" = Some (IblHost.UNumber (IZR (IblApp.light_tag l)))
    /\ U !! light_key j "position"
       = match l with
         | IblHost.DirectionalLight d _ _ => Some (IblHost.UVec3 d)
         | IblHost.PointLight p _ _ => Some (IblHost.UVec3 p)
         | IblHost.OtherLight _ _ => None
         end
    /\ U !! light_key j "color" = Some (IblHost.UVec3 (IblHost.light_color l))
    /\ U !! light_key j "intensity"
       = Some (IblHost.UNumber (IblHost.light_intensity l)).
Proof.
  intros Ha Hw Hj Hl.
  destruct (template_render_done app Ha Hw) as (U0 & E & HU0).
  set (U := <["uCamera.position"%string := _]> _) in E.
  eexists. exists U. split; [exact E|]. cbn [_context _uniforms].
  split; [now rewrite <- app_assoc|]. split; [reflexivity|]. unfold U. clear E U.
  assert (Hkey : forall g,
             <["uCamera.position"%string :=
                 IblHost.UVec3 (IblHost.position (_camera app))]>
               (<["uCamera.WsToCs"%string :=
                    IblHost.UMat4 (IblHost.WsToCs (_camera app))]> U0)
               !! light_key j g
             = lights_uniforms 0 (_lights app)
                 (<["uMaterial.roughness"%string :=
                      IblHost.UNumber
                        (IblHost.roughness (gui_material (_guiProperties app)))]>
                    (<["uMaterial.metallic"%string :=
                         IblHost.UNumber
                           (IblHost.metallic (gui_material (_guiProperties app)))]>
                       (<["uMaterial.albedo"%string :=
                            IblHost.UVec3
                              (vdivs (IblHost.albedo (gui_material (_guiProperties app)))
                                 255)]>
                          (ensure "uMaterial.albedo" (IblHost.UVec3 (vec3s 0))
                             (_uniforms app)))))
                 !! light_key j g).
  { intros g.
    rewrite !lookup_insert_ne by (intros E'; symmetry in E'; revert E';
                                  apply template_light_key_ne; discriminate).
    rewrite HU0 by (apply template_light_key_ne; discriminate). reflexivity. }
  assert (Hfix : forall k : string,
             k <> "uCamera.WsToCs"%string -> k <> "uCamera.position"%string ->
             (forall rest, k <> String "l" rest) ->
             <["uCamera.position"%string :=
                 IblHost.UVec3 (IblHost.position (_camera app))]>
               (<["uCamera.WsToCs"%string :=
                    IblHost.UMat4 (IblHost.WsToCs (_camera app))]> U0) !! k
             = <["uMaterial.roughness"%string :=
                   IblHost.UNumber
                     (IblHost.roughness (gui_material (_guiProperties app)))]>
                 (<["uMaterial.metallic"%string :=
                      IblHost.UNumber
                        (IblHost.metallic (gui_material (_guiProperties app)))]>
                    (<["uMaterial.albedo"%string :=
                         IblHost.UVec3
                           (vdivs (IblHost.albedo (gui_material (_guiProperties app)))
                              255)]>
                       (ensure "uMaterial.albedo" (IblHost.UVec3 (vec3s 0))
                          (_uniforms app)))) !! k).
  { intros k H1 H2 H3.
    rewrite !lookup_insert_ne by congruence.
    rewrite HU0 by exact H1. unfold material_uniforms. cbv zeta.
    apply template_lights_uniforms_other.
    intros j' g _. now apply template_key_ne_light. }
  pose proof (template_lights_uniforms_lookup (_lights app) 0) as HL.
  specialize (HL (<["uMaterial.roughness"%string :=
                      IblHost.UNumber
                        (IblHost.roughness (gui_material (_guiProperties app)))]>
                    (<["uMaterial.metallic"%string :=
                         IblHost.UNumber
                           (IblHost.metallic (gui_material (_guiProperties app)))]>
                       (<["uMaterial.albedo"%string :=
                            IblHost.UVec3
                              (vdivs (IblHost.albedo (gui_material (_guiProperties app)))
                                 255)]>
                          (ensure "uMaterial.albedo" (IblHost.UVec3 (vec3s 0))
                             (_uniforms app))))) j l Hj).
  cbv zeta in HL. rewrite Nat.add_0_l in HL.
  split.
  { rewrite Hfix by discriminate.
    rewrite !lookup_insert_ne by discriminate. apply lookup_insert_eq. }
  split.
  { rewrite Hfix by discriminate.
    rewrite lookup_insert_ne by discriminate. apply lookup_insert_eq. }
  split.
  { rewrite Hfix by discriminate. apply lookup_insert_eq. }
  split.
  { rewrite lookup_insert_ne by discriminate. apply lookup_insert_eq. }
  split.
  { apply lookup_insert_eq. }
  rewrite !Hkey.
  destruct l as [d c k|p c k|c k]; [| |discriminate Hl];
    destruct HL as (Ht & Hp & Hc & Hi); repeat split; assumption.
Qed.

Lemma template_render_draws_gui_material_and_lights_witness :
  let l := IblHost.PointLight (Vec3 0 0 2) (vec3s 1) 1 in
  let app := demo_app [l] in
  exists app' U,
    render app = Done app'
    /\ _context app'
       = _context app ++ [Clear; SetDepthTest true; SetCulling_BACK; Draw U]
    /\ _uniforms app' = U
    /\ U !! "uMaterial.albedo"%string
       = Some (IblHost.UVec3
                 (vdivs (IblHost.albedo (gui_material (_guiProperties app))) 255))
    /\ U !! "uMaterial.metallic"%string
       = Some (IblHost.UNumber (IblHost.metallic (gui_material (_guiProperties app))))
    /\ U !! "uMaterial.roughness"%string
       = Some (IblHost.UNumber (IblHost.roughness (gui_material (_guiProperties app))))
    /\ U !! "uCamera.WsToCs"%string
       = Some (IblHost.UMat4 (IblHost.WsToCs (_camera app)))
    /\ U !! "uCamera.position"%string
       = Some (IblHost.UVec3 (IblHost.position (_camera app)))
    /\ U !! light_key 0 "type" = Some (IblHost.UNumber (IZR (IblApp.light_tag l)))
    /\ U !! light_key 0 "position" = Some (IblHost.UVec3 (Vec3 0 0 2))
    /\ U !! light_key 0 "color" = Some (IblHost.UVec3 (IblHost.light_color l))
    /\ U !! light_key 0 "intensity"
       = Some (IblHost.UNumber (IblHost.light_intensity l)).
Proof.
  cbv zeta.
  apply (template_render_draws_gui_material_and_lights
           (demo_app [IblHost.PointLight (Vec3 0 0 2) (vec3s 1) 1]) 0
           (IblHost.PointLight (Vec3 0 0 2) (vec3s 1) 1)).
  - left. reflexivity.
  - left. reflexivity.
  - reflexivity.
  - reflexivity.
Defined.

End TemplateFrames.
